(** * A-star search on a grid (robopath.py) and on the 8-puzzle (week3.py)

    Shallow embedding of the two search programs of the repository and
    the properties of their specification.

    Python integers are unbounded, hence [Z].  Dictionaries are [gmap],
    sets are [gset].  A Python exception is an explicit [Raised] outcome;
    a loop that could run forever is given fuel, and [None] means that the
    fuel ran out (never that the program returned). *)

From Stdlib Require Import ZArith Lia Ascii String DecimalString.
From stdpp Require Import gmap list sorting.

Open Scope Z_scope.
Set Default Proof Using "Type".

(** ** Outcomes of a Python call *)

Inductive exn := KeyError | IndexError | ValueError.

Inductive outcome (A : Type) :=
  | Returned (a : A)
  | Raised (e : exn).
Arguments Returned {A} a.
Arguments Raised {A} e.

#[global] Instance outcome_ret : MRet outcome := fun A a => Returned a.

#[global] Instance outcome_bind : MBind outcome := fun A B k m =>
  match m with
  | Returned a => k a
  | Raised e => Raised e
  end.

(** A [for] loop over a list whose body may raise. *)
Fixpoint for_each {A S} (body : S → A → outcome S) (l : list A) (s : S) : outcome S :=
  match l with
  | [] => Returned s
  | a :: l' => s' ← body s a; for_each body l' s'
  end.

(** ** heapq

    [heapq] is modelled by its contract: [heappush] adds an entry and
    [heappop] removes and returns a least entry of the heap.  The entries
    of both programs are tuples compared lexicographically; [ltb] is that
    strict comparison.  When [ltb] is total on the entries present, the
    least entry is unique, so the layout of the underlying array cannot be
    observed. *)

Section Heapq.
Context {E : Type} (ltb : E → E → bool).

Definition heappush (h : list E) (e : E) : list E := h ++ [e].

Fixpoint heappop (h : list E) : option (E * list E) :=
  match h with
  | [] => None
  | e :: h' =>
    match heappop h' with
    | None => Some (e, [])
    | Some (m, r) => if ltb m e then Some (m, e :: r) else Some (e, h')
    end
  end.
End Heapq.

(** ** robopath.py *)

Module Robopath.

Abbreviation Point := (Z * Z)%type.

(** Frontier entry [(priority, tentative_g, point)]. *)
Abbreviation Entry := (Z * Z * (Z * Z))%type.

Definition manhattan (a b : Point) : Z :=
  Z.abs (a.1 - b.1) + Z.abs (a.2 - b.2).

Definition neighbors (pt : Point) (width height : Z) : list Point :=
  let '(x, y) := pt in
  (if bool_decide (x > 0) then [(x - 1, y)] else []) ++
  (if bool_decide (x < width - 1) then [(x + 1, y)] else []) ++
  (if bool_decide (y > 0) then [(x, y - 1)] else []) ++
  (if bool_decide (y < height - 1) then [(x, y + 1)] else []).

(** Python's [<] on tuples of integers. *)
Definition point_ltb (a b : Point) : bool :=
  (a.1 <? b.1) || ((a.1 =? b.1) && (a.2 <? b.2)).

Definition entry_ltb (e1 e2 : Entry) : bool :=
  let '(p1, g1, n1) := e1 in
  let '(p2, g2, n2) := e2 in
  (p1 <? p2) || ((p1 =? p2) && ((g1 <? g2) || ((g1 =? g2) && point_ltb n1 n2))).

(** The local variables of [astar].  [push_log] is not a variable of the
    program: it records, oldest first, every entry given to
    [heapq.heappush], so that statements about the pushes of one search
    can be made. *)
Record SearchState := mkSearch {
  open_heap : list Entry;
  came_from : gmap Point (option Point);
  gscore : gmap Point Z;
  push_log : list Entry
}.

Definition push (e : Entry) (st : SearchState) : SearchState :=
  {| open_heap := heappush (open_heap st) e;
     came_from := came_from st;
     gscore := gscore st;
     push_log := push_log st ++ [e] |}.

Definition init_state (start goal : Point) : SearchState :=
  push (manhattan start goal, 0, start)
    {| open_heap := [];
       came_from := {[ start := None ]};
       gscore := {[ start := 0 ]};
       push_log := [] |}.

Section Astar.
Variables (start goal : Point) (width height : Z) (blocked : gset Point).

(** Body of the loop [for nbr in neighbors(current, width, height)]. *)
Definition relax (current : Point) (st : SearchState) (nbr : Point)
  : outcome SearchState :=
  if bool_decide (nbr ∈ blocked) then Returned st
  else
    match gscore st !! current with
    | None => Raised KeyError
    | Some gc =>
      let tentative_g := gc + 1 in
      if match gscore st !! nbr with
         | None => true
         | Some gn => tentative_g <? gn
         end
      then
        let st1 :=
          {| open_heap := open_heap st;
             came_from := came_from st;
             gscore := <[ nbr := tentative_g ]> (gscore st);
             push_log := push_log st |} in
        let priority := tentative_g + manhattan nbr goal in
        let st2 := push (priority, tentative_g, nbr) st1 in
        Returned
          {| open_heap := open_heap st2;
             came_from := <[ nbr := Some current ]> (came_from st2);
             gscore := gscore st2;
             push_log := push_log st2 |}
      else Returned st
    end.

Definition expand (current : Point) (st : SearchState) : outcome SearchState :=
  for_each (relax current) (neighbors current width height) st.

(** The loop [while node is not None] that rebuilds the path. *)
Fixpoint walk (fuel : nat) (cf : gmap Point (option Point))
    (node : option Point) (path : list Point)
  : option (outcome (list Point)) :=
  match node with
  | None => Some (Returned (reverse path))
  | Some n =>
    match fuel with
    | O => None
    | S fuel' =>
      match cf !! n with
      | None => Some (Raised KeyError)
      | Some next => walk fuel' cf next (path ++ [n])
      end
    end
  end.

Definition with_heap (h : list Entry) (st : SearchState) : SearchState :=
  {| open_heap := h;
     came_from := came_from st;
     gscore := gscore st;
     push_log := push_log st |}.

(** The loop [while open_heap].  The result carries the local state at
    the moment the function leaves. *)
Fixpoint astar_loop (fuel : nat) (st : SearchState)
  : option (outcome (option (list Point)) * SearchState) :=
  match fuel with
  | O => None
  | S fuel' =>
    match heappop entry_ltb (open_heap st) with
    | None => Some (Returned None, st)
    | Some ((_, current_g, current), h') =>
      let st' := with_heap h' st in
      if bool_decide (current = goal) then
        match walk fuel' (came_from st') (Some current) [] with
        | None => None
        | Some (Returned path) => Some (Returned (Some path), st')
        | Some (Raised e) => Some (Raised e, st')
        end
      else
        match expand current st' with
        | Raised e => Some (Raised e, st')
        | Returned st'' => astar_loop fuel' st''
        end
    end
  end.

Definition astar_run (fuel : nat)
  : option (outcome (option (list Point)) * SearchState) :=
  astar_loop fuel (init_state start goal).

Definition astar (fuel : nat) : option (outcome (option (list Point))) :=
  fst <$> astar_run fuel.
End Astar.

End Robopath.

(** ** robopath.py: output and command line

    What the program prints is the list of its lines, one per call of
    [print]. *)

Module RobopathMain.
Import Robopath.

(** [range(n)]: empty when [n] is not positive. *)
Definition range (n : Z) : list Z := seqZ 0 n.

(** The string appended to [row] for the cell [p]. *)
Definition cell (blocked path_set : gset Point) (start goal p : Point) : string :=
  if bool_decide (p = start) then "S"
  else if bool_decide (p = goal) then "G"
  else if bool_decide (p ∈ path_set) then "*"
  else if bool_decide (p ∈ blocked) then "#"
  else ".".

Definition print_grid (width height : Z) (blocked : gset Point)
    (path : option (list Point)) (start goal : Point) : list string :=
  let path_set : gset Point := list_to_set (default [] path) in
  (λ y, String.concat " "
          ((λ x, cell blocked path_set start goal (x, y)) <$> range width))
    <$> range height.

(** [repr] of an integer, of a pair of integers and of a list of such
    pairs. *)
Definition repr_int (z : Z) : string := NilZero.string_of_int (Z.to_int z).

Definition repr_point (p : Point) : string :=
  ("(" ++ repr_int p.1 ++ ", " ++ repr_int p.2 ++ ")")%string.

Definition repr_path (l : list Point) : string :=
  ("[" ++ String.concat ", " (repr_point <$> l) ++ "]")%string.

(** The local variables of [main] that the arguments can change. *)
Record Locals := mkLocals {
  width : Z;
  height : Z;
  start : Point;
  goal : Point;
  blocked : gset Point
}.

Definition defaults : Locals :=
  {| width := 5; height := 3; start := (0, 0); goal := (4, 2);
     blocked := {[ (1, 0); (1, 1); (3, 1) ]} |}.

Section Main.
(** The builtin [int] on a string: the integer, or [None] when it raises
    [ValueError]. *)
Variable int : string → option Z.

(** [int(argv[i])] inside the [try] block: [None] for any exception. *)
Definition arg (argv : list string) (i : nat) : option Z :=
  match argv !! i with
  | Some s => int s
  | None => None
  end.

(** The [try] block: the assignments made before the first exception
    stay. *)
Definition parse_args (argv : list string) (l : Locals) : Locals :=
  match arg argv 1 with
  | None => l
  | Some w =>
    let l1 := {| width := w; height := height l; start := start l;
                 goal := goal l; blocked := blocked l |} in
    match arg argv 2 with
    | None => l1
    | Some h =>
      let l2 := {| width := w; height := h; start := start l;
                   goal := goal l; blocked := blocked l |} in
      match arg argv 3 with
      | None => l2
      | Some sx =>
        match arg argv 4 with
        | None => l2
        | Some sy =>
          let l3 := {| width := w; height := h; start := (sx, sy);
                       goal := goal l; blocked := blocked l |} in
          match arg argv 5 with
          | None => l3
          | Some gx =>
            match arg argv 6 with
            | None => l3
            | Some gy =>
              {| width := w; height := h; start := (sx, sy);
                 goal := (gx, gy); blocked := blocked l |}
            end
          end
        end
      end
    end
  end.

(** The local variables when [astar] is called. *)
Definition configure (argv : list string) : Locals :=
  if bool_decide (7 ≤ length argv)%nat then parse_args argv defaults else defaults.

(** The line printed after the grid. *)
Definition path_line (path : option (list Point)) : string :=
  match path with
  | Some (p :: l) => ("Path: " ++ repr_path (p :: l))%string
  | _ => "No path found"
  end.

Definition main (fuel : nat) (argv : list string) : option (outcome (list string)) :=
  let l := configure argv in
  match astar (start l) (goal l) (width l) (height l) (blocked l) fuel with
  | None => None
  | Some (Raised e) => Some (Raised e)
  | Some (Returned path) =>
    Some (Returned
      (print_grid (width l) (height l) (blocked l) path (start l) (goal l) ++
       [path_line path]))
  end.
End Main.

(** The character shown for the cell [p] in printed lines. *)
Definition shown (lines : list string) (p : Point) : option Ascii.ascii :=
  match lines !! Z.to_nat p.2 with
  | Some line => String.get (2 * Z.to_nat p.1) line
  | None => None
  end.

End RobopathMain.

(** ** week3.py *)

Module Week3.

(** [range(9)]. *)
Definition range9 : list Z := [0; 1; 2; 3; 4; 5; 6; 7; 8].

(** [seq.index(v)]: position of the first occurrence, [ValueError] when
    there is none. *)
Fixpoint index (v : Z) (l : list Z) : outcome Z :=
  match l with
  | [] => Raised ValueError
  | x :: l' =>
    if bool_decide (x = v) then Returned 0
    else i ← index v l'; Returned (i + 1)
  end.

(** Subscripts: a negative subscript counts from the end, and a
    subscript out of range raises [IndexError]. *)
Definition norm_index (l : list Z) (i : Z) : outcome nat :=
  let j := if bool_decide (i < 0) then i + Z.of_nat (length l) else i in
  if bool_decide (0 ≤ j < Z.of_nat (length l)) then Returned (Z.to_nat j)
  else Raised IndexError.

Definition getitem (l : list Z) (i : Z) : outcome Z :=
  j ← norm_index l i;
  match l !! j with
  | Some x => Returned x
  | None => Raised IndexError
  end.

Definition setitem (l : list Z) (i : Z) (x : Z) : outcome (list Z) :=
  j ← norm_index l i; Returned (<[ j := x ]> l).

(** The dataclass [PuzzleState].  [parent] refers to an object that is
    never modified after its creation, so it is held by value. *)
#[local] Unset Elimination Schemes.
Inductive PuzzleState := mkPuzzleState {
  tiles : list Z;
  moves : Z;
  parent : option PuzzleState;
  move_description : string
}.
#[local] Set Elimination Schemes.

Definition goal : list Z := [1; 2; 3; 4; 5; 6; 7; 8; 0].

Definition heuristic_step (ts : list Z) (distance : Z) (i : Z) : outcome Z :=
  t ← getitem ts i;
  if bool_decide (t ≠ 0) then
    let current_row := i `div` 3 in
    let current_col := i `mod` 3 in
    goal_pos ← index t goal;
    let goal_row := goal_pos `div` 3 in
    let goal_col := goal_pos `mod` 3 in
    Returned (distance + (Z.abs (current_row - goal_row) + Z.abs (current_col - goal_col)))
  else Returned distance.

Definition heuristic (s : PuzzleState) : outcome Z :=
  for_each (heuristic_step (tiles s)) range9 0.

Definition is_goal (s : PuzzleState) : outcome bool :=
  h ← heuristic s; Returned (bool_decide (h = 0)).

(** The dictionary [directions], in insertion order. *)
Definition directions : list (string * (Z * Z)) :=
  [("up"%string, (-1, 0)); ("down"%string, (1, 0));
   ("left"%string, (0, -1)); ("right"%string, (0, 1))].

Definition move_step (s : PuzzleState) (blank_pos : Z)
    (next_states : list PuzzleState) (d : string * (Z * Z))
  : outcome (list PuzzleState) :=
  let '(direction, (dr, dc)) := d in
  let blank_row := blank_pos `div` 3 in
  let blank_col := blank_pos `mod` 3 in
  let new_row := blank_row + dr in
  let new_col := blank_col + dc in
  if bool_decide ((0 ≤ new_row ∧ new_row < 3) ∧ (0 ≤ new_col ∧ new_col < 3)) then
    let new_pos := new_row * 3 + new_col in
    let tiles_list := tiles s in
    a ← getitem tiles_list new_pos;
    b ← getitem tiles_list blank_pos;
    l1 ← setitem tiles_list blank_pos a;
    l2 ← setitem l1 new_pos b;
    Returned (next_states ++
      [ {| tiles := l2; moves := moves s + 1; parent := Some s;
           move_description := direction |} ])
  else Returned next_states.

Definition get_moves (s : PuzzleState) : outcome (list PuzzleState) :=
  blank_pos ← index 0 (tiles s);
  for_each (move_step s blank_pos) directions [].

(** The object [EightPuzzleSolver].  [explored] is a set of states, which
    hash and compare by their tiles. *)
Record Solver := mkSolver {
  initial_state : PuzzleState;
  goal_state : PuzzleState;
  explored : gset (list Z);
  nodes_expanded : Z
}.

(** [sorted] on a list of integers. *)
Definition sorted (l : list Z) : list Z := merge_sort Z.le l.

(** [EightPuzzleSolver.__init__]. *)
Definition init (initial_tiles : list Z) : outcome Solver :=
  if bool_decide (length initial_tiles ≠ 9%nat ∨ sorted initial_tiles ≠ range9)
  then Raised ValueError
  else Returned
    {| initial_state :=
         {| tiles := initial_tiles; moves := 0; parent := None;
            move_description := ""%string |};
       goal_state :=
         {| tiles := goal; moves := 0; parent := None;
            move_description := ""%string |};
       explored := ∅;
       nodes_expanded := 0 |}.

(** Frontier entry [(f_score, counter, state)].  Python compares the
    tuples lexicographically and reaches the state only when both numbers
    are equal, which the counter excludes: the order is the one on the
    first two components. *)
Abbreviation Entry := (Z * Z * PuzzleState)%type.

Definition entry_ltb (e1 e2 : Entry) : bool :=
  let '(f1, c1, _) := e1 in
  let '(f2, c2, _) := e2 in
  (f1 <? f2) || ((f1 =? f2) && (c1 <? c2)).

(** The solver object together with the local variables of [solve].
    [push_log] is not a variable of the program: it records, oldest
    first, every entry given to [heapq.heappush]. *)
Record SearchState := mkSearch {
  solver : Solver;
  open_set : list Entry;
  counter : Z;
  visited : gset (list Z);
  push_log : list Entry
}.

Definition push (e : Entry) (st : SearchState) : SearchState :=
  {| solver := solver st;
     open_set := heappush (open_set st) e;
     counter := counter st;
     visited := visited st;
     push_log := push_log st ++ [e] |}.

(** Body of the loop [for next_state in current.get_moves()]. *)
Definition visit (st : SearchState) (next_state : PuzzleState)
  : outcome SearchState :=
  if bool_decide (tiles next_state ∉ visited st) then
    let st1 :=
      {| solver := solver st; open_set := open_set st; counter := counter st;
         visited := {[ tiles next_state ]} ∪ visited st;
         push_log := push_log st |} in
    h ← heuristic next_state;
    let f_score := moves next_state + h in
    let st2 := push (f_score, counter st1, next_state) st1 in
    Returned
      {| solver := solver st2; open_set := open_set st2;
         counter := counter st2 + 1;
         visited := visited st2; push_log := push_log st2 |}
  else Returned st.

(** The loop [while node is not None] over the parent references. *)
Fixpoint chain (node : PuzzleState) : list PuzzleState :=
  match node with
  | mkPuzzleState _ _ p _ =>
    node :: match p with
            | None => []
            | Some node' => chain node'
            end
  end.

(** [self.explored.add(current)] and [self.nodes_expanded += 1]. *)
Definition popped (h : list Entry) (current : PuzzleState) (st : SearchState)
  : SearchState :=
  {| solver :=
       {| initial_state := initial_state (solver st);
          goal_state := goal_state (solver st);
          explored := {[ tiles current ]} ∪ explored (solver st);
          nodes_expanded := nodes_expanded (solver st) + 1 |};
     open_set := h;
     counter := counter st;
     visited := visited st;
     push_log := push_log st |}.

Abbreviation Result := (bool * list PuzzleState * Z)%type.

(** The loop [while open_set]. *)
Fixpoint solve_loop (fuel : nat) (st : SearchState)
  : option (outcome Result * SearchState) :=
  match fuel with
  | O => None
  | S fuel' =>
    match heappop entry_ltb (open_set st) with
    | None => Some (Returned (false, [], nodes_expanded (solver st)), st)
    | Some ((_, _, current), h') =>
      let st' := popped h' current st in
      match is_goal current with
      | Raised e => Some (Raised e, st')
      | Returned true =>
        Some (Returned (true, reverse (chain current),
                        nodes_expanded (solver st')), st')
      | Returned false =>
        match get_moves current with
        | Raised e => Some (Raised e, st')
        | Returned next_states =>
          match for_each visit next_states st' with
          | Raised e => Some (Raised e, st')
          | Returned st'' => solve_loop fuel' st''
          end
        end
      end
    end
  end.

Definition empty_search (sv : Solver) : SearchState :=
  {| solver := sv; open_set := []; counter := 0; visited := ∅; push_log := [] |}.

(** The local state when the loop is entered. *)
Definition start_search (sv : Solver) (h0 : Z) : SearchState :=
  let st := push (h0, 0, initial_state sv) (empty_search sv) in
  {| solver := solver st; open_set := open_set st; counter := counter st + 1;
     visited := {[ tiles (initial_state sv) ]}; push_log := push_log st |}.

(** [EightPuzzleSolver.solve]: the result and the state in which the call
    leaves the solver and its local variables. *)
Definition solve_run (fuel : nat) (sv : Solver)
  : option (outcome Result * SearchState) :=
  match is_goal (initial_state sv) with
  | Raised e => Some (Raised e, empty_search sv)
  | Returned true => Some (Returned (true, [initial_state sv], 0), empty_search sv)
  | Returned false =>
    match heuristic (initial_state sv) with
    | Raised e => Some (Raised e, empty_search sv)
    | Returned h0 => solve_loop fuel (start_search sv h0)
    end
  end.

Definition solve (fuel : nat) (sv : Solver) : option (outcome Result) :=
  fst <$> solve_run fuel sv.

(** Construction followed by one call of [solve]. *)
Definition solve_tiles (fuel : nat) (initial_tiles : list Z)
  : option (outcome Result) :=
  match init initial_tiles with
  | Raised e => Some (Raised e)
  | Returned sv => solve fuel sv
  end.

End Week3.

(** * Specification vocabulary *)

(** ** Paths of a successor relation *)

Section Paths.
Context {A : Type} (R : A → A → Prop).

(** [steps n a b]: [b] is reached from [a] by exactly [n] successor
    steps. *)
Inductive steps : nat → A → A → Prop :=
  | steps_O a : steps O a a
  | steps_S n a b c : R a b → steps n b c → steps (S n) a c.

(** Every consecutive pair of the list is one successor step. *)
Fixpoint chained (l : list A) : Prop :=
  match l with
  | a :: l' =>
    match l' with
    | b :: _ => R a b ∧ chained l'
    | [] => True
    end
  | [] => True
  end.

(** [l] is a path from [a] to [b]. *)
Definition path_from_to (l : list A) (a b : A) : Prop :=
  head l = Some a ∧ last l = Some b ∧ chained l.

(** [d] is the shortest-path distance from [a] to [b]. *)
Definition distance (a b : A) (d : nat) : Prop :=
  steps d a b ∧ ∀ n, steps n a b → (d ≤ n)%nat.
End Paths.

(** Tie-break keys (second components) strictly increase along a log of
    pushes. *)
Definition keys_increasing {S} (log : list (Z * Z * S)) : Prop :=
  ∀ (i j : nat) e1 e2,
    (i < j)%nat → log !! i = Some e1 → log !! j = Some e2 → e1.1.2 < e2.1.2.

(** ** Grid *)

Module GridSpec.
Import Robopath.

Section Grid.
Variables (start goal : Point) (width height : Z) (blocked : gset Point).

(** One step of the successor generator as [astar] uses it. *)
Definition grid_step (p q : Point) : Prop :=
  q ∈ neighbors p width height ∧ q ∉ blocked.

Definition in_bounds (p : Point) : Prop :=
  (0 ≤ p.1 ∧ p.1 < width) ∧ (0 ≤ p.2 ∧ p.2 < height).

Definition adjacent4 (p q : Point) : Prop :=
  Z.abs (p.1 - q.1) + Z.abs (p.2 - q.2) = 1.

(** The region that a search from [start] cannot leave. *)
Definition lo_x : Z := Z.min (start.1) 0.
Definition hi_x : Z := Z.max (start.1) (width - 1).
Definition lo_y : Z := Z.min (start.2) 0.
Definition hi_y : Z := Z.max (start.2) (height - 1).

Definition in_box (p : Point) : Prop :=
  (lo_x ≤ p.1 ∧ p.1 ≤ hi_x) ∧ (lo_y ≤ p.2 ∧ p.2 ≤ hi_y).

Definition box : gset Point :=
  list_to_set
    (cprod (seqZ lo_x (hi_x - lo_x + 1)) (seqZ lo_y (hi_y - lo_y + 1))).

(** Predecessor links from a cell back to the start. *)
Inductive cf_chain (cf : gmap Point (option Point)) : Point → list Point → Prop :=
  | cf_chain_root n : cf !! n = Some None → cf_chain cf n [n]
  | cf_chain_link n p l :
      cf !! n = Some (Some p) → cf_chain cf p l → cf_chain cf n (n :: l).

(** What holds of the local variables of [astar] whenever the loop
    condition is evaluated and after every relaxation. *)
Record Inv (st : SearchState) : Prop := mkInv {
  inv_start_g : gscore st !! start = Some 0;
  inv_start_cf : came_from st !! start = Some None;
  inv_nonneg : ∀ n g, gscore st !! n = Some g → 0 ≤ g;
  inv_pred : ∀ n g, gscore st !! n = Some g → n ≠ start →
    ∃ p gp, came_from st !! n = Some (Some p) ∧ grid_step p n ∧
            gscore st !! p = Some gp ∧ gp + 1 ≤ g;
  inv_dom : ∀ n, came_from st !! n = None ↔ gscore st !! n = None;
  inv_heap : ∀ p g n, (p, g, n) ∈ open_heap st →
    p = g + manhattan n goal ∧ ∃ g', gscore st !! n = Some g' ∧ g' ≤ g;
  inv_box : ∀ n, is_Some (gscore st !! n) → in_box n;
  inv_small : ∀ n g, gscore st !! n = Some g → g < Z.of_nat (size (gscore st));
  inv_log : ∀ e, e ∈ open_heap st → e ∈ push_log st;
  inv_log_ok : ∀ p g n, (p, g, n) ∈ push_log st →
    p = g + manhattan n goal ∧ 0 ≤ g ∧ is_Some (gscore st !! n);
  inv_log_first : ∀ (i : nat) p g, push_log st !! i = Some (p, g, start) → i = O
}.

(** All successors of [n] have a score of at most [g + 1]. *)
Definition relaxed (st : SearchState) (n : Point) (g : Z) : Prop :=
  ∀ m, grid_step n m → ∃ gm, gscore st !! m = Some gm ∧ gm ≤ g + 1.

(** Every scored cell other than [skip] is either waiting in the heap
    with its score or has been relaxed. *)
Definition closed_or_open (skip : option Point) (st : SearchState) : Prop :=
  ∀ n g, gscore st !! n = Some g → Some n ≠ skip →
    (g + manhattan n goal, g, n) ∈ open_heap st ∨ relaxed st n g.

(** Once the goal has a score, an entry for it waits in the heap. *)
Definition goal_open (st : SearchState) : Prop :=
  is_Some (gscore st !! goal) → ∃ p g, (p, g, goal) ∈ open_heap st.

(** The state after a relaxation that records a new score. *)
Definition improved (current nbr : Point) (gc : Z) (st : SearchState) : SearchState :=
  {| open_heap := open_heap st ++ [(gc + 1 + manhattan nbr goal, gc + 1, nbr)];
     came_from := <[ nbr := Some current ]> (came_from st);
     gscore := <[ nbr := gc + 1 ]> (gscore st);
     push_log := push_log st ++ [(gc + 1 + manhattan nbr goal, gc + 1, nbr)] |}.

(** What a result of [astar] has to satisfy: no exception; a returned
    path leads from [start] to [goal] and no route is shorter; the
    no-path result only when there is no route. *)
Definition astar_post (r : outcome (option (list Point))) : Prop :=
  match r with
  | Raised _ => False
  | Returned None => ∀ n, ¬ steps grid_step n start goal
  | Returned (Some path) =>
    path_from_to grid_step path start goal ∧
    ∀ n, steps grid_step n start goal → (length path ≤ S n)%nat
  end.

(** Potential that every push decreases. *)
Definition cell_pot (gs : gmap Point Z) (c : Point) : nat :=
  match gs !! c with
  | None => size box
  | Some g => Z.to_nat g
  end.

Definition potential (gs : gmap Point Z) : nat :=
  sum_list (cell_pot gs <$> elements box).

Definition measure (st : SearchState) : nat :=
  (length (open_heap st) + potential (gscore st))%nat.

(** Number of entries that [heapq.heappop] has taken from the heap:
    every push adds one entry to the log and to the heap, every pop
    removes one from the heap. *)
Definition pops (st : SearchState) : nat :=
  (length (push_log st) - length (open_heap st))%nat.

(** How the entries given to [heapq.heappush] relate to the scores: the
    first is the start with key 0; every entry carries a key that is at
    least the score of its cell; every score is the key of an entry for
    its cell; and every later entry carries one more than the key of an
    earlier entry, for a cell of which its own is a successor. *)
Record LogInv (st : SearchState) : Prop := mkLogInv {
  log_first : push_log st !! O = Some (manhattan start goal, 0, start);
  log_score : ∀ p g n, (p, g, n) ∈ push_log st →
    ∃ g', gscore st !! n = Some g' ∧ g' ≤ g;
  log_least : ∀ n g, gscore st !! n = Some g →
    (g + manhattan n goal, g, n) ∈ push_log st;
  log_pred : ∀ (i : nat) p g n, push_log st !! S i = Some (p, g, n) →
    ∃ (j : nat) p' c, (j ≤ i)%nat ∧ push_log st !! j = Some (p', g - 1, c) ∧
                      grid_step c n
}.


End Grid.

(** The lexicographic order on the entries [(priority, g, (x, y))]. *)
Definition lex_lt (e1 e2 : Entry) : Prop :=
  e1.1.1 < e2.1.1 ∨
  (e1.1.1 = e2.1.1 ∧
   (e1.1.2 < e2.1.2 ∨
    (e1.1.2 = e2.1.2 ∧
     (e1.2.1 < e2.2.1 ∨ (e1.2.1 = e2.2.1 ∧ e1.2.2 < e2.2.2))))).

End GridSpec.

(** ** Puzzle *)

Module PuzzleSpec.
Import Week3.

Section Puzzle.
(** The tiles form a permutation of 0..8. *)
Definition valid_tiles (ts : list Z) : Prop := ts ≡ₚ range9.

(** A state as the constructor of the solver builds it. *)
Definition fresh (ts : list Z) : PuzzleState :=
  {| tiles := ts; moves := 0; parent := None; move_description := ""%string |}.

(** One step of the successor generator, on states and on tiles. *)
Definition state_step (s s' : PuzzleState) : Prop :=
  ∃ l, get_moves s = Returned l ∧ s' ∈ l.

Definition succ_tiles (ts : list Z) : list (list Z) :=
  match get_moves (fresh ts) with
  | Returned l => tiles <$> l
  | Raised _ => []
  end.

Definition puzzle_step (a b : list Z) : Prop := b ∈ succ_tiles a.

(** What [move_step] does to the tiles: [None] when the move would
    leave the board. *)
Definition swap_blank (ts : list Z) (blank_pos : Z) (d : string * (Z * Z))
  : outcome (option (list Z)) :=
  let '(_, (dr, dc)) := d in
  let new_row := blank_pos `div` 3 + dr in
  let new_col := blank_pos `mod` 3 + dc in
  if bool_decide ((0 ≤ new_row ∧ new_row < 3) ∧ (0 ≤ new_col ∧ new_col < 3)) then
    let new_pos := new_row * 3 + new_col in
    a ← getitem ts new_pos;
    b ← getitem ts blank_pos;
    l1 ← setitem ts blank_pos a;
    l2 ← setitem l1 new_pos b;
    Returned (Some l2)
  else Returned None.

(** Distance of tile [t] at position [i] from its place in [goal]. *)
Definition tile_distance (i t : Z) : Z :=
  if bool_decide (t ≠ 0) then
    Z.abs (i `div` 3 - (t - 1) `div` 3) + Z.abs (i `mod` 3 - (t - 1) `mod` 3)
  else 0.

Fixpoint h_from (i : Z) (ts : list Z) (acc : Z) : Z :=
  match ts with
  | [] => acc
  | t :: ts' => h_from (i + 1) ts' (acc + tile_distance i t)
  end.

(** The value of the heuristic on valid tiles. *)
Definition h_total (ts : list Z) : Z := h_from 0 ts 0.

(** Positions of the board that are next to each other. *)
Definition adjacent_pos (k k' : nat) : Prop :=
  (k < 9)%nat ∧ (k' < 9)%nat ∧
  Z.abs (Z.of_nat k `div` 3 - Z.of_nat k' `div` 3) +
  Z.abs (Z.of_nat k `mod` 3 - Z.of_nat k' `mod` 3) = 1.

(** The states that a search from [init] can create. *)
Inductive generated (init : PuzzleState) : PuzzleState → Prop :=
  | generated_init : generated init init
  | generated_move s l s' :
      generated init s → get_moves s = Returned l → s' ∈ l →
      generated init s'.

(** All arrangements that a search from [ts0] can meet. *)
Definition universe (ts0 : list Z) : gset (list Z) :=
  list_to_set (permutations ts0).

(** What holds of the solver and of the local variables of [solve]
    whenever the loop condition is evaluated and after every visit. *)
Record PInv (init : PuzzleState) (st : SearchState) : Prop := mkPInv {
  pinv_open : ∀ f c s, (f, c, s) ∈ open_set st → generated init s;
  pinv_visited : ∀ ts, ts ∈ visited st → ts ≡ₚ tiles init;
  pinv_counter : counter st = Z.of_nat (length (push_log st));
  pinv_log : ∀ (i : nat) e, push_log st !! i = Some e → e.1.2 = Z.of_nat i
}.

Definition pmeasure (init : PuzzleState) (st : SearchState) : nat :=
  (length (open_set st) + size (universe (tiles init) ∖ visited st))%nat.

(** What a result of [solve] has to satisfy: no exception; a found
    path runs from the initial state to a state with the goal tiles;
    a failure comes with the empty path. *)
Definition solve_post (init : PuzzleState) (r : outcome Result) : Prop :=
  match r with
  | Raised _ => False
  | Returned (true, path, _) =>
    ∃ s, path_from_to state_step path init s ∧ tiles s = goal
  | Returned (false, path, _) => path = []
  end.

(** [route a l]: the arrangements [l], in this order, are moves from
    [a] on. *)
Fixpoint route (a : list Z) (l : list (list Z)) : bool :=
  match l with
  | [] => true
  | b :: l' => bool_decide (b ∈ succ_tiles a) && route b l'
  end.

(** Number of pairs of tiles, the blank left out, that stand in the
    wrong order. *)
Fixpoint inversions (l : list Z) : Z :=
  match l with
  | [] => 0
  | x :: l' =>
    Z.of_nat (length (filter (λ y, y < x) l')) + inversions l'
  end.

Definition parity (ts : list Z) : Z :=
  inversions (filter (λ t, t ≠ 0) ts) `mod` 2.
End Puzzle.

End PuzzleSpec.

(** ** The moves of the blank, in the words of the specification *)

Module MovesSpec.
Import Week3.

(** For the blank at position [k] of the board: the directions up,
    down, left and right, in this order, that keep it on the board, each
    with the position the blank moves to. *)
Definition candidates (k : nat) : list (string * nat) :=
  (if bool_decide (3 ≤ k)%nat then [("up"%string, (k - 3)%nat)] else []) ++
  (if bool_decide (k < 6)%nat then [("down"%string, (k + 3)%nat)] else []) ++
  (if bool_decide (k `mod` 3 ≠ 0)%nat then [("left"%string, (k - 1)%nat)] else []) ++
  (if bool_decide (k `mod` 3 ≠ 2)%nat then [("right"%string, (k + 1)%nat)] else []).

(** The blank at [k] and the tile at [k'] exchanged. *)
Definition exchange (ts : list Z) (k k' : nat) : list Z :=
  match ts !! k' with
  | Some t => <[ k' := 0 ]> (<[ k := t ]> ts)
  | None => ts
  end.

(** The direction that takes a move back. *)
Definition opposite (d : string) : string :=
  if String.eqb d "up" then "down"
  else if String.eqb d "down" then "up"
  else if String.eqb d "left" then "right"
  else if String.eqb d "right" then "left"
  else d.

(** The successor of [s] for one candidate. *)
Definition moved (s : PuzzleState) (k : nat) (c : string * nat) : PuzzleState :=
  {| tiles := exchange (tiles s) k c.2; moves := moves s + 1;
     parent := Some s; move_description := c.1 |}.

End MovesSpec.

(** ** The bookkeeping of [solve] *)

Module SolveSpec.
Import Week3 PuzzleSpec.

(** The arrangements of the frontier and those given to
    [heapq.heappush], oldest first. *)
Definition open_tiles (st : SearchState) : list (list Z) :=
  (λ e : Entry, tiles e.2) <$> open_set st.

Definition log_tiles (st : SearchState) : list (list Z) :=
  (λ e : Entry, tiles e.2) <$> push_log st.

(** What holds of [visited], [self.explored], [self.nodes_expanded] and
    the frontier during a call of [solve] on a new solver. *)
Record SInv (init : PuzzleState) (st : SearchState) : Prop := mkSInv {
  sinv_start : tiles init ∈ visited st;
  sinv_visited : ∀ t,
    t ∈ visited st ↔ t ∈ explored (solver st) ∨ t ∈ open_tiles st;
  sinv_fresh : ∀ t, t ∈ open_tiles st → t ∉ explored (solver st);
  sinv_nodup : NoDup (open_tiles st);
  sinv_count : nodes_expanded (solver st) = Z.of_nat (size (explored (solver st)));
  sinv_chain : ∀ f c s, (f, c, s) ∈ open_set st →
    NoDup (tiles <$> chain s) ∧ ∀ t, t ∈ tiles <$> chain s → t ∈ visited st;
  sinv_reach : ∀ t, t ∈ visited st → ∃ n, steps puzzle_step n (tiles init) t;
  sinv_log : NoDup (log_tiles st);
  sinv_logged : ∀ t, t ∈ visited st ↔ t ∈ log_tiles st
}.

(** Every explored arrangement, [cur] left out, is not the goal and has
    all its successors in [visited]. *)
Definition SClosed (cur : option (list Z)) (st : SearchState) : Prop :=
  ∀ t, t ∈ explored (solver st) → Some t ≠ cur →
    t ≠ goal ∧ ∀ t', puzzle_step t t' → t' ∈ visited st.

(** The same local variables of [solve] in a solver object that has
    already been used: [sv] holds what [self.explored] and
    [self.nodes_expanded] were before. *)
Definition rebase (sv : Solver) (st : SearchState) : SearchState :=
  {| solver :=
       {| initial_state := initial_state (solver st);
          goal_state := goal_state (solver st);
          explored := explored (solver st) ∪ explored sv;
          nodes_expanded := nodes_expanded (solver st) + nodes_expanded sv |};
     open_set := open_set st;
     counter := counter st;
     visited := visited st;
     push_log := push_log st |}.

Definition recount (n : Z) (r : outcome Result) : outcome Result :=
  match r with
  | Returned (found, path, k) => Returned (found, path, k + n)
  | Raised e => Raised e
  end.

End SolveSpec.

(** ** Instances *)

(** The instance on which [solve] returns a detour, and a shorter route
    for it. *)
Definition detour_tiles : list Z := [1; 2; 3; 8; 6; 7; 4; 0; 5].

Definition detour_route : list (list Z) :=
  [ [1; 2; 3; 8; 0; 7; 4; 6; 5]; [1; 2; 3; 8; 7; 0; 4; 6; 5];
    [1; 2; 3; 8; 7; 5; 4; 6; 0]; [1; 2; 3; 8; 7; 5; 4; 0; 6];
    [1; 2; 3; 8; 0; 5; 4; 7; 6]; [1; 2; 3; 0; 8; 5; 4; 7; 6];
    [1; 2; 3; 4; 8; 5; 0; 7; 6]; [1; 2; 3; 4; 8; 5; 7; 0; 6];
    [1; 2; 3; 4; 0; 5; 7; 8; 6]; [1; 2; 3; 4; 5; 0; 7; 8; 6];
    [1; 2; 3; 4; 5; 6; 7; 8; 0] ].

(** The instance one move away from the goal, and the state that one
    move produces. *)
Definition near_tiles : list Z := [1; 2; 3; 4; 5; 6; 7; 0; 8].

Definition near_goal : Week3.PuzzleState :=
  {| Week3.tiles := Week3.goal; Week3.moves := 1;
     Week3.parent := Some (PuzzleSpec.fresh near_tiles);
     Week3.move_description := "right"%string |}.

(** * Loops *)

Section ForEach.
Context {A S : Type} (body : S → A → outcome S).

Lemma for_each_app (l1 l2 : list A) (s : S) :
  for_each body (l1 ++ l2) s = (s' ← for_each body l1 s; for_each body l2 s').
Proof.
  revert s. induction l1 as [|a l1 IH]; intros s; simpl; [done|].
  destruct (body s a) as [s1|e]; simpl; [apply IH|done].
Qed.

(** A loop invariant over the part of the list already processed. *)
Lemma for_each_ind (P : list A → S → Prop) (l : list A) (s s' : S) :
  P [] s →
  (∀ done a s1 s2, P done s1 → a ∈ l → body s1 a = Returned s2 → P (done ++ [a]) s2) →
  for_each body l s = Returned s' → P l s'.
Proof.
  intros H0 Hstep.
  assert (∀ k done s1, P done s1 → k ⊆ l →
            for_each body k s1 = Returned s' → P (done ++ k) s') as Hgen.
  { induction k as [|a k IH]; intros done s1 HP Hsub; simpl.
    - intros [= <-]. by rewrite app_nil_r.
    - destruct (body s1 a) as [s2|e] eqn:Hb; simpl; [|done].
      intros Hrest. rewrite (cons_middle a done k), app_assoc.
      apply (IH _ s2); [|set_solver|done].
      eapply Hstep; [done|set_solver|done]. }
  intros Hrun. by apply (Hgen l [] s).
Qed.

(** The loop returns when its body does. *)
Lemma for_each_returns (P : S → Prop) (l : list A) (s : S) :
  P s →
  (∀ s1 a, P s1 → a ∈ l → ∃ s2, body s1 a = Returned s2 ∧ P s2) →
  ∃ s', for_each body l s = Returned s' ∧ P s'.
Proof.
  intros H0 Hstep.
  assert (∀ k s1, P s1 → k ⊆ l →
            ∃ s', for_each body k s1 = Returned s' ∧ P s') as Hgen.
  { induction k as [|a k IH]; intros s1 HP Hsub; simpl; [by eexists|].
    destruct (Hstep s1 a HP) as (s2 & -> & HP2); [set_solver|]. simpl.
    apply IH; [done|set_solver]. }
  by apply Hgen.
Qed.
End ForEach.

Lemma sum_list_fmap_lt {A} (f f' : A → nat) (l : list A) (c : A) :
  (∀ x, (f' x ≤ f x)%nat) → c ∈ l → (f' c < f c)%nat →
  (sum_list (f' <$> l) < sum_list (f <$> l))%nat.
Proof.
  intros Hle Hin Hlt.
  assert (∀ k, (sum_list (f' <$> k) ≤ sum_list (f <$> k))%nat) as Hall.
  { induction k as [|x k IH]; csimpl; [lia|]. specialize (Hle x). lia. }
  induction l as [|x l IH]; [by apply elem_of_nil in Hin|].
  csimpl. apply elem_of_cons in Hin as [<-|Hin].
  - specialize (Hall l). lia.
  - specialize (IH Hin). specialize (Hle x). lia.
Qed.

Section PathFacts.
Context {A : Type} (R : A → A → Prop).

Lemma steps_snoc (n : nat) (a b c : A) :
  steps R n a b → R b c → steps R (S n) a c.
Proof.
  induction 1 as [a|n a b' b Hab _ IH]; intros Hbc.
  - econstructor; [done|constructor].
  - econstructor; [done|by apply IH].
Qed.

Lemma chained_snoc (l : list A) (b c : A) :
  chained R l → last l = Some b → R b c → chained R (l ++ [c]).
Proof.
  induction l as [|a l IH]; [done|].
  destruct l as [|a' l]; simpl.
  - intros _ [= ->] Hbc. done.
  - intros [Haa' Hc] Hlast Hbc. split; [done|]. by apply IH.
Qed.

Lemma path_from_to_singleton (a : A) : path_from_to R [a] a a.
Proof. done. Qed.

Lemma path_from_to_snoc (l : list A) (a b c : A) :
  path_from_to R l a b → R b c → path_from_to R (l ++ [c]) a c.
Proof.
  intros (Hh & Hl & Hc) Hbc. split_and!.
  - destruct l; [done|]. done.
  - by rewrite last_snoc.
  - by eapply chained_snoc.
Qed.

Lemma steps_inv_last (n : nat) (a c : A) :
  steps R (S n) a c → ∃ b, steps R n a b ∧ R b c.
Proof.
  revert a. induction n as [|n IH]; intros a Hs.
  - inversion Hs as [|? ? b ? Hab Hbc]; subst. inversion Hbc; subst.
    exists a. split; [constructor|done].
  - inversion Hs as [|? ? b ? Hab Hbc]; subst.
    destruct (IH _ Hbc) as (b' & Hb' & Hlast).
    exists b'. split; [by econstructor|done].
Qed.


(** A property that every step keeps holds along a path. *)
Lemma chained_Forall (P : A → Prop) (l : list A) (a : A) :
  (∀ x y, P x → R x y → P y) → head l = Some a → P a → chained R l →
  Forall P l.
Proof.
  intros Hstep. revert a. induction l as [|x l IH]; intros a Hh Ha Hc; [done|].
  injection Hh as ->. constructor; [done|].
  destruct l as [|y l]; [done|]. destruct Hc as [Hxy Hc].
  apply (IH y); [done|by eapply Hstep|done].
Qed.

(** A path of [k + 1] states makes [k] steps. *)
Lemma path_steps (l : list A) (a b : A) :
  path_from_to R l a b → steps R (pred (length l)) a b.
Proof.
  revert a. induction l as [|x l IH]; intros a (Hh & Hl & Hc); [done|].
  simpl in Hh. injection Hh as ->.
  destruct l as [|y l].
  - simpl in Hl. injection Hl as ->. constructor.
  - destruct Hc as [Hay Hc]. simpl. econstructor; [done|].
    apply IH. split_and!; done.
Qed.
End PathFacts.

(** * Properties of heapq *)

Section HeapqFacts.
Context {E : Type} (ltb : E → E → bool).

Lemma heappop_None (h : list E) : heappop ltb h = None ↔ h = [].
Proof.
  destruct h as [|e h]; simpl; [done|].
  split; [|done].
  destruct (heappop ltb h) as [[m r]|]; [|done].
  by destruct (ltb m e).
Qed.

Lemma heappop_Permutation (h : list E) m r :
  heappop ltb h = Some (m, r) → h ≡ₚ m :: r.
Proof.
  revert m r. induction h as [|e h IH]; intros m r; simpl; [done|].
  destruct (heappop ltb h) as [[m' r']|] eqn:Hpop.
  - specialize (IH _ _ eq_refl).
    destruct (ltb m' e); intros [= <- <-]; [|done].
    rewrite IH. apply Permutation_swap.
  - apply heappop_None in Hpop as ->. by intros [= <- <-].
Qed.

Lemma heappop_length (h : list E) m r :
  heappop ltb h = Some (m, r) → length h = S (length r).
Proof. intros H%heappop_Permutation. by rewrite H. Qed.

Hypothesis ltb_asym : ∀ a b, ltb a b = true → ltb b a = false.
Hypothesis ltb_negtrans :
  ∀ a b c, ltb a b = false → ltb b c = false → ltb a c = false.

Lemma heappop_least (h : list E) m r :
  heappop ltb h = Some (m, r) → ∀ x, x ∈ h → ltb x m = false.
Proof using ltb_asym ltb_negtrans.
  revert m r. induction h as [|e h IH]; intros m r; simpl; [done|].
  assert (Hirr : ∀ a, ltb a a = false).
  { intros a. destruct (ltb a a) eqn:Ha; [|done]. by rewrite (ltb_asym _ _ Ha) in Ha. }
  destruct (heappop ltb h) as [[m' r']|] eqn:Hpop.
  - specialize (IH _ _ eq_refl).
    destruct (ltb m' e) eqn:Hlt; intros [= <- <-] x Hx.
    + apply elem_of_cons in Hx as [->|Hx]; [by apply ltb_asym|by apply IH].
    + apply elem_of_cons in Hx as [->|Hx]; [done|].
      eapply ltb_negtrans; [by apply IH|done].
  - apply heappop_None in Hpop as ->. intros [= <- <-] x Hx.
    apply elem_of_cons in Hx as [->|Hx]; [done|]. by apply elem_of_nil in Hx.
Qed.
End HeapqFacts.

(** * The grid search *)

Section NeighborFacts.
Import Robopath GridSpec.
Variables (width height : Z).

Lemma elem_of_neighbors (x y : Z) (q : Point) :
  q ∈ neighbors (x, y) width height ↔
    (q = (x - 1, y) ∧ x > 0) ∨ (q = (x + 1, y) ∧ x < width - 1) ∨
    (q = (x, y - 1) ∧ y > 0) ∨ (q = (x, y + 1) ∧ y < height - 1).
Proof.
  unfold neighbors. repeat case_bool_decide; set_unfold; intuition lia.
Qed.


Lemma neighbors_adjacent (p q : Point) :
  q ∈ neighbors p width height → adjacent4 p q.
Proof.
  destruct p as [x y]. rewrite elem_of_neighbors. unfold adjacent4.
  intros [[-> _]|[[-> _]|[[-> _]|[-> _]]]]; simpl; lia.
Qed.

Lemma neighbors_in_bounds (p q : Point) :
  in_bounds width height p →
  q ∈ neighbors p width height ↔ adjacent4 p q ∧ in_bounds width height q.
Proof.
  destruct p as [x y], q as [a b]. rewrite elem_of_neighbors.
  unfold in_bounds, adjacent4. simpl. intros Hp. split.
  - intros [[[= -> ->] ?]|[[[= -> ->] ?]|[[[= -> ->] ?]|[[= -> ->] ?]]]]; lia.
  - intros [Hadj Hq].
    assert ((a = x - 1 ∧ b = y) ∨ (a = x + 1 ∧ b = y) ∨
            (a = x ∧ b = y - 1) ∨ (a = x ∧ b = y + 1)) as Hcase by lia.
    destruct Hcase as [[-> ->]|[[-> ->]|[[-> ->]|[-> ->]]]].
    + left. split; [done|lia].
    + right; left. split; [done|lia].
    + right; right; left. split; [done|lia].
    + right; right; right. split; [done|lia].
Qed.

End NeighborFacts.

Section GridFacts.
Import Robopath GridSpec.
Variables (start goal : Point) (width height : Z) (blocked : gset Point).

Abbreviation grid_step := (grid_step width height blocked).
Abbreviation Inv := (Inv start goal width height blocked).
Abbreviation in_box := (in_box start width height).
Abbreviation box := (box start width height).

Lemma neighbors_in_box (p q : Point) :
  in_box p → q ∈ neighbors p width height → in_box q.
Proof.
  destruct p as [x y]. rewrite elem_of_neighbors.
  unfold GridSpec.in_box, lo_x, hi_x, lo_y, hi_y. simpl.
  intros Hp [[-> ?]|[[-> ?]|[[-> ?]|[-> ?]]]]; simpl; lia.
Qed.

Lemma in_box_elem (p : Point) : in_box p → p ∈ box.
Proof.
  destruct p as [x y]. unfold GridSpec.in_box, GridSpec.box. simpl. intros Hp.
  apply elem_of_list_to_set, list_elem_of_cprod. simpl.
  rewrite !elem_of_seqZ. lia.
Qed.

Lemma manhattan_nonneg (a b : Point) : 0 ≤ manhattan a b.
Proof. unfold manhattan. lia. Qed.

Lemma manhattan_self (a : Point) : manhattan a a = 0.
Proof. unfold manhattan. lia. Qed.

Lemma manhattan_zero (a b : Point) : manhattan a b = 0 → a = b.
Proof.
  destruct a, b. unfold manhattan. simpl. intros. f_equal; lia.
Qed.

Lemma manhattan_adjacent (p q g : Point) :
  adjacent4 p q → manhattan p g ≤ manhattan q g + 1.
Proof. unfold adjacent4, manhattan. lia. Qed.

(** The heuristic is a lower bound on the number of steps. *)
Lemma manhattan_steps (n : nat) (p : Point) :
  steps grid_step n p goal → manhattan p goal ≤ Z.of_nat n.
Proof.
  induction 1 as [a|n a b c [Hab _] _ IH].
  - rewrite manhattan_self. lia.
  - apply neighbors_adjacent in Hab.
    pose proof (manhattan_adjacent a b c Hab). lia.
Qed.

Lemma entry_ltb_asym (a b : Entry) : entry_ltb a b = true → entry_ltb b a = false.
Proof.
  destruct a as [[p1 g1] [x1 y1]], b as [[p2 g2] [x2 y2]].
  unfold entry_ltb, point_ltb. simpl. lia.
Qed.

Lemma entry_ltb_negtrans (a b c : Entry) :
  entry_ltb a b = false → entry_ltb b c = false → entry_ltb a c = false.
Proof.
  destruct a as [[p1 g1] [x1 y1]], b as [[p2 g2] [x2 y2]], c as [[p3 g3] [x3 y3]].
  unfold entry_ltb, point_ltb. simpl. lia.
Qed.

(** The popped entry has the least priority of the heap. *)
Lemma heappop_priority (h h' : list Entry) p g n :
  heappop entry_ltb h = Some ((p, g, n), h') →
  ∀ p' g' n', (p', g', n') ∈ h → p ≤ p'.
Proof.
  intros Hpop p' g' n' Hin.
  pose proof (heappop_least entry_ltb entry_ltb_asym entry_ltb_negtrans
                _ _ _ Hpop _ Hin) as Hle.
  destruct n as [x y], n' as [x' y'].
  unfold entry_ltb, point_ltb in Hle. simpl in Hle. lia.
Qed.

Lemma Inv_init : Inv (init_state start goal).
Proof.
  split; simpl.
  - apply lookup_singleton_eq.
  - apply lookup_singleton_eq.
  - intros n g [<- <-]%lookup_singleton_Some. lia.
  - intros n g [<- <-]%lookup_singleton_Some. done.
  - intros n. rewrite !lookup_singleton_None. done.
  - intros p g n [= -> -> ->]%list_elem_of_singleton. split; [lia|].
    exists 0. by rewrite lookup_singleton_eq.
  - intros n [g [<- <-]%lookup_singleton_Some].
    unfold GridSpec.in_box, lo_x, hi_x, lo_y, hi_y. lia.
  - intros n g [<- <-]%lookup_singleton_Some. rewrite map_size_singleton. lia.
  - done.
  - intros p g n [= -> -> ->]%list_elem_of_singleton.
    rewrite lookup_singleton_eq. split; [lia|]. split; [lia|]. by eexists.
  - by intros [|i] p g.
Qed.

Lemma Inv_with_heap (st : SearchState) (h' : list Entry) :
  Inv st → h' ⊆ open_heap st → Inv (with_heap h' st).
Proof.
  intros [] Hsub. split; simpl; try done.
  - intros p g n Hin. apply inv_heap0. by apply Hsub.
  - intros e Hin. apply inv_log0. by apply Hsub.
Qed.

Lemma heappop_subseteq (h h' : list Entry) e :
  heappop entry_ltb h = Some (e, h') → h' ⊆ h.
Proof.
  intros Hp%heappop_Permutation x Hx. rewrite Hp. by apply elem_of_cons; right.
Qed.
End GridFacts.

Section GridSearch.
Import Robopath GridSpec.
Variables (start goal : Point) (width height : Z) (blocked : gset Point).

Abbreviation grid_step := (grid_step width height blocked).
Abbreviation Inv := (Inv start goal width height blocked).
Abbreviation in_box := (in_box start width height).
Abbreviation box := (box start width height).
Abbreviation relax := (relax goal blocked).
Abbreviation expand := (expand goal width height blocked).
Abbreviation measure := (measure start width height).
Abbreviation potential := (potential start width height).
Abbreviation closed_or_open := (closed_or_open goal width height blocked).
Abbreviation relaxed := (relaxed width height blocked).
Abbreviation goal_open := (goal_open goal).
Abbreviation improved := (improved goal).
Abbreviation astar_loop := (astar_loop goal width height blocked).
Abbreviation astar_post := (astar_post start goal width height blocked).

Lemma relax_cases (current nbr : Point) (st st' : SearchState) :
  relax current st nbr = Returned st' →
  (st' = st ∧
    (nbr ∈ blocked ∨
     ∃ gc gn, gscore st !! current = Some gc ∧ gscore st !! nbr = Some gn ∧
              gn ≤ gc + 1)) ∨
  ((nbr ∉ blocked) ∧
    ∃ gc, gscore st !! current = Some gc ∧
          (gscore st !! nbr = None ∨
           ∃ gn, gscore st !! nbr = Some gn ∧ gc + 1 < gn) ∧
          st' = improved current nbr gc st).
Proof.
  unfold Robopath.relax. case_bool_decide as Hb; [intros [= <-]; by left; auto|].
  destruct (gscore st !! current) as [gc|] eqn:Hgc; [|done].
  destruct (gscore st !! nbr) as [gn|] eqn:Hgn.
  - destruct (Z.ltb_spec (gc + 1) gn); intros [= <-].
    + right. split; [done|]. exists gc. split; [done|]. split; [|done].
      right. by exists gn.
    + left. split; [done|]. right. by exists gc, gn.
  - intros [= <-]. right. split; [done|]. exists gc. split; [done|]. by split; [left|].
Qed.

Lemma relax_returns (current nbr : Point) (st : SearchState) :
  is_Some (gscore st !! current) → ∃ st', relax current st nbr = Returned st'.
Proof.
  intros [gc Hgc]. unfold Robopath.relax. rewrite Hgc.
  case_bool_decide; [by eexists|].
  destruct (match gscore st !! nbr with Some gn => gc + 1 <? gn | None => true end);
    by eexists.
Qed.

Lemma neighbors_neq (p q : Point) : q ∈ neighbors p width height → q ≠ p.
Proof.
  intros Hq%neighbors_adjacent ->. unfold adjacent4 in Hq. lia.
Qed.

Lemma Inv_improved (current nbr : Point) (gc : Z) (st : SearchState) :
  Inv st → nbr ∈ neighbors current width height → nbr ∉ blocked →
  gscore st !! current = Some gc →
  (gscore st !! nbr = None ∨ ∃ gn, gscore st !! nbr = Some gn ∧ gc + 1 < gn) →
  Inv (improved current nbr gc st).
Proof.
  intros HI Hnbr Hblk Hgc Hold.
  pose proof (neighbors_neq _ _ Hnbr) as Hne.
  pose proof (inv_nonneg _ _ _ _ _ _ HI _ _ Hgc) as Hgc0.
  assert (nbr ≠ start) as Hns.
  { intros ->. rewrite (inv_start_g _ _ _ _ _ _ HI) in Hold.
    destruct Hold as [?|(gn & [= <-] & ?)]; [done|lia]. }
  split; simpl.
  - rewrite lookup_insert_ne by done. apply HI.
  - rewrite lookup_insert_ne by done. apply HI.
  - intros n g. rewrite lookup_insert. case_decide as Hn.
    + intros [= <-]. lia.
    + apply HI.
  - intros n g. rewrite !lookup_insert. case_decide as Hn.
    + intros [= <-] _. subst n. exists current, gc.
      rewrite lookup_insert_ne by done. split_and!; done || lia.
    + intros Hg Hnst.
      destruct (inv_pred _ _ _ _ _ _ HI _ _ Hg Hnst) as (p & gp & Hcf & Hstep & Hgp & Hle).
      destruct (decide (nbr = p)) as [<-|Hp].
      * exists nbr, (gc + 1). rewrite lookup_insert_eq. split_and!; [done..|].
        destruct Hold as [Hnone|(gn & Hgn & Hlt)]; [congruence|].
        assert (gn = gp) by congruence. lia.
      * exists p, gp. rewrite lookup_insert_ne by done. done.
  - intros n. rewrite !lookup_insert. case_decide; [done|apply HI].
  - intros p g n [Hin|Hin%list_elem_of_singleton]%elem_of_app.
    + destruct (inv_heap _ _ _ _ _ _ HI _ _ _ Hin) as (Hp & g' & Hg' & Hle).
      split; [done|]. rewrite lookup_insert. case_decide as Hn.
      * subst n. exists (gc + 1). split; [done|].
        destruct Hold as [Hnone|(gn & Hgn & Hlt)]; [congruence|].
        assert (gn = g') by congruence. lia.
      * by exists g'.
    + injection Hin as -> -> ->. split; [done|]. exists (gc + 1).
      by rewrite lookup_insert_eq.
  - intros n. rewrite lookup_insert. case_decide as Hn.
    + intros _. subst n. eapply neighbors_in_box; [|done].
      apply (inv_box _ _ _ _ _ _ HI). by eexists.
    + apply HI.
  - intros n g Hg.
    assert (Z.of_nat (size (gscore st)) ≤
            Z.of_nat (size (<[nbr:=gc + 1]> (gscore st)))) as Hsize.
    { destruct (gscore st !! nbr) eqn:Hgn.
      - rewrite map_size_insert_Some by done. lia.
      - rewrite map_size_insert_None by done. lia. }
    revert Hg. rewrite lookup_insert. case_decide as Hn.
    + intros [= <-].
      destruct Hold as [Hnone|(gn & Hgn & Hlt)].
      * rewrite map_size_insert_None by done.
        pose proof (inv_small _ _ _ _ _ _ HI _ _ Hgc). lia.
      * pose proof (inv_small _ _ _ _ _ _ HI _ _ Hgn). lia.
    + intros Hg. pose proof (inv_small _ _ _ _ _ _ HI _ _ Hg). lia.
  - intros e [Hin|Hin]%elem_of_app; apply elem_of_app; [left|by right].
    by apply HI.
  - intros p g n [Hin|Hin%list_elem_of_singleton]%elem_of_app.
    + destruct (inv_log_ok _ _ _ _ _ _ HI _ _ _ Hin) as (Hp & Hg0 & Hs).
      split_and!; [done..|]. rewrite lookup_insert. by case_decide.
    + injection Hin as -> -> ->. split_and!; [done|lia|].
      rewrite lookup_insert_eq. by eexists.
  - intros i p g. rewrite lookup_app_Some.
    intros [Hl|[_ Hl]]; [by eapply (inv_log_first _ _ _ _ _ _ HI)|].
    by apply list_lookup_singleton_Some in Hl as [_ [= _ _ ?]].
Qed.

Lemma size_gscore_lt (nbr : Point) (st : SearchState) :
  Inv st → in_box nbr → gscore st !! nbr = None →
  (size (gscore st) < size box)%nat.
Proof.
  intros HI Hbox Hnone. rewrite <-(size_dom (D:=gset Point)).
  apply subset_size. split.
  - intros x Hx%elem_of_dom. by apply in_box_elem, (inv_box _ _ _ _ _ _ HI).
  - intros Hsub. apply (not_elem_of_dom (gscore st) nbr) in Hnone.
    apply Hnone, Hsub. by apply in_box_elem.
Qed.

Lemma measure_improved (current nbr : Point) (gc : Z) (st : SearchState) :
  Inv st → nbr ∈ neighbors current width height →
  gscore st !! current = Some gc →
  (gscore st !! nbr = None ∨ ∃ gn, gscore st !! nbr = Some gn ∧ gc + 1 < gn) →
  (measure (improved current nbr gc st) ≤ measure st)%nat.
Proof.
  intros HI Hnbr Hgc Hold.
  pose proof (inv_nonneg _ _ _ _ _ _ HI _ _ Hgc) as Hgc0.
  assert (in_box nbr) as Hbox.
  { eapply neighbors_in_box; [|done]. apply (inv_box _ _ _ _ _ _ HI). by eexists. }
  assert (potential (<[nbr:=(gc + 1)%Z]> (gscore st)) < potential (gscore st))%nat
    as Hpot.
  { unfold GridSpec.potential.
    assert (cell_pot start width height (<[nbr:=(gc + 1)%Z]> (gscore st)) nbr <
            cell_pot start width height (gscore st) nbr)%nat as Hlt.
    { unfold cell_pot. rewrite lookup_insert_eq.
      destruct Hold as [Hnone|(gn & Hgn & Hlt)].
      - rewrite Hnone. pose proof (size_gscore_lt _ _ HI Hbox Hnone).
        pose proof (inv_small _ _ _ _ _ _ HI _ _ Hgc). lia.
      - rewrite Hgn. lia. }
    eapply sum_list_fmap_lt; [|by apply elem_of_elements, in_box_elem|done].
    intros x. destruct (decide (x = nbr)) as [->|Hx]; [lia|].
    unfold cell_pot. by rewrite lookup_insert_ne. }
  unfold GridSpec.measure. simpl. rewrite length_app. simpl. lia.
Qed.

Lemma closed_or_open_improved skip (current nbr : Point) (gc : Z) (st : SearchState) :
  closed_or_open skip st →
  (gscore st !! nbr = None ∨ ∃ gn, gscore st !! nbr = Some gn ∧ gc + 1 < gn) →
  closed_or_open skip (improved current nbr gc st).
Proof.
  intros HJ Hold n g. simpl. rewrite lookup_insert. case_decide as Hn.
  - intros [= <-] _. subst n. left. apply elem_of_app. right. by apply list_elem_of_singleton.
  - intros Hg Hskip. destruct (HJ n g Hg Hskip) as [Hin|Hrel].
    + left. apply elem_of_app. by left.
    + right. intros m Hm. destruct (Hrel m Hm) as (gm & Hgm & Hle). simpl.
      rewrite lookup_insert. case_decide as Hm'; [|by exists gm].
      subst m. exists (gc + 1). split; [done|].
      destruct Hold as [Hnone|(gn & Hgn & Hlt)]; [congruence|].
      assert (gn = gm) by congruence. lia.
Qed.

Lemma goal_open_improved (current nbr : Point) (gc : Z) (st : SearchState) :
  goal_open st → goal_open (improved current nbr gc st).
Proof.
  intros HG. unfold GridSpec.goal_open. simpl. rewrite lookup_insert.
  case_decide as Hn.
  - intros _. subst nbr. eexists _, _. apply elem_of_app. right.
    by apply list_elem_of_singleton.
  - intros Hs. destruct (HG Hs) as (p & g & Hin). exists p, g.
    apply elem_of_app. by left.
Qed.

(** The loop over the neighbours of [current]. *)
Lemma expand_spec (current : Point) (gc : Z) (st : SearchState) :
  Inv st → gscore st !! current = Some gc →
  ∃ st', expand current st = Returned st' ∧ Inv st' ∧
    (measure st' ≤ measure st)%nat ∧
    (closed_or_open (Some current) st → closed_or_open None st') ∧
    (goal_open st → goal_open st').
Proof.
  intros HI Hgc.
  destruct (for_each_returns (relax current) (λ s, gscore s !! current = Some gc)
              (neighbors current width height) st Hgc) as (st' & Hrun & _).
  { intros s1 a Hs1 Ha.
    destruct (relax_returns current a s1) as [s2 Hs2]; [by eexists|].
    exists s2. split; [done|].
    destruct (relax_cases _ _ _ _ Hs2) as [[-> _]|(_ & gc' & _ & _ & ->)]; [done|].
    simpl. rewrite lookup_insert_ne; [done|]. by apply neighbors_neq. }
  exists st'. split; [done|].
  pose (Q := λ (done : list Point) (s : SearchState),
    Inv s ∧ (measure s ≤ measure st)%nat ∧ gscore s !! current = Some gc ∧
    (∀ m, m ∈ done → m ∉ blocked → ∃ gm, gscore s !! m = Some gm ∧ gm ≤ gc + 1) ∧
    (closed_or_open (Some current) st → closed_or_open (Some current) s) ∧
    (goal_open st → goal_open s)).
  assert (Q (neighbors current width height) st') as (HI' & Hm & Hgc' & Hdone & HJ & HG).
  { apply (for_each_ind (relax current) Q _ st st'); [| |done].
    - split_and!; try done. intros m Hm. by apply elem_of_nil in Hm.
    - intros done a s1 s2 (HI1 & Hm1 & Hgc1 & Hdone1 & HJ1 & HG1) Ha Hrel.
      destruct (relax_cases _ _ _ _ Hrel)
        as [[-> Hwhy]|(Hblk & gc' & Hgc' & Hold & ->)].
      + split_and!; try done.
        intros m [Hm|Hm%list_elem_of_singleton]%elem_of_app Hmb; [by apply Hdone1|].
        subst m. destruct Hwhy as [?|(gc' & gn & Hgc' & Hgn & Hle)]; [done|].
        exists gn. split; [done|]. assert (gc' = gc) by congruence. lia.
      + assert (gc' = gc) as -> by congruence.
        split_and!.
        * by apply Inv_improved.
        * pose proof (measure_improved _ _ _ _ HI1 Ha Hgc1 Hold). lia.
        * simpl. rewrite lookup_insert_ne; [done|]. by apply neighbors_neq.
        * intros m Hm Hmb. simpl. rewrite lookup_insert. case_decide as Hma.
          { exists (gc + 1). split; [done|lia]. }
          apply elem_of_app in Hm as [Hm|Hm%list_elem_of_singleton]; [|congruence].
          by apply Hdone1.
        * intros HJ0. apply closed_or_open_improved; [by apply HJ1|done].
        * intros HG0. by apply goal_open_improved, HG1. }
  split_and!; [done..| |done].
  intros HJ0 n g Hg _. destruct (decide (n = current)) as [->|Hn].
  - right. assert (g = gc) as -> by congruence.
    intros m [Hmn Hmb]. by apply Hdone.
  - apply (HJ HJ0); [done|congruence].
Qed.

Lemma walk_chain (cf : gmap Point (option Point)) (n : Point) (l : list Point) :
  cf_chain cf n l → ∀ fuel acc, (length l ≤ fuel)%nat →
  walk fuel cf (Some n) acc = Some (Returned (reverse (acc ++ l))).
Proof.
  induction 1 as [n Hn|n p l Hn _ IH]; intros fuel acc Hlen;
    (destruct fuel as [|fuel]; simpl in Hlen; [lia|]); simpl; rewrite Hn.
  - by destruct fuel.
  - rewrite IH by lia. by rewrite <-app_assoc.
Qed.

Lemma chain_exists (st : SearchState) :
  Inv st → ∀ (k : nat) n g, gscore st !! n = Some g → (Z.to_nat g ≤ k)%nat →
  ∃ l, cf_chain (came_from st) n l ∧ (length l ≤ S (Z.to_nat g))%nat ∧
       path_from_to grid_step (reverse l) start n.
Proof.
  intros HI. induction k as [|k IH]; intros n g Hg Hk.
  - destruct (decide (n = start)) as [->|Hn].
    + exists [start]. split_and!; [|simpl; lia|done].
      constructor. apply HI.
    + destruct (inv_pred _ _ _ _ _ _ HI _ _ Hg Hn) as (p & gp & _ & _ & Hgp & Hle).
      pose proof (inv_nonneg _ _ _ _ _ _ HI _ _ Hgp). lia.
  - destruct (decide (n = start)) as [->|Hn].
    + exists [start]. split_and!; [|simpl; lia|done].
      constructor. apply HI.
    + destruct (inv_pred _ _ _ _ _ _ HI _ _ Hg Hn) as (p & gp & Hcf & Hstep & Hgp & Hle).
      pose proof (inv_nonneg _ _ _ _ _ _ HI _ _ Hgp).
      destruct (IH p gp Hgp) as (l & Hl & Hlen & Hpath); [lia|].
      exists (n :: l). split_and!.
      * by econstructor.
      * simpl. lia.
      * rewrite reverse_cons. by eapply path_from_to_snoc.
Qed.

(** Along a route from a scored cell, either the end is scored within
    the length of the route, or a cell of the route waits in the heap
    with a score within its position. *)
Lemma frontier (st : SearchState) (n : nat) (u v : Point) :
  closed_or_open None st → steps grid_step n u v →
  ∀ g0, gscore st !! u = Some g0 →
  (∃ g, gscore st !! v = Some g ∧ g ≤ g0 + Z.of_nat n) ∨
  (∃ (i j : nat) w g, n = (i + j)%nat ∧ steps grid_step j w v ∧
     (g + manhattan w goal, g, w) ∈ open_heap st ∧ g ≤ g0 + Z.of_nat i).
Proof.
  intros HJ. induction 1 as [a|n a b c Hab Hbc IH]; intros g0 Hg0.
  - left. exists g0. split; [done|lia].
  - destruct (HJ a g0 Hg0) as [Hin|Hrel]; [done| |].
    + right. exists O, (S n), a, g0. split_and!; [done| |done|lia].
      by econstructor.
    + destruct (Hrel b Hab) as (gb & Hgb & Hle).
      destruct (IH gb Hgb) as [(g & Hg & Hle')|(i & j & w & g & -> & Hj & Hin & Hle')].
      * left. exists g. split; [done|lia].
      * right. exists (S i), j, w, g. split_and!; [done..|lia].
Qed.

Lemma size_gscore_le (st : SearchState) :
  Inv st → (size (gscore st) ≤ size box)%nat.
Proof.
  intros HI. rewrite <-(size_dom (D:=gset Point)). apply subseteq_size.
  intros x Hx%elem_of_dom. by apply in_box_elem, (inv_box _ _ _ _ _ _ HI).
Qed.

Lemma closed_or_open_pop (st : SearchState) p g current h' :
  closed_or_open None st →
  heappop entry_ltb (open_heap st) = Some ((p, g, current), h') →
  closed_or_open (Some current) (with_heap h' st).
Proof.
  intros HJ Hpop n gn Hgn Hn. simpl in Hgn.
  destruct (HJ n gn Hgn) as [Hin|Hrel]; [done| |by right].
  left. simpl. rewrite (heappop_Permutation _ _ _ _ Hpop) in Hin.
  apply elem_of_cons in Hin as [[= _ _ ->]|Hin]; [done|done].
Qed.

Lemma goal_open_pop (st : SearchState) p g current h' :
  goal_open st → current ≠ goal →
  heappop entry_ltb (open_heap st) = Some ((p, g, current), h') →
  goal_open (with_heap h' st).
Proof.
  intros HG Hne Hpop Hs. destruct (HG Hs) as (p' & g' & Hin).
  exists p', g'. simpl. rewrite (heappop_Permutation _ _ _ _ Hpop) in Hin.
  apply elem_of_cons in Hin as [[= _ _ <-]|Hin]; [done|done].
Qed.

(** Total correctness of the main loop. *)
Lemma astar_loop_spec (fuel : nat) :
  ∀ st, Inv st → closed_or_open None st → goal_open st →
  (measure st + size box + 2 ≤ fuel)%nat →
  ∃ r stf, astar_loop fuel st = Some (r, stf) ∧ astar_post r ∧ Inv stf.
Proof.
  induction fuel as [|fuel IH]; intros st HI HJ HG Hfuel; [lia|].
  simpl. destruct (heappop entry_ltb (open_heap st)) as [[[[p g] current] h']|] eqn:Hpop.
  - pose proof (heappop_subseteq _ _ _ Hpop) as Hsub.
    pose proof (Inv_with_heap _ _ _ _ _ _ _ HI Hsub) as HI'.
    assert ((p, g, current) ∈ open_heap st) as Hin.
    { rewrite (heappop_Permutation _ _ _ _ Hpop). by left. }
    destruct (inv_heap _ _ _ _ _ _ HI _ _ _ Hin) as (Hp & gc & Hgc & Hle).
    case_bool_decide as Hgoal.
    + subst current. rewrite manhattan_self in Hp.
      destruct (chain_exists _ HI' (Z.to_nat gc) goal gc) as (l & Hl & Hlen & Hpath);
        [done|lia|].
      pose proof (inv_small _ _ _ _ _ _ HI _ _ Hgc).
      pose proof (inv_nonneg _ _ _ _ _ _ HI _ _ Hgc).
      pose proof (size_gscore_le _ HI).
      rewrite (walk_chain _ _ _ Hl) by lia. simpl.
      eexists _, _. split; [done|]. split; [|done].
      split; [done|]. intros n Hn. rewrite length_reverse.
      enough (gc ≤ Z.of_nat n) by lia.
      destruct (frontier st n start goal HJ Hn 0 (inv_start_g _ _ _ _ _ _ HI))
        as [(g' & Hg' & Hle')|(i & j & w & g' & -> & Hj & Hw & Hle')].
      * assert (g' = gc) by congruence. lia.
      * pose proof (heappop_priority _ _ _ _ _ Hpop _ _ _ Hw).
        pose proof (manhattan_steps goal width height blocked _ _ Hj). lia.
    + destruct (expand_spec current gc (with_heap h' st) HI' Hgc)
        as (st'' & -> & HI'' & Hm & HJ'' & HG'').
      apply IH; [done| | |].
      * by eapply HJ'', closed_or_open_pop.
      * by eapply HG'', goal_open_pop.
      * pose proof (heappop_length _ _ _ _ Hpop) as Hlen.
        unfold GridSpec.measure in *. simpl in Hm. lia.
  - apply heappop_None in Hpop. eexists _, _. split; [done|]. split; [|done].
    intros n Hn.
    destruct (frontier st n start goal HJ Hn 0 (inv_start_g _ _ _ _ _ _ HI))
      as [(g' & Hg' & _)|(i & j & w & g' & _ & _ & Hw & _)].
    + destruct HG as (p & g & Hin); [by eexists|].
      rewrite Hpop in Hin. by apply elem_of_nil in Hin.
    + rewrite Hpop in Hw. by apply elem_of_nil in Hw.
Qed.

Lemma walk_mono (f f' : nat) cf node acc r :
  walk f cf node acc = Some r → (f ≤ f')%nat → walk f' cf node acc = Some r.
Proof.
  revert f' node acc. induction f as [|f IH]; intros f' node acc.
  - destruct node; [done|]. simpl. intros [= <-] _. by destruct f'.
  - destruct node as [n|]; [|intros [= <-] _; by destruct f'].
    intros Hw Hle. destruct f' as [|f']; [lia|]. simpl in *.
    destruct (cf !! n) as [next|]; [|done]. apply IH; [done|lia].
Qed.

Lemma astar_loop_mono (f f' : nat) st r :
  astar_loop f st = Some r → (f ≤ f')%nat → astar_loop f' st = Some r.
Proof.
  revert f' st. induction f as [|f IH]; intros f' st; [done|].
  intros Hrun Hle. destruct f' as [|f']; [lia|]. simpl in *.
  destruct (heappop entry_ltb (open_heap st)) as [[[[p g] current] h']|]; [|done].
  case_bool_decide.
  - destruct (walk f _ _ _) as [w|] eqn:Hw; [|done].
    by rewrite (walk_mono _ f' _ _ _ _ Hw) by lia.
  - destruct (Robopath.expand _ _ _ _ _ _) as [st''|e]; [|done].
    apply IH; [done|lia].
Qed.

Lemma init_closed_or_open : closed_or_open None (init_state start goal).
Proof.
  intros n g Hg _. simpl in Hg. apply lookup_singleton_Some in Hg as [<- <-].
  left. simpl. apply list_elem_of_singleton. by rewrite Z.add_0_l.
Qed.

Lemma init_goal_open : goal_open (init_state start goal).
Proof.
  intros [g Hg]. simpl in Hg. apply lookup_singleton_Some in Hg as [<- <-].
  eexists _, _. simpl. by apply list_elem_of_singleton.
Qed.

(** [astar] returns: with enough fuel the run ends, whatever larger
    amount is given, in a result that satisfies [astar_post]. *)
Lemma astar_run_total :
  ∃ fuel0 r stf,
    (∀ fuel, (fuel0 ≤ fuel)%nat →
       astar_run start goal width height blocked fuel = Some (r, stf)) ∧
    astar_post r ∧ Inv stf.
Proof.
  destruct (astar_loop_spec (measure (init_state start goal) + size box + 2)
              (init_state start goal))
    as (r & stf & Hrun & Hpost & HI);
    [apply Inv_init|apply init_closed_or_open|apply init_goal_open|done|].
  eexists _, r, stf. split; [|done].
  intros fuel Hfuel. by eapply astar_loop_mono.
Qed.

Lemma astar_run_post (fuel : nat) r stf :
  astar_run start goal width height blocked fuel = Some (r, stf) →
  astar_post r ∧ Inv stf.
Proof.
  intros Hrun. destruct astar_run_total as (fuel0 & r' & stf' & Hall & Hpost & HI).
  specialize (Hall (fuel `max` fuel0)%nat ltac:(lia)).
  apply (astar_loop_mono _ (fuel `max` fuel0)%nat) in Hrun; [|lia].
  unfold astar_run in Hall. rewrite Hrun in Hall. by injection Hall as -> ->.
Qed.
End GridSearch.

(** * The puzzle *)

Section PuzzleFacts.
Import Week3 PuzzleSpec.

Lemma length9 (ts : list Z) :
  length ts = 9%nat →
  ∃ t0 t1 t2 t3 t4 t5 t6 t7 t8, ts = [t0; t1; t2; t3; t4; t5; t6; t7; t8].
Proof.
  intros H. do 9 (destruct ts as [|? ts]; [done|]). destruct ts; [|done].
  by eexists _, _, _, _, _, _, _, _, _.
Qed.

Lemma valid_length (ts : list Z) : valid_tiles ts → length ts = 9%nat.
Proof. unfold valid_tiles. intros H. by rewrite H. Qed.

Lemma valid_range (ts : list Z) (t : Z) : valid_tiles ts → t ∈ ts → 0 ≤ t ≤ 8.
Proof.
  unfold valid_tiles. intros H Ht. rewrite H in Ht. unfold range9 in Ht.
  set_unfold. lia.
Qed.

Lemma valid_blank (ts : list Z) : valid_tiles ts → 0 ∈ ts.
Proof. unfold valid_tiles. intros H. rewrite H. unfold range9. set_solver. Qed.

Lemma valid_NoDup (ts : list Z) : valid_tiles ts → NoDup ts.
Proof.
  unfold valid_tiles. intros H. rewrite H. unfold range9.
  repeat (apply NoDup_cons; split; [set_unfold; lia|]). apply NoDup_nil_2.
Qed.

Lemma index_spec (v : Z) (l : list Z) :
  v ∈ l →
  ∃ k : nat, index v l = Returned (Z.of_nat k) ∧ l !! k = Some v ∧
             ∀ j : nat, (j < k)%nat → l !! j ≠ Some v.
Proof.
  induction l as [|x l IH]; [by intros ?%elem_of_nil|].
  intros Hin. simpl. case_bool_decide as Hx.
  - subst x. exists O. split_and!; [done..|]. lia.
  - apply elem_of_cons in Hin as [->|Hin]; [done|].
    destruct (IH Hin) as (k & -> & Hk & Hfirst). exists (S k). split_and!.
    + simpl. f_equal. lia.
    + done.
    + intros [|j] Hj; simpl; [congruence|]. apply Hfirst. lia.
Qed.

Lemma index_goal (t : Z) : 1 ≤ t ≤ 8 → index t goal = Returned (t - 1).
Proof.
  intros Ht.
  assert (t = 1 ∨ t = 2 ∨ t = 3 ∨ t = 4 ∨ t = 5 ∨ t = 6 ∨ t = 7 ∨ t = 8)
    as Hcase by lia.
  destruct Hcase as [->|[->|[->|[->|[->|[->|[->| ->]]]]]]]; reflexivity.
Qed.

Lemma getitem_lookup (l : list Z) (i : Z) (x : Z) :
  0 ≤ i → l !! Z.to_nat i = Some x → getitem l i = Returned x.
Proof.
  intros Hi Hl. pose proof (lookup_lt_Some _ _ _ Hl).
  unfold getitem, norm_index.
  rewrite (bool_decide_false (i < 0)) by lia.
  rewrite bool_decide_true by lia. simpl. by rewrite Hl.
Qed.

Lemma setitem_insert (l : list Z) (i : Z) (x : Z) :
  0 ≤ i < Z.of_nat (length l) →
  setitem l i x = Returned (<[ Z.to_nat i := x ]> l).
Proof.
  intros Hi. unfold setitem, norm_index.
  rewrite (bool_decide_false (i < 0)) by lia.
  by rewrite bool_decide_true by lia.
Qed.

Lemma tile_distance_nonneg (i t : Z) : 0 ≤ tile_distance i t.
Proof. unfold tile_distance. case_bool_decide; lia. Qed.

Lemma heuristic_step_spec (ts : list Z) (d i t : Z) :
  0 ≤ i → ts !! Z.to_nat i = Some t → 0 ≤ t ≤ 8 →
  heuristic_step ts d i = Returned (d + tile_distance i t).
Proof.
  intros Hi Hl Ht. unfold heuristic_step, tile_distance.
  rewrite (getitem_lookup _ _ _ Hi Hl). cbn [mbind outcome_bind].
  case_bool_decide; [|f_equal; lia].
  rewrite index_goal by lia. done.
Qed.

Lemma move_step_swap (s : PuzzleState) (b : Z) (acc : list PuzzleState)
    (d : string * (Z * Z)) :
  move_step s b acc d =
    match swap_blank (tiles s) b d with
    | Raised e => Raised e
    | Returned None => Returned acc
    | Returned (Some l2) =>
      Returned (acc ++ [ {| tiles := l2; moves := moves s + 1; parent := Some s;
                           move_description := d.1 |} ])
    end.
Proof.
  destruct d as [dir [dr dc]]. unfold move_step, swap_blank.
  case_bool_decide; [|done].
  generalize ((b `div` 3 + dr) * 3 + (b `mod` 3 + dc)). intros np.
  destruct (getitem (tiles s) np) as [a|]; simpl; [|done].
  destruct (getitem (tiles s) b) as [b'|]; simpl; [|done].
  destruct (setitem (tiles s) b a) as [l1|]; simpl; [|done].
  destruct (setitem l1 np b') as [l2|]; simpl; done.
Qed.

Lemma heuristic_total (s : PuzzleState) :
  length (tiles s) = 9%nat → (∀ t, t ∈ tiles s → 0 ≤ t ≤ 8) →
  heuristic s = Returned (h_total (tiles s)).
Proof.
  intros Hlen Hrange. destruct s as [ts m p d]. simpl in *.
  destruct (length9 _ Hlen) as (t0 & t1 & t2 & t3 & t4 & t5 & t6 & t7 & t8 & ->).
  unfold heuristic, range9. cbn [tiles for_each].
  repeat (erewrite heuristic_step_spec;
          [cbn [mbind outcome_bind]|lia|reflexivity|apply Hrange; set_solver]).
  reflexivity.
Qed.

Lemma h_from_ge (ts : list Z) (i acc : Z) : acc ≤ h_from i ts acc.
Proof.
  revert i acc. induction ts as [|t ts IH]; intros i acc; simpl; [done|].
  pose proof (tile_distance_nonneg i t).
  pose proof (IH (i + 1) (acc + tile_distance i t)). lia.
Qed.

Lemma h_total_nonneg (ts : list Z) : 0 ≤ h_total ts.
Proof. apply h_from_ge. Qed.

(** Runs [move_step] on an explicit board with the blank at a known
    place. *)
Local Ltac run_moves :=
  unfold directions; cbn [for_each];
  repeat (rewrite move_step_swap; cbn [tiles];
          match goal with
          | |- context [swap_blank ?a ?b ?c] =>
            let r := eval vm_compute in (swap_blank a b c) in
            change (swap_blank a b c) with r
          end;
          cbn [mbind outcome_bind app fst]).

Local Ltac try_pos k' :=
  solve [exists k'; eexists; cbn [tiles moves parent];
         split_and!; [split_and!; [lia|lia|reflexivity]|reflexivity..]].

Local Ltac find_pos :=
  first [try_pos 0%nat|try_pos 1%nat|try_pos 2%nat|try_pos 3%nat|try_pos 4%nat
        |try_pos 5%nat|try_pos 6%nat|try_pos 7%nat|try_pos 8%nat].

(** [get_moves] returns, and each state that it returns is the
    argument with the blank and one adjacent tile exchanged. *)
Lemma get_moves_spec (s : PuzzleState) :
  length (tiles s) = 9%nat → 0 ∈ tiles s →
  ∃ l (k : nat), get_moves s = Returned l ∧ tiles s !! k = Some 0 ∧
    ∀ s', s' ∈ l →
      ∃ (k' : nat) t, adjacent_pos k k' ∧ tiles s !! k' = Some t ∧
        tiles s' = <[ k' := 0 ]> (<[ k := t ]> (tiles s)) ∧
        moves s' = moves s + 1 ∧ parent s' = Some s.
Proof.
  intros Hlen Hblank.
  destruct (index_spec 0 (tiles s) Hblank) as (k & Hidx & Hk & _).
  pose proof (lookup_lt_Some _ _ _ Hk) as Hk9. rewrite Hlen in Hk9.
  unfold get_moves. rewrite Hidx. cbn [mbind outcome_bind].
  destruct s as [ts m p d]. cbn [tiles moves] in *.
  destruct (length9 _ Hlen) as (t0 & t1 & t2 & t3 & t4 & t5 & t6 & t7 & t8 & ->).
  assert (k = 0 ∨ k = 1 ∨ k = 2 ∨ k = 3 ∨ k = 4 ∨ k = 5 ∨ k = 6 ∨ k = 7 ∨ k = 8)%nat
    as Hcase by lia.
  pose proof Hk as Hk'.
  destruct Hcase as [->|[->|[->|[->|[->|[->|[->|[->| ->]]]]]]]];
    injection Hk as ->; run_moves;
    (eexists _, _; split; [reflexivity|]; split; [exact Hk'|]);
    intros s' Hs'; set_unfold in Hs';
    repeat (destruct Hs' as [->|Hs']; [find_pos|]); done.
Qed.

Lemma insert_head_Permutation (l : list Z) (j : nat) (b x : Z) :
  l !! j = Some b → b :: <[ j := x ]> l ≡ₚ x :: l.
Proof.
  revert j. induction l as [|y l IH]; intros [|j] Hj; simplify_eq/=.
  - apply Permutation_swap.
  - rewrite Permutation_swap, (IH _ Hj). apply Permutation_swap.
Qed.

(** Exchanging two entries of a list permutes it. *)
Lemma swap_Permutation (l : list Z) (i j : nat) (a b : Z) :
  l !! i = Some a → l !! j = Some b → <[ j := a ]> (<[ i := b ]> l) ≡ₚ l.
Proof.
  revert i j. induction l as [|x l IH]; intros [|i] [|j] Hi Hj; simplify_eq/=.
  - done.
  - by apply insert_head_Permutation.
  - by apply insert_head_Permutation.
  - f_equiv. by apply IH.
Qed.

Lemma state_step_tiles (s s' : PuzzleState) :
  valid_tiles (tiles s) → state_step s s' →
  valid_tiles (tiles s') ∧ moves s' = moves s + 1 ∧ parent s' = Some s.
Proof.
  intros Hv (l & Hl & Hs').
  destruct (get_moves_spec s (valid_length _ Hv) (valid_blank _ Hv))
    as (l' & k & Hl' & Hk & Hall).
  rewrite Hl in Hl'. injection Hl' as <-.
  destruct (Hall s' Hs') as (k' & t & _ & Hk' & -> & Hm & Hp).
  split; [|done]. unfold valid_tiles. by rewrite swap_Permutation.
Qed.

Lemma get_moves_returns (s : PuzzleState) :
  valid_tiles (tiles s) → ∃ l, get_moves s = Returned l.
Proof.
  intros Hv.
  destruct (get_moves_spec s (valid_length _ Hv) (valid_blank _ Hv))
    as (l & k & Hl & _). by exists l.
Qed.

Lemma heuristic_valid (s : PuzzleState) :
  valid_tiles (tiles s) → heuristic s = Returned (h_total (tiles s)).
Proof.
  intros Hv. apply heuristic_total; [by apply valid_length|].
  intros t. by apply valid_range.
Qed.

Lemma is_goal_valid (s : PuzzleState) :
  valid_tiles (tiles s) →
  is_goal s = Returned (bool_decide (h_total (tiles s) = 0)).
Proof. intros Hv. unfold is_goal. by rewrite heuristic_valid. Qed.

Lemma h_total_9 (t0 t1 t2 t3 t4 t5 t6 t7 t8 : Z) :
  h_total [t0; t1; t2; t3; t4; t5; t6; t7; t8] =
    0 + tile_distance 0 t0 + tile_distance 1 t1 + tile_distance 2 t2 +
    tile_distance 3 t3 + tile_distance 4 t4 + tile_distance 5 t5 +
    tile_distance 6 t6 + tile_distance 7 t7 + tile_distance 8 t8.
Proof. reflexivity. Qed.

Lemma tile_distance_blank (i : Z) : tile_distance i 0 = 0.
Proof. done. Qed.

Lemma tile_distance_adjacent (k k' : nat) (t : Z) :
  adjacent_pos k k' →
  tile_distance (Z.of_nat k) t ≤ tile_distance (Z.of_nat k') t + 1.
Proof.
  intros (_ & _ & Hadj). unfold tile_distance. case_bool_decide; lia.
Qed.

Lemma tile_distance_zero (i t : Z) :
  0 ≤ t ≤ 8 → tile_distance i t = 0 → t = 0 ∨ t = i + 1.
Proof.
  intros Ht. unfold tile_distance. case_bool_decide; [|lia].
  intros Hd. right.
  assert (i `div` 3 = (t - 1) `div` 3 ∧ i `mod` 3 = (t - 1) `mod` 3) as [Hq Hr] by lia.
  pose proof (Z.div_mod i 3). pose proof (Z.div_mod (t - 1) 3). lia.
Qed.

Lemma adjacent_pos_sym (k k' : nat) : adjacent_pos k k' → adjacent_pos k' k.
Proof.
  intros (Hk & Hk' & Hd). split_and!; [done..|]. revert Hd.
  generalize (Z.of_nat k `div` 3) (Z.of_nat k `mod` 3)
             (Z.of_nat k' `div` 3) (Z.of_nat k' `mod` 3). lia.
Qed.

Local Ltac split9 H k :=
  let Hc := fresh "Hc" in
  assert (k = 0 ∨ k = 1 ∨ k = 2 ∨ k = 3 ∨ k = 4 ∨ k = 5 ∨ k = 6 ∨ k = 7 ∨ k = 8)%nat
    as Hc by (destruct H as (? & ? & _); lia);
  destruct Hc as [->|[->|[->|[->|[->|[->|[->|[->| ->]]]]]]]].

(** One move changes the heuristic by at most one. *)
Lemma h_total_swap (ts : list Z) (k k' : nat) (t : Z) :
  length ts = 9%nat → ts !! k = Some 0 → ts !! k' = Some t → adjacent_pos k k' →
  h_total ts ≤ h_total (<[ k' := 0 ]> (<[ k := t ]> ts)) + 1 ∧
  h_total (<[ k' := 0 ]> (<[ k := t ]> ts)) ≤ h_total ts + 1.
Proof.
  intros Hlen Hk Hk' Hadj.
  destruct (length9 _ Hlen) as (t0 & t1 & t2 & t3 & t4 & t5 & t6 & t7 & t8 & ->).
  assert (adjacent_pos k' k) as Hadj' by by apply adjacent_pos_sym.
  pose proof (tile_distance_adjacent _ _ t Hadj) as H1.
  pose proof (tile_distance_adjacent _ _ t Hadj') as H2.
  pose proof Hadj as (_ & _ & Hd).
  split9 Hadj k; split9 Hadj' k'; vm_compute in Hd; try discriminate Hd;
    injection Hk as ->; injection Hk' as ->;
    repeat match goal with
           | H : context [Z.of_nat ?n] |- _ =>
             let v := eval vm_compute in (Z.of_nat n) in
             change (Z.of_nat n) with v in H
           end;
    cbn [insert list_insert];
    rewrite !h_total_9, ?tile_distance_blank; lia.
Qed.

Lemma h_total_zero (ts : list Z) : valid_tiles ts → h_total ts = 0 → ts = goal.
Proof.
  intros Hv Hh. pose proof (valid_NoDup _ Hv) as Hnd.
  pose proof (λ t, valid_range ts t Hv) as Hr.
  destruct (length9 _ (valid_length _ Hv))
    as (t0 & t1 & t2 & t3 & t4 & t5 & t6 & t7 & t8 & ->).
  rewrite h_total_9 in Hh.
  pose proof (tile_distance_nonneg 0 t0). pose proof (tile_distance_nonneg 1 t1).
  pose proof (tile_distance_nonneg 2 t2). pose proof (tile_distance_nonneg 3 t3).
  pose proof (tile_distance_nonneg 4 t4). pose proof (tile_distance_nonneg 5 t5).
  pose proof (tile_distance_nonneg 6 t6). pose proof (tile_distance_nonneg 7 t7).
  pose proof (tile_distance_nonneg 8 t8).
  assert (t8 = 0) as ->.
  { destruct (tile_distance_zero 8 t8) as [?|?]; [apply Hr; set_solver|lia|done|].
    assert (0 ≤ t8 ≤ 8) by (apply Hr; set_solver). lia. }
  assert (∀ (i : nat) (z t : Z), z = Z.of_nat i → (i < 8)%nat →
            [t0; t1; t2; t3; t4; t5; t6; t7; 0] !! i = Some t →
            tile_distance z t = 0 → t = z + 1) as Hfix.
  { intros i z t -> Hi Hl Hd.
    destruct (tile_distance_zero (Z.of_nat i) t) as [->|?]; [|done| |done].
    - apply Hr. by eapply list_elem_of_lookup_2.
    - pose proof (NoDup_lookup _ i 8%nat 0 Hnd Hl eq_refl). lia. }
  rewrite (Hfix 0%nat 0 t0), (Hfix 1%nat 1 t1), (Hfix 2%nat 2 t2),
    (Hfix 3%nat 3 t3), (Hfix 4%nat 4 t4), (Hfix 5%nat 5 t5),
    (Hfix 6%nat 6 t6), (Hfix 7%nat 7 t7); first [reflexivity|lia].
Qed.

Lemma goal_valid : valid_tiles goal.
Proof.
  unfold valid_tiles, goal, range9.
  change [1; 2; 3; 4; 5; 6; 7; 8; 0] with ([1; 2; 3; 4; 5; 6; 7; 8] ++ [0]).
  by rewrite (Permutation_app_comm _ [0]).
Qed.

(** The tiles that [get_moves] produces depend on the tiles only. *)
Lemma move_steps_tiles (s1 s2 : PuzzleState) (b : Z) (ds : list (string * (Z * Z))) :
  tiles s1 = tiles s2 → ∀ acc1 acc2 l1,
  tiles <$> acc1 = tiles <$> acc2 →
  for_each (move_step s1 b) ds acc1 = Returned l1 →
  ∃ l2, for_each (move_step s2 b) ds acc2 = Returned l2 ∧
        tiles <$> l1 = tiles <$> l2.
Proof.
  intros Hts. induction ds as [|d ds IH]; intros acc1 acc2 l1 Hacc; simpl.
  - intros [= <-]. by exists acc2.
  - rewrite !move_step_swap, <-Hts.
    destruct (swap_blank (tiles s1) b d) as [[l|]|e]; simpl; [| |done].
    + apply IH. by rewrite !fmap_app, Hacc.
    + by apply IH.
Qed.

Lemma state_step_puzzle_step (s s' : PuzzleState) :
  state_step s s' → puzzle_step (tiles s) (tiles s').
Proof.
  intros (l & Hl & Hs'). unfold puzzle_step, succ_tiles.
  assert (∃ l2, get_moves (fresh (tiles s)) = Returned l2 ∧
                tiles <$> l = tiles <$> l2) as (l2 & -> & <-).
  { unfold get_moves in *. cbn [fresh tiles].
    destruct (index 0 (tiles s)) as [b|]; cbn [mbind outcome_bind] in *; [|done].
    by apply (move_steps_tiles s (fresh (tiles s)) b directions eq_refl [] [] l). }
  by apply list_elem_of_fmap_2.
Qed.

Lemma puzzle_step_state_step (a b : list Z) :
  puzzle_step a b → ∃ s', state_step (fresh a) s' ∧ tiles s' = b.
Proof.
  unfold puzzle_step, succ_tiles, state_step.
  destruct (get_moves (fresh a)) as [l|]; [|by intros ?%elem_of_nil].
  intros (s' & -> & Hs')%list_elem_of_fmap. exists s'. split; [|done]. by exists l.
Qed.

Lemma puzzle_step_valid (a b : list Z) :
  valid_tiles a → puzzle_step a b → valid_tiles b.
Proof.
  intros Hv (s' & Hs' & <-)%puzzle_step_state_step.
  by apply (state_step_tiles (fresh a)).
Qed.

Lemma puzzle_step_h (a b : list Z) :
  valid_tiles a → puzzle_step a b → h_total a ≤ h_total b + 1.
Proof.
  intros Hv (s' & (l & Hl & Hs') & <-)%puzzle_step_state_step.
  destruct (get_moves_spec (fresh a) (valid_length _ Hv) (valid_blank _ Hv))
    as (l' & k & Hl' & Hk & Hall).
  rewrite Hl in Hl'. injection Hl' as <-.
  destruct (Hall s' Hs') as (k' & t & Hadj & Hk' & -> & _).
  by apply h_total_swap; [apply valid_length|..].
Qed.

(** The heuristic is a lower bound on the number of moves to the goal. *)
Lemma h_total_steps (n : nat) (ts : list Z) :
  valid_tiles ts → steps puzzle_step n ts goal → h_total ts ≤ Z.of_nat n.
Proof.
  intros Hv Hsteps. remember goal as g eqn:Hg.
  induction Hsteps as [a|n a b c Hab _ IH].
  - subst a. vm_compute. done.
  - pose proof (puzzle_step_h _ _ Hv Hab).
    specialize (IH (puzzle_step_valid _ _ Hv Hab) Hg). lia.
Qed.
End PuzzleFacts.

Section PuzzleSearch.
Import Week3 PuzzleSpec.
Variable init : PuzzleState.
Hypothesis init_valid : valid_tiles (tiles init).
Hypothesis init_root : parent init = None.

Abbreviation PInv := (PuzzleSpec.PInv init).
Abbreviation pmeasure := (PuzzleSpec.pmeasure init).

Lemma chain_unfold (s : PuzzleState) :
  chain s = s :: match parent s with None => [] | Some p => chain p end.
Proof. by destruct s. Qed.

Lemma generated_valid (s : PuzzleState) : generated init s → valid_tiles (tiles s).
Proof using init_valid.
  induction 1 as [|s l s' _ IH Hl Hs']; [done|].
  apply (state_step_tiles s s' IH). by exists l.
Qed.

Lemma generated_path (s : PuzzleState) :
  generated init s → path_from_to state_step (reverse (chain s)) init s.
Proof using init_valid init_root.
  induction 1 as [|s l s' Hgen IH Hl Hs'].
  - rewrite chain_unfold, init_root. done.
  - assert (state_step s s') as Hstep by by exists l.
    destruct (state_step_tiles s s' (generated_valid _ Hgen) Hstep) as (_ & _ & Hp).
    rewrite chain_unfold, Hp, reverse_cons. by eapply path_from_to_snoc.
Qed.

Lemma steps_tiles (n : nat) (a b : PuzzleState) :
  steps state_step n a b → steps puzzle_step n (tiles a) (tiles b).
Proof.
  induction 1 as [a|n a b c Hab _ IH]; [constructor|].
  econstructor; [by apply state_step_puzzle_step|done].
Qed.

Lemma in_universe (ts : list Z) : ts ≡ₚ tiles init → ts ∈ universe (tiles init).
Proof.
  intros Hp. apply elem_of_list_to_set, permutations_Permutation. by symmetry.
Qed.

Lemma size_universe_visit (t : list Z) (V : gset (list Z)) :
  t ∈ universe (tiles init) → t ∉ V →
  (size (universe (tiles init) ∖ ({[ t ]} ∪ V)) + 1 =
   size (universe (tiles init) ∖ V))%nat.
Proof.
  clear init_valid init_root. intros Ht HV.
  assert (universe (tiles init) ∖ V =
          {[ t ]} ∪ universe (tiles init) ∖ ({[ t ]} ∪ V)) as ->.
  { apply set_eq. intros x. destruct (decide (x = t)); set_solver. }
  rewrite (size_union (C:=gset (list Z)) {[ t ]}); [|set_solver].
  rewrite size_singleton. lia.
Qed.

Lemma visit_spec (st : SearchState) (next_state : PuzzleState) :
  PInv st → generated init next_state →
  ∃ st', visit st next_state = Returned st' ∧ PInv st' ∧
         (pmeasure st' ≤ pmeasure st)%nat.
Proof using init_valid.
  intros HI Hgen. pose proof (generated_valid _ Hgen) as Hv.
  unfold visit. case_bool_decide as Hnew; [|by exists st].
  rewrite (heuristic_valid _ Hv). cbn [mbind outcome_bind].
  eexists. split; [done|]. split.
  - split; cbn.
    + intros f c s [Hin|[= _ _ ->]%list_elem_of_singleton]%elem_of_app; [|done].
      by eapply (pinv_open _ _ HI).
    + intros ts [->%elem_of_singleton|Hin]%elem_of_union.
      * unfold valid_tiles in *. by rewrite Hv, init_valid.
      * by apply (pinv_visited _ _ HI).
    + rewrite length_app, (pinv_counter _ _ HI). simpl. lia.
    + intros i e. rewrite lookup_app_Some.
      intros [Hl|[Hi Hl]]; [by apply (pinv_log _ _ HI)|].
      apply list_lookup_singleton_Some in Hl as [Hi0 <-]. cbn.
      rewrite (pinv_counter _ _ HI). lia.
  - unfold PuzzleSpec.pmeasure. cbn. rewrite length_app. simpl.
    assert (tiles next_state ∈ universe (tiles init)) as Hu.
    { apply in_universe. unfold valid_tiles in *. by rewrite Hv, init_valid. }
    pose proof (size_universe_visit _ _ Hu Hnew). lia.
Qed.

(** Total correctness of the main loop. *)
Lemma solve_loop_spec (fuel : nat) :
  ∀ st, PInv st → (pmeasure st + 1 ≤ fuel)%nat →
  ∃ r stf, solve_loop fuel st = Some (r, stf) ∧ solve_post init r ∧ PInv stf.
Proof using init_valid init_root.
  induction fuel as [|fuel IH]; intros st HI Hfuel; [lia|].
  simpl. destruct (heappop entry_ltb (open_set st)) as [[[[f c] current] h']|] eqn:Hpop.
  - assert ((f, c, current) ∈ open_set st) as Hin.
    { rewrite (heappop_Permutation _ _ _ _ Hpop). by left. }
    pose proof (pinv_open _ _ HI _ _ _ Hin) as Hgen.
    pose proof (generated_valid _ Hgen) as Hv.
    assert (PInv (popped h' current st)) as HI'.
    { split; cbn; [|apply HI..].
      intros f' c' s' Hs'. eapply (pinv_open _ _ HI).
      rewrite (heappop_Permutation _ _ _ _ Hpop). by right. }
    rewrite (is_goal_valid _ Hv). case_bool_decide as Hh.
    + eexists _, _. split; [done|]. split; [|done].
      exists current. split; [by apply generated_path|by apply h_total_zero].
    + destruct (get_moves_returns _ Hv) as [l Hl]. rewrite Hl.
      destruct (for_each_returns visit
                  (λ s, PInv s ∧ (pmeasure s ≤ pmeasure (popped h' current st))%nat)
                  l (popped h' current st)) as (st'' & -> & HI'' & Hm); [done| |].
      { intros s1 a [HI1 Hm1] Ha.
        destruct (visit_spec s1 a HI1) as (s2 & Hs2 & HI2 & Hm2);
          [by eapply generated_move|].
        exists s2. split; [done|]. split; [done|lia]. }
      apply IH; [done|].
      pose proof (heappop_length _ _ _ _ Hpop).
      unfold PuzzleSpec.pmeasure in *. cbn in Hm. lia.
  - eexists _, _. split; [done|]. split; done.
Qed.

Lemma solve_loop_mono (f f' : nat) st r :
  solve_loop f st = Some r → (f ≤ f')%nat → solve_loop f' st = Some r.
Proof.
  revert f' st. induction f as [|f IH]; intros f' st; [done|].
  intros Hrun Hle. destruct f' as [|f']; [lia|]. simpl in *.
  destruct (heappop entry_ltb (open_set st)) as [[[[? c] current] h']|]; [|done].
  destruct (is_goal current) as [[]|]; [done| |done].
  destruct (get_moves current) as [l|]; [|done].
  destruct (for_each visit l _) as [st''|]; [|done].
  apply IH; [done|lia].
Qed.
End PuzzleSearch.

Section PuzzleSolver.
Import Week3 PuzzleSpec.

Lemma range9_Sorted : Sorted Z.le range9.
Proof. unfold range9. repeat (constructor; try lia). Qed.

Lemma sorted_range9 (ts : list Z) : sorted ts = range9 ↔ valid_tiles ts.
Proof.
  unfold sorted, valid_tiles. split.
  - intros <-. by rewrite merge_sort_Permutation.
  - intros Hp. apply (Sorted_unique Z.le).
    + apply Sorted_merge_sort. apply _.
    + apply range9_Sorted.
    + by rewrite merge_sort_Permutation.
Qed.

Lemma init_valid_tiles (ts : list Z) :
  valid_tiles ts →
  init ts = Returned {| initial_state := fresh ts; goal_state := fresh goal;
                        explored := ∅; nodes_expanded := 0 |}.
Proof.
  intros Hv. unfold init. rewrite bool_decide_false; [done|].
  intros [Hlen|Hs]; [by rewrite valid_length in Hlen|].
  by apply Hs, sorted_range9.
Qed.

Lemma init_invalid_tiles (ts : list Z) :
  ¬ valid_tiles ts → init ts = Raised ValueError.
Proof.
  intros Hv. unfold init. rewrite bool_decide_true; [done|].
  right. by rewrite sorted_range9.
Qed.

Lemma init_Returned (ts : list Z) (sv : Solver) :
  init ts = Returned sv →
  valid_tiles ts ∧
  sv = {| initial_state := fresh ts; goal_state := fresh goal;
          explored := ∅; nodes_expanded := 0 |}.
Proof.
  intros Hinit. destruct (decide (valid_tiles ts)) as [Hv|Hv].
  - rewrite (init_valid_tiles _ Hv) in Hinit. by injection Hinit as <-.
  - by rewrite (init_invalid_tiles _ Hv) in Hinit.
Qed.

Lemma Inv_empty_search (sv : Solver) :
  PuzzleSpec.PInv (initial_state sv) (empty_search sv).
Proof.
  split; cbn; [intros ??? []%elem_of_nil|set_solver|done|].
  intros i e. by rewrite lookup_nil.
Qed.

Lemma Inv_start_search (sv : Solver) (h0 : Z) :
  PuzzleSpec.PInv (initial_state sv) (start_search sv h0).
Proof.
  split; cbn.
  - intros f c s [= _ _ ->]%list_elem_of_singleton. constructor.
  - by intros ts ->%elem_of_singleton.
  - done.
  - intros [|i] e; [|done]. by intros [= <-].
Qed.

(** [solve] returns on a solver that the constructor built: with enough
    fuel the run ends, whatever larger amount is given, in a result
    that satisfies [solve_post]. *)
Lemma solve_run_total (ts : list Z) (sv : Solver) :
  init ts = Returned sv →
  ∃ fuel0 r stf,
    (∀ fuel, (fuel0 ≤ fuel)%nat → solve_run fuel sv = Some (r, stf)) ∧
    solve_post (initial_state sv) r ∧ PuzzleSpec.PInv (initial_state sv) stf.
Proof.
  intros (Hv & ->)%init_Returned.
  set (sv := {| initial_state := fresh ts; goal_state := fresh goal;
                explored := ∅; nodes_expanded := 0 |}).
  assert (valid_tiles (tiles (initial_state sv))) as Hv' by done.
  unfold solve_run. rewrite (is_goal_valid _ Hv').
  case_bool_decide as Hh.
  - exists O. eexists _, _. split; [done|]. split; [|apply Inv_empty_search].
    exists (initial_state sv). split; [done|]. by apply h_total_zero.
  - rewrite (heuristic_valid _ Hv').
    set (st0 := start_search sv (h_total (tiles (initial_state sv)))).
    destruct (solve_loop_spec (initial_state sv) Hv' eq_refl
                (PuzzleSpec.pmeasure (initial_state sv) st0 + 1) st0)
      as (r & stf & Hrun & Hpost & HI); [apply Inv_start_search|done|].
    eexists _, r, stf. split; [|done].
    intros fuel Hfuel. by eapply solve_loop_mono.
Qed.

Lemma solve_run_mono (f f' : nat) (sv : Solver) r :
  solve_run f sv = Some r → (f ≤ f')%nat → solve_run f' sv = Some r.
Proof.
  unfold solve_run. destruct (is_goal _) as [[]|]; [done| |done].
  destruct (heuristic _); [|done]. apply solve_loop_mono.
Qed.

Lemma solve_run_post (ts : list Z) (sv : Solver) (fuel : nat) r stf :
  init ts = Returned sv → solve_run fuel sv = Some (r, stf) →
  solve_post (initial_state sv) r ∧ PuzzleSpec.PInv (initial_state sv) stf.
Proof.
  intros Hinit Hrun.
  destruct (solve_run_total ts sv Hinit) as (fuel0 & r' & stf' & Hall & Hpost & HI).
  specialize (Hall (fuel `max` fuel0)%nat ltac:(lia)).
  apply (solve_run_mono _ (fuel `max` fuel0)%nat) in Hrun; [|lia].
  rewrite Hrun in Hall. by injection Hall as -> ->.
Qed.
End PuzzleSolver.

(** ** Arrangements that cannot be solved *)

Section Parity.
Import Week3 PuzzleSpec.

Lemma inversions_rotate3 (x y t : Z) (S : list Z) :
  t ≠ x → t ≠ y →
  inversions (x :: y :: t :: S) `mod` 2 = inversions (t :: x :: y :: S) `mod` 2.
Proof.
  intros Hx Hy. cbn [inversions]. rewrite !filter_cons.
  repeat case_decide; cbn [length]; Z.div_mod_to_equations; lia.
Qed.

Lemma inversions_rotate (P : list Z) (x y t : Z) (S : list Z) :
  t ≠ x → t ≠ y →
  inversions (P ++ x :: y :: t :: S) `mod` 2 =
  inversions (P ++ t :: x :: y :: S) `mod` 2.
Proof.
  intros Hx Hy. induction P as [|p P IH]; [by apply inversions_rotate3|].
  cbn [app inversions].
  assert (P ++ x :: y :: t :: S ≡ₚ P ++ t :: x :: y :: S) as Hp.
  { f_equiv. by rewrite (Permutation_middle [x; y] S t). }
  assert (length (filter (λ z, z < p) (P ++ x :: y :: t :: S)) =
          length (filter (λ z, z < p) (P ++ t :: x :: y :: S))) as ->
    by by rewrite Hp.
  Z.div_mod_to_equations. lia.
Qed.

Local Ltac split9 H k :=
  let Hc := fresh "Hc" in
  assert (k = 0 ∨ k = 1 ∨ k = 2 ∨ k = 3 ∨ k = 4 ∨ k = 5 ∨ k = 6 ∨ k = 7 ∨ k = 8)%nat
    as Hc by (destruct H as (? & ? & _); lia);
  destruct Hc as [->|[->|[->|[->|[->|[->|[->|[->| ->]]]]]]]].

Local Ltac neq := first [assumption|apply not_eq_sym; assumption].

Local Ltac rotate :=
  first [ reflexivity
        | apply (inversions_rotate []); neq
        | apply (inversions_rotate [_]); neq
        | apply (inversions_rotate [_; _]); neq
        | apply (inversions_rotate [_; _; _]); neq
        | apply (inversions_rotate [_; _; _; _]); neq
        | apply (inversions_rotate [_; _; _; _; _]); neq ].

Local Ltac distinct H :=
  repeat (let Hni := fresh "Hni" in
          apply NoDup_cons in H as [Hni H];
          rewrite !not_elem_of_cons in Hni; destruct_and!).

(** A move keeps the parity of the number of inversions. *)
Lemma parity_step (a b : list Z) :
  valid_tiles a → puzzle_step a b → parity b = parity a.
Proof.
  intros Hv (s' & (l & Hl & Hs') & <-)%puzzle_step_state_step.
  destruct (get_moves_spec (fresh a) (valid_length _ Hv) (valid_blank _ Hv))
    as (l' & k & Hl' & Hk & Hall).
  rewrite Hl in Hl'. injection Hl' as <-.
  destruct (Hall s' Hs') as (k' & t & Hadj & Hk' & -> & _).
  pose proof (valid_NoDup _ Hv) as Hnd. cbn [fresh tiles] in *.
  destruct (length9 _ (valid_length _ Hv))
    as (t0 & t1 & t2 & t3 & t4 & t5 & t6 & t7 & t8 & ->).
  clear Hv Hl Hs' Hall.
  pose proof (adjacent_pos_sym _ _ Hadj) as Hadj'.
  pose proof Hadj as (_ & _ & Hd).
  split9 Hadj k; split9 Hadj' k'; vm_compute in Hd; try discriminate Hd;
    injection Hk as ->; injection Hk' as ->; clear Hadj Hadj' Hd;
    distinct Hnd; unfold parity; cbn [insert list_insert];
    repeat first
      [rewrite filter_cons_False by (simpl; let Hx := fresh in intros Hx; by apply Hx)
      |rewrite filter_cons_True by (simpl; neq)];
    rewrite filter_nil; first [rotate|symmetry; rotate].
Qed.

Lemma parity_steps (n : nat) (a b : list Z) :
  valid_tiles a → steps puzzle_step n a b → parity b = parity a.
Proof.
  intros Hv Hsteps. induction Hsteps as [a|n a b c Hab _ IH]; [done|].
  rewrite <-(parity_step a b) by done.
  by apply IH, (puzzle_step_valid a b).
Qed.

(** Tiles 7 and 8 exchanged: the goal cannot be reached. *)
Lemma unsolvable_7_8 (n : nat) :
  ¬ steps puzzle_step n [1; 2; 3; 4; 5; 6; 8; 7; 0] goal.
Proof.
  intros Hsteps. apply parity_steps in Hsteps.
  - vm_compute in Hsteps. done.
  - by apply sorted_range9.
Qed.
End Parity.

(** * Results of the two searches *)

Section GridResults.
Import Robopath GridSpec.
Variables (start goal : Point) (width height : Z) (blocked : gset Point).

Abbreviation grid_step := (grid_step width height blocked).
Abbreviation astar_run := (astar_run start goal width height blocked).

(** When the goal cannot be reached, [astar] ends with its no-path
    result. *)
Lemma astar_unreachable :
  (∀ n, ¬ steps grid_step n start goal) →
  ∃ fuel0 stf, ∀ fuel, (fuel0 ≤ fuel)%nat →
    astar_run fuel = Some (Returned None, stf).
Proof.
  intros Hno.
  destruct (astar_run_total start goal width height blocked)
    as (fuel0 & r & stf & Hall & Hpost & _).
  exists fuel0, stf. destruct r as [[path|]|e]; [|done|done].
  destruct Hpost as [Hpath _]. by apply path_steps, Hno in Hpath.
Qed.

(** When the goal can be reached, [astar] ends with a path from the
    start to the goal that makes as few steps as any route. *)
Lemma astar_shortest (d : nat) :
  distance grid_step start goal d →
  ∃ fuel0 path stf,
    (∀ fuel, (fuel0 ≤ fuel)%nat →
       astar_run fuel = Some (Returned (Some path), stf)) ∧
    path_from_to grid_step path start goal ∧ length path = S d.
Proof.
  intros [Hd Hmin].
  destruct (astar_run_total start goal width height blocked)
    as (fuel0 & r & stf & Hall & Hpost & _).
  destruct r as [[path|]|e]; [|by apply Hpost in Hd|done].
  destruct Hpost as [Hpath Hle].
  exists fuel0, path, stf. split_and!; [done..|].
  specialize (Hle d Hd). destruct path as [|x path]; [by destruct Hpath|].
  apply path_steps, Hmin in Hpath. simpl in *. lia.
Qed.

End GridResults.

Section GridTrivial.
Import Robopath GridSpec.

(** Start and goal coincide: the first pass of the loop returns, and no
    successor has been generated or scored. *)
Lemma astar_run_same (s : Point) (width height : Z) (blocked : gset Point) (k : nat) :
  astar_run s s width height blocked (S (S k)) =
    Some (Returned (Some [s]), with_heap [] (init_state s s)).
Proof.
  unfold astar_run. simpl. rewrite bool_decide_true by done.
  rewrite lookup_singleton_eq. by destruct k.
Qed.

(** The no-path result is only returned with an empty heap. *)
Lemma astar_loop_None_heap (goal : Point) (width height : Z) (blocked : gset Point)
    (fuel : nat) (st stf : SearchState) :
  astar_loop goal width height blocked fuel st = Some (Returned None, stf) →
  open_heap stf = [].
Proof.
  revert st. induction fuel as [|fuel IH]; intros st; [done|]. simpl.
  destruct (heappop entry_ltb (open_heap st)) as [[[[p g] current] h']|] eqn:Hpop.
  - case_bool_decide.
    + by destruct (walk fuel _ _ _) as [[]|].
    + destruct (expand _ _ _ _ _ _) as [st''|]; [apply IH|done].
  - intros [= <-]. by apply heappop_None in Hpop.
Qed.

Lemma astar_run_None_heap (start goal : Point) (width height : Z)
    (blocked : gset Point) (fuel : nat) (stf : SearchState) :
  astar_run start goal width height blocked fuel = Some (Returned None, stf) →
  open_heap stf = [].
Proof. apply astar_loop_None_heap. Qed.

Lemma grid_step_blocked_goal (start goal : Point) (width height : Z)
    (blocked : gset Point) (n : nat) :
  goal ∈ blocked → start ≠ goal →
  ¬ steps (grid_step width height blocked) n start goal.
Proof.
  intros Hb Hne Hs. destruct n as [|n].
  - by inversion Hs.
  - apply steps_inv_last in Hs as (b & _ & [_ Hnb]). done.
Qed.
End GridTrivial.

Section PuzzleResults.
Import Week3 PuzzleSpec.

Lemma route_steps (l : list (list Z)) (a : list Z) :
  route a l = true → steps puzzle_step (length l) a (default a (last l)).
Proof.
  revert a. induction l as [|b l IH]; intros a; simpl; [constructor|].
  intros [Hab Hl]%andb_prop. apply bool_decide_eq_true in Hab.
  econstructor; [done|]. specialize (IH b Hl).
  destruct l as [|c l]; [done|]. rewrite last_cons_cons.
  destruct (last (c :: l)) eqn:E; [done|]. by apply last_None in E.
Qed.

Lemma solve_tiles_mono (f f' : nat) (ts : list Z) r :
  solve_tiles f ts = Some r → (f ≤ f')%nat → solve_tiles f' ts = Some r.
Proof.
  unfold solve_tiles, solve. destruct (init ts) as [sv|]; [|done].
  destruct (solve_run f sv) as [[r' st]|] eqn:Hrun; [|done].
  intros [= <-] Hle. by rewrite (solve_run_mono _ _ _ _ Hrun Hle).
Qed.

(** A run that has ended gives the same result with any other amount
    of fuel that lets it end. *)
Lemma solve_tiles_agree (f f' : nat) (ts : list Z) r r' :
  solve_tiles f ts = Some r → solve_tiles f' ts = Some r' → r = r'.
Proof.
  intros H H'.
  apply (solve_tiles_mono _ (f `max` f')%nat) in H; [|lia].
  apply (solve_tiles_mono _ (f `max` f')%nat) in H'; [|lia].
  congruence.
Qed.

(** The failure result is only returned with an empty frontier. *)
Lemma solve_loop_false_open (fuel : nat) (st stf : SearchState) path n :
  solve_loop fuel st = Some (Returned (false, path, n), stf) →
  open_set stf = [].
Proof.
  revert st. induction fuel as [|fuel IH]; intros st; [done|]. simpl.
  destruct (heappop entry_ltb (open_set st)) as [[[[f c] current] h']|] eqn:Hpop.
  - destruct (is_goal current) as [[]|]; [done| |done].
    destruct (get_moves current) as [l|]; [|done].
    destruct (for_each visit l _) as [st''|]; [apply IH|done].
  - intros [= <- <- <-]. by apply heappop_None in Hpop.
Qed.

Lemma solve_run_false_open (fuel : nat) (sv : Solver) stf path n :
  solve_run fuel sv = Some (Returned (false, path, n), stf) →
  open_set stf = [].
Proof.
  unfold solve_run. destruct (is_goal _) as [[]|]; [done| |done].
  destruct (heuristic _); [|done]. apply solve_loop_false_open.
Qed.

(** When the goal cannot be reached, [solve] ends with the failure
    result and the empty path. *)
Lemma solve_unreachable (ts : list Z) (sv : Solver) :
  init ts = Returned sv → (∀ n, ¬ steps puzzle_step n ts goal) →
  ∃ fuel0 n_exp stf, ∀ fuel, (fuel0 ≤ fuel)%nat →
    solve_run fuel sv = Some (Returned (false, [], n_exp), stf).
Proof.
  intros Hinit Hno.
  destruct (solve_run_total ts sv Hinit) as (fuel0 & r & stf & Hall & Hpost & _).
  destruct (init_Returned _ _ Hinit) as [_ ->].
  destruct r as [[[[] path] n_exp]|e]; simpl in Hpost; [|subst path|done].
  - destruct Hpost as (s & Hpath & Hgoal).
    apply path_steps, steps_tiles in Hpath. rewrite Hgoal in Hpath.
    by apply Hno in Hpath.
  - by exists fuel0, n_exp, stf.
Qed.
End PuzzleResults.

(** The grid of the demonstration in [main]: 5 by 3, three blocked
    cells, from the top left to the bottom right corner. *)
Example robopath_demo :
  Robopath.astar (0, 0) (4, 2) 5 3 {[ (1, 0); (1, 1); (3, 1) ]} 100 =
    Some (Returned (Some [(0, 0); (0, 1); (0, 2); (1, 2); (2, 2); (3, 2); (4, 2)])).
Proof. by vm_compute. Qed.

(** * The pushes and the expansions of the grid search *)

Section ForEachPrefix.
Context {A S : Type} (body : S → A → outcome S).

End ForEachPrefix.

Section GridLog.
Import Robopath GridSpec.
Variables (start goal : Point) (width height : Z) (blocked : gset Point).

Lemma LogInv_init : LogInv start goal width height blocked (init_state start goal).
Proof.
  split; simpl.
  - done.
  - intros p g n [= -> -> ->]%list_elem_of_singleton.
    exists 0. by rewrite lookup_singleton_eq.
  - intros n g [<- <-]%lookup_singleton_Some.
    apply list_elem_of_singleton. by rewrite Z.add_0_l.
  - done.
Qed.

Lemma LogInv_with_heap (st : SearchState) (h : list Entry) :
  LogInv start goal width height blocked st →
  LogInv start goal width height blocked (with_heap h st).
Proof. intros []. by split. Qed.

Lemma LogInv_improved (current nbr : Point) (gc : Z) (st : SearchState) :
  LogInv start goal width height blocked st →
  nbr ∈ neighbors current width height → nbr ∉ blocked →
  gscore st !! current = Some gc →
  (gscore st !! nbr = None ∨ ∃ gn, gscore st !! nbr = Some gn ∧ gc + 1 < gn) →
  LogInv start goal width height blocked (improved goal current nbr gc st).
Proof.
  intros HL Hnbr Hblk Hgc Hold. split; simpl.
  - rewrite lookup_app_l; [apply HL|].
    eapply lookup_lt_Some, (log_first _ _ _ _ _ _ HL).
  - intros p g n [Hin|[= -> -> ->]%list_elem_of_singleton]%elem_of_app.
    + destruct (log_score _ _ _ _ _ _ HL _ _ _ Hin) as (g' & Hg' & Hle).
      destruct (decide (n = nbr)) as [->|Hne].
      * rewrite lookup_insert_eq. exists (gc + 1). split; [done|].
        destruct Hold as [Hn|(gn & Hgn & Hlt)]; [congruence|].
        assert (gn = g') by congruence. lia.
      * rewrite lookup_insert_ne by done. by exists g'.
    + rewrite lookup_insert_eq. by exists (gc + 1).
  - intros n g. destruct (decide (n = nbr)) as [->|Hne].
    + rewrite lookup_insert_eq. intros [= <-]. apply elem_of_app. right.
      by apply list_elem_of_singleton.
    + rewrite lookup_insert_ne by done. intros Hg. apply elem_of_app. left.
      by apply (log_least _ _ _ _ _ _ HL).
  - intros i p g n. rewrite lookup_app_Some.
    intros [Hi|[Hlen Hi]].
    + destruct (log_pred _ _ _ _ _ _ HL _ _ _ _ Hi) as (j & p' & c & Hj & Hc & Hs).
      exists j, p', c. split_and!; [done| |done].
      rewrite lookup_app_l; [done|]. by eapply lookup_lt_Some.
    + apply list_lookup_singleton_Some in Hi as [Hi [= <- <- <-]].
      pose proof (log_least _ _ _ _ _ _ HL _ _ Hgc) as Hin.
      apply list_elem_of_lookup in Hin as [j Hj].
      pose proof (lookup_lt_Some _ _ _ Hj) as Hlt.
      exists j, (gc + manhattan current goal), current. split_and!; [lia| |done].
      rewrite lookup_app_l by done. by replace (gc + 1 - 1) with gc by lia.
Qed.

Lemma relax_LogInv (current nbr : Point) (st st' : SearchState) :
  LogInv start goal width height blocked st →
  nbr ∈ neighbors current width height →
  relax goal blocked current st nbr = Returned st' →
  LogInv start goal width height blocked st'.
Proof.
  intros HL Hnbr Hr.
  destruct (relax_cases _ _ _ _ _ _ Hr) as [[-> _]|(Hb & gc & Hgc & Hold & ->)];
    [done|]. by apply LogInv_improved.
Qed.

Lemma expand_LogInv (current : Point) (st st' : SearchState) :
  LogInv start goal width height blocked st →
  expand goal width height blocked current st = Returned st' →
  LogInv start goal width height blocked st'.
Proof.
  intros HL. unfold expand.
  apply (for_each_ind (relax goal blocked current)
           (λ _ s, LogInv start goal width height blocked s)); [done|].
  intros _ a s1 s2 H1 Ha Hr. by eapply relax_LogInv.
Qed.

Lemma astar_loop_LogInv (fuel : nat) : ∀ st r stf,
  LogInv start goal width height blocked st →
  astar_loop goal width height blocked fuel st = Some (r, stf) →
  LogInv start goal width height blocked stf.
Proof.
  induction fuel as [|fuel IH]; intros st r stf HL; [done|]. simpl.
  destruct (heappop entry_ltb (open_heap st)) as [[[[p g] current] h']|];
    [|by intros [= <- <-]].
  pose proof (LogInv_with_heap st h' HL) as HL'.
  case_bool_decide.
  - destruct (walk fuel _ _ _) as [[path|e]|]; [| |done]; by intros [= <- <-].
  - destruct (expand goal width height blocked current (with_heap h' st))
      as [st''|e] eqn:He; [|by intros [= <- <-]].
    apply IH. by eapply expand_LogInv.
Qed.

Lemma astar_run_LogInv (fuel : nat) r stf :
  astar_run start goal width height blocked fuel = Some (r, stf) →
  LogInv start goal width height blocked stf.
Proof. apply astar_loop_LogInv, LogInv_init. Qed.






Lemma entry_ltb_lex (e1 e2 : Entry) : entry_ltb e1 e2 = true ↔ lex_lt e1 e2.
Proof.
  destruct e1 as [[p1 g1] [x1 y1]], e2 as [[p2 g2] [x2 y2]].
  unfold entry_ltb, point_ltb, lex_lt. simpl. lia.
Qed.

Lemma heappop_lex (h r : list Entry) (m : Entry) :
  heappop entry_ltb h = Some (m, r) → ∀ e, e ∈ h → e = m ∨ lex_lt m e.
Proof.
  intros Hpop e He.
  pose proof (heappop_least entry_ltb entry_ltb_asym entry_ltb_negtrans
                _ _ _ Hpop _ He) as Hle.
  destruct (decide (e = m)) as [|Hne]; [by left|right].
  destruct e as [[p1 g1] [x1 y1]], m as [[p2 g2] [x2 y2]].
  assert (p1 ≠ p2 ∨ g1 ≠ g2 ∨ x1 ≠ x2 ∨ y1 ≠ y2) as Hd.
  { destruct (decide (p1 = p2)) as [->|]; [|by left].
    destruct (decide (g1 = g2)) as [->|]; [|by right; left].
    destruct (decide (x1 = x2)) as [->|]; [|by right; right; left].
    destruct (decide (y1 = y2)) as [->|]; [done|by right; right; right]. }
  unfold entry_ltb, point_ltb in Hle. unfold lex_lt. simpl in *. lia.
Qed.
End GridLog.

Lemma pops_counts (start goal : Z * Z) (st : Robopath.SearchState)
    (e : Robopath.Entry) (h' : list Robopath.Entry) :
  GridSpec.pops (Robopath.init_state start goal) = O ∧
  GridSpec.pops (Robopath.push e st) = GridSpec.pops st ∧
  (heappop Robopath.entry_ltb (Robopath.open_heap st) = Some (e, h') →
   (length (Robopath.open_heap st) ≤ length (Robopath.push_log st))%nat →
   GridSpec.pops (Robopath.with_heap h' st) = S (GridSpec.pops st)).
Proof.
  unfold GridSpec.pops. split_and!.
  - done.
  - simpl. unfold heappush. rewrite !length_app. simpl. lia.
  - intros Hpop%heappop_length Hle. simpl. lia.
Qed.

(** * The claims of the specification *)

(** C1, puzzle part: [solve] stops only when a goal state is popped, yet
    its path need not be shortest.  On [detour_tiles] it returns a path
    of 14 states, that is 13 moves, after 70 expansions, while 11 moves
    reach the goal. *)
Theorem C1_puzzle_path_not_shortest :
  ∃ path,
    Week3.solve_tiles 100 detour_tiles = Some (Returned (true, path, 70)) ∧
    length path = 14%nat ∧
    steps PuzzleSpec.puzzle_step 11 detour_tiles Week3.goal.
Proof.
  remember (Week3.solve_tiles 100 detour_tiles) as r eqn:Hr.
  vm_compute in Hr. subst r. eexists. split; [reflexivity|].
  split; [reflexivity|].
  apply (route_steps detour_route detour_tiles). by vm_compute.
Qed.

(** Optimality of the grid search: for every solvable pair [astar]
    returns a path from start to goal whose number of steps is the
    shortest-path distance. *)
Theorem grid_astar_optimal (start goal : Z * Z) (width height : Z)
    (blocked : gset (Z * Z)) (d : nat) :
  distance (GridSpec.grid_step width height blocked) start goal d →
  ∃ fuel0 path,
    (∀ fuel, (fuel0 ≤ fuel)%nat →
       Robopath.astar start goal width height blocked fuel =
         Some (Returned (Some path))) ∧
    path_from_to (GridSpec.grid_step width height blocked) path start goal ∧
    length path = S d.
Proof.
  intros Hd.
  destruct (astar_shortest start goal width height blocked d Hd)
    as (fuel0 & path & stf & Hall & Hpath & Hlen).
  exists fuel0, path. split_and!; [|done..].
  intros fuel Hfuel. unfold Robopath.astar. by rewrite Hall.
Qed.

Lemma near_tiles_result (fuel : nat) r :
  Week3.solve_tiles fuel near_tiles = Some r →
  r = Returned (true, [PuzzleSpec.fresh near_tiles; near_goal], 2).
Proof.
  intros Hr. eapply (solve_tiles_agree fuel 2 near_tiles); [done|].
  by vm_compute.
Qed.

(** C2, as stated: the reported number of expanded nodes is not 1. *)
Lemma C2_expansions_not_one :
  ¬ ∃ fuel path,
      Week3.solve_tiles fuel near_tiles = Some (Returned (true, path, 1)).
Proof.
  intros (fuel & path & Hr). apply near_tiles_result in Hr. discriminate Hr.
Qed.

(** C2, amended: on [1,2,3,4,5,6,7,0,8] [solve] returns found = true
    with the path of exactly one move, the blank exchanged with tile 8,
    and reports 2 expanded nodes: the initial state and the goal state,
    which is counted when it is popped. *)
Theorem C2_one_move_two_expansions (k : nat) :
  Week3.solve_tiles (2 + k) near_tiles =
    Some (Returned (true, [PuzzleSpec.fresh near_tiles; near_goal], 2)).
Proof.
  apply (solve_tiles_mono 2); [by vm_compute|lia].
Qed.

(** C3, as stated: in a grid search two pushes carry the same tie-break
    key. *)
Lemma C3_grid_keys_repeat :
  ∃ r stf,
    Robopath.astar_run (0, 0) (2, 2) 3 3 ∅ 100 = Some (r, stf) ∧
    ¬ keys_increasing (Robopath.push_log stf).
Proof.
  remember (Robopath.astar_run (0, 0) (2, 2) 3 3 ∅ 100) as x eqn:Hx.
  vm_compute in Hx. subst x. eexists _, _. split; [reflexivity|].
  intros Hk. specialize (Hk 1%nat 2%nat _ _ ltac:(lia) eq_refl eq_refl).
  simpl in Hk. lia.
Qed.

(** C3, amended.  In the puzzle search the tie-break key of the i-th
    push is i, so the keys strictly increase.  In the grid search the
    key is the tentative g-score of the pushed cell: the first push is
    the start with key 0; every later push carries one more than the key
    of an earlier push, made for a cell of which the pushed cell is a
    neighbour that is not blocked; the key is the priority less the
    Manhattan distance to the goal and is never negative; and the score
    that [gscore] holds for a cell when [astar] leaves is the least key
    pushed for it.  Such keys may repeat.  The comparison of the entries
    is the lexicographic order of priority, key and the two coordinates
    of the cell, and [heappop] returns the entry that is least in it:
    entries equal in priority and key are taken in the order of their
    cells. *)
Theorem C3_tie_break_keys :
  (∀ (ts : list Z) sv (fuel : nat) r stf,
     Week3.init ts = Returned sv →
     Week3.solve_run fuel sv = Some (r, stf) →
     keys_increasing (Week3.push_log stf) ∧
     ∀ (i : nat) e, Week3.push_log stf !! i = Some e → e.1.2 = Z.of_nat i) ∧
  (∀ (start goal : Z * Z) width height blocked (fuel : nat) r stf,
     Robopath.astar_run start goal width height blocked fuel = Some (r, stf) →
     Robopath.push_log stf !! O = Some (Robopath.manhattan start goal, 0, start) ∧
     (∀ (i : nat) p g n, Robopath.push_log stf !! S i = Some (p, g, n) →
        ∃ (j : nat) p' c, (j ≤ i)%nat ∧
          Robopath.push_log stf !! j = Some (p', g - 1, c) ∧
          n ∈ Robopath.neighbors c width height ∧ n ∉ blocked) ∧
     (∀ p g n, (p, g, n) ∈ Robopath.push_log stf →
        g = p - Robopath.manhattan n goal ∧ 0 ≤ g ∧
        ∃ g', Robopath.gscore stf !! n = Some g' ∧ g' ≤ g) ∧
     (∀ n g, Robopath.gscore stf !! n = Some g →
        (g + Robopath.manhattan n goal, g, n) ∈ Robopath.push_log stf)) ∧
  (∀ e1 e2, Robopath.entry_ltb e1 e2 = true ↔ GridSpec.lex_lt e1 e2) ∧
  (∀ (h : list Robopath.Entry) m r,
     heappop Robopath.entry_ltb h = Some (m, r) →
     ∀ e, e ∈ h → e = m ∨ GridSpec.lex_lt m e).
Proof.
  split_and!.
  - intros ts sv fuel r stf Hinit Hrun.
    destruct (solve_run_post _ _ _ _ _ Hinit Hrun) as [_ HI].
    split; [|apply HI].
    intros i j e1 e2 Hij H1 H2.
    rewrite (PuzzleSpec.pinv_log _ _ HI _ _ H1), (PuzzleSpec.pinv_log _ _ HI _ _ H2).
    lia.
  - intros start goal width height blocked fuel r stf Hrun.
    destruct (astar_run_post _ _ _ _ _ _ _ _ Hrun) as [_ HI].
    pose proof (astar_run_LogInv _ _ _ _ _ _ _ _ Hrun) as HL.
    split_and!.
    + apply HL.
    + apply (GridSpec.log_pred _ _ _ _ _ _ HL).
    + intros p g n Hin.
      pose proof (GridSpec.log_score _ _ _ _ _ _ HL _ _ _ Hin) as Hs.
      destruct (GridSpec.inv_log_ok _ _ _ _ _ _ HI _ _ _ Hin) as (-> & ? & _).
      split_and!; [lia|done|done].
    + apply (GridSpec.log_least _ _ _ _ _ _ HL).
  - apply entry_ltb_lex.
  - intros h m r. apply heappop_lex.
Qed.

Lemma C3_tie_break_keys_witness :
  (∃ sv r stf,
     Week3.init near_tiles = Returned sv ∧
     Week3.solve_run 2 sv = Some (r, stf) ∧
     keys_increasing (Week3.push_log stf)) ∧
  (∃ r stf,
     Robopath.astar_run (0, 0) (2, 2) 3 3 ∅ 100 = Some (r, stf) ∧
     Robopath.push_log stf !! O = Some (Robopath.manhattan (0, 0) (2, 2), 0, (0, 0)) ∧
     (∀ p g n, (p, g, n) ∈ Robopath.push_log stf →
        g = p - Robopath.manhattan n (2, 2) ∧ 0 ≤ g ∧
        ∃ g', Robopath.gscore stf !! n = Some g' ∧ g' ≤ g)) ∧
  (∀ e, e ∈ [(4, 1, (1, 0)); (4, 1, (0, 1))] →
     e = (4, 1, (0, 1)) ∨ GridSpec.lex_lt (4, 1, (0, 1)) e).
Proof.
  split_and!.
  - destruct (Week3.init near_tiles) as [sv|] eqn:Hinit; [|by vm_compute in Hinit].
    destruct (Week3.solve_run 2 sv) as [[r stf]|] eqn:Hrun.
    2: { vm_compute in Hinit. injection Hinit as <-. by vm_compute in Hrun. }
    exists sv, r, stf. split_and!; [done..|].
    exact (proj1 (proj1 C3_tie_break_keys near_tiles sv 2%nat r stf Hinit Hrun)).
  - destruct (Robopath.astar_run (0, 0) (2, 2) 3 3 ∅ 100) as [[r stf]|] eqn:Hgrid;
      [|by vm_compute in Hgrid].
    exists r, stf. split; [done|].
    pose proof (proj1 (proj2 C3_tie_break_keys) (0, 0) (2, 2) 3 3 ∅ 100%nat r stf Hgrid)
      as (H0 & _ & Hk & _).
    by split.
  - exact (proj2 (proj2 (proj2 C3_tie_break_keys))
             [(4, 1, (1, 0)); (4, 1, (0, 1))] (4, 1, (0, 1)) [(4, 1, (1, 0))]
             eq_refl).
Defined.

(** C4, as stated: the grid search for a goal that is the start takes
    one entry from its frontier, which is one expansion by the count of
    the puzzle search, not none. *)
Lemma C4_grid_one_pop :
  ∃ stf,
    Robopath.astar_run (0, 0) (0, 0) 1 1 ∅ 2 =
      Some (Returned (Some [(0, 0)]), stf) ∧
    GridSpec.pops stf = 1%nat.
Proof. eexists. split; reflexivity. Qed.

(** C4, amended: a search whose start is its goal returns the path that
    holds this one state.  [solve] returns it before its loop, with
    found = true and the count 0, and leaves the solver as it was.
    [astar], which has neither a flag nor a count, returns it in the
    first pass of its loop: it has pushed the start, with priority and
    key 0, and has popped it, and has generated and scored no other
    cell. *)
Theorem C4_start_is_goal :
  (∀ (s : Z * Z) (width height : Z) (blocked : gset (Z * Z)) (k : nat),
     ∃ stf,
       Robopath.astar_run s s width height blocked (S (S k)) =
         Some (Returned (Some [s]), stf) ∧
       Robopath.push_log stf = [(0, 0, s)] ∧
       Robopath.open_heap stf = [] ∧
       GridSpec.pops stf = 1%nat ∧
       Robopath.gscore stf = {[ s := 0 ]} ∧
       Robopath.came_from stf = {[ s := None ]}) ∧
  (∀ (ts : list Z) sv (fuel : nat),
     Week3.init ts = Returned sv → ts = Week3.goal →
     Week3.solve_run fuel sv =
       Some (Returned (true, [Week3.initial_state sv], 0),
             Week3.empty_search sv)).
Proof.
  split.
  - intros s width height blocked k. eexists. split; [apply astar_run_same|].
    unfold GridSpec.pops. simpl. rewrite manhattan_self. by split_and!.
  - intros ts sv fuel Hinit ->.
    apply init_Returned in Hinit as [_ ->]. reflexivity.
Qed.

Lemma C4_start_is_goal_witness :
  (∃ stf,
     Robopath.astar_run (1, 2) (1, 2) 3 3 {[ (1, 2) ]} 2 =
       Some (Returned (Some [(1, 2)]), stf) ∧
     Robopath.push_log stf = [(0, 0, (1, 2))] ∧
     Robopath.open_heap stf = [] ∧
     GridSpec.pops stf = 1%nat) ∧
  ∃ sv, Week3.init Week3.goal = Returned sv ∧
        Week3.solve_run 0 sv =
          Some (Returned (true, [Week3.initial_state sv], 0),
                Week3.empty_search sv).
Proof.
  split.
  - destruct (proj1 C4_start_is_goal (1, 2) 3 3 {[ (1, 2) ]} O)
      as (stf & Hrun & Hlog & Hheap & Hpops & _).
    by exists stf.
  - destruct (Week3.init Week3.goal) as [sv|] eqn:Hinit; [|by vm_compute in Hinit].
    exists sv. split; [done|].
    exact (proj2 C4_start_is_goal Week3.goal sv O Hinit eq_refl).
Defined.

(** C5: both heuristics return a non-negative integer that is 0 at the
    goal and never exceeds the number of moves of any route to the goal,
    hence not the least number either. *)
Theorem C5_heuristic_admissible :
  (∀ (width height : Z) (blocked : gset (Z * Z)) (a b : Z * Z),
     0 ≤ Robopath.manhattan a b ∧ Robopath.manhattan a a = 0 ∧
     ∀ n, steps (GridSpec.grid_step width height blocked) n a b →
          Robopath.manhattan a b ≤ Z.of_nat n) ∧
  (∀ s : Week3.PuzzleState,
     PuzzleSpec.valid_tiles (Week3.tiles s) →
     ∃ h, Week3.heuristic s = Returned h ∧ 0 ≤ h ∧
          (Week3.tiles s = Week3.goal → h = 0) ∧
          ∀ n, steps PuzzleSpec.puzzle_step n (Week3.tiles s) Week3.goal →
               h ≤ Z.of_nat n).
Proof.
  split.
  - intros width height blocked a b. split_and!.
    + apply manhattan_nonneg.
    + apply manhattan_self.
    + intros n. apply manhattan_steps.
  - intros s Hv. exists (PuzzleSpec.h_total (Week3.tiles s)). split_and!.
    + by apply heuristic_valid.
    + apply h_total_nonneg.
    + by intros ->.
    + intros n. by apply h_total_steps.
Qed.

Lemma C5_heuristic_admissible_witness :
  PuzzleSpec.valid_tiles near_tiles ∧
  ∃ h, Week3.heuristic (PuzzleSpec.fresh near_tiles) = Returned h ∧ 0 ≤ h ∧
       (near_tiles = Week3.goal → h = 0) ∧
       ∀ n, steps PuzzleSpec.puzzle_step n near_tiles Week3.goal → h ≤ Z.of_nat n.
Proof.
  assert (PuzzleSpec.valid_tiles near_tiles) as Hv
    by (apply sorted_range9; vm_compute; reflexivity).
  split; [exact Hv|].
  exact (proj2 C5_heuristic_admissible (PuzzleSpec.fresh near_tiles) Hv).
Defined.




Lemma walled_off (n : nat) :
  ¬ steps (GridSpec.grid_step 3 1 {[ (1, 0) ]}) n (0, 0) (2, 0).
Proof.
  intros Hs. inversion Hs as [|? ? b ? [Hb Hnb] _]; subst.
  vm_compute in Hb. apply list_elem_of_singleton in Hb as ->.
  apply Hnb. by apply elem_of_singleton.
Qed.

(** C7: when the goal cannot be reached, the search ends, without an
    exception, by exhausting its frontier: [astar] returns its no-path
    result, [solve] returns found = false with the empty path. *)
Theorem C7_unreachable_goal :
  (∀ (start goal : Z * Z) (width height : Z) (blocked : gset (Z * Z)),
     (∀ n, ¬ steps (GridSpec.grid_step width height blocked) n start goal) →
     ∃ fuel0 stf, ∀ fuel, (fuel0 ≤ fuel)%nat →
       Robopath.astar_run start goal width height blocked fuel =
         Some (Returned None, stf) ∧
       Robopath.open_heap stf = []) ∧
  (∀ (ts : list Z) sv,
     Week3.init ts = Returned sv →
     (∀ n, ¬ steps PuzzleSpec.puzzle_step n ts Week3.goal) →
     ∃ fuel0 n_exp stf, ∀ fuel, (fuel0 ≤ fuel)%nat →
       Week3.solve_run fuel sv = Some (Returned (false, [], n_exp), stf) ∧
       Week3.open_set stf = []).
Proof.
  split.
  - intros start goal width height blocked Hno.
    destruct (astar_unreachable _ _ _ _ _ Hno) as (fuel0 & stf & Hall).
    exists fuel0, stf. intros fuel Hfuel. split; [by apply Hall|].
    by eapply astar_run_None_heap, (Hall fuel0).
  - intros ts sv Hinit Hno.
    destruct (solve_unreachable _ _ Hinit Hno) as (fuel0 & n_exp & stf & Hall).
    exists fuel0, n_exp, stf. intros fuel Hfuel. split; [by apply Hall|].
    by eapply solve_run_false_open, (Hall fuel0).
Qed.

Lemma C7_unreachable_goal_witness :
  (∃ fuel0 stf, ∀ fuel, (fuel0 ≤ fuel)%nat →
     Robopath.astar_run (0, 0) (2, 0) 3 1 {[ (1, 0) ]} fuel =
       Some (Returned None, stf) ∧
     Robopath.open_heap stf = []) ∧
  (∃ sv, Week3.init [1; 2; 3; 4; 5; 6; 8; 7; 0] = Returned sv ∧
     ∃ fuel0 n_exp stf, ∀ fuel, (fuel0 ≤ fuel)%nat →
       Week3.solve_run fuel sv = Some (Returned (false, [], n_exp), stf) ∧
       Week3.open_set stf = []).
Proof.
  split.
  - exact (proj1 C7_unreachable_goal (0, 0) (2, 0) 3 1 {[ (1, 0) ]} walled_off).
  - destruct (Week3.init [1; 2; 3; 4; 5; 6; 8; 7; 0]) as [sv|] eqn:Hinit;
      [|by vm_compute in Hinit].
    exists sv. split; [done|].
    exact (proj2 C7_unreachable_goal [1; 2; 3; 4; 5; 6; 8; 7; 0] sv Hinit
             unsolvable_7_8).
Defined.



(** C9: the constructor raises [ValueError], and so no state is built
    and no search begins, exactly when the list has not 9 elements or
    is not a permutation of 0..8; on every permutation of 0..8 it
    returns the solver with the given tiles as initial state. *)
Theorem C9_constructor_validates (initial_tiles : list Z) :
  (length initial_tiles ≠ 9%nat ∨ ¬ initial_tiles ≡ₚ Week3.range9 →
   Week3.init initial_tiles = Raised ValueError ∧
   ∀ fuel, Week3.solve_tiles fuel initial_tiles = Some (Raised ValueError)) ∧
  (initial_tiles ≡ₚ Week3.range9 →
   Week3.init initial_tiles =
     Returned {| Week3.initial_state :=
                   {| Week3.tiles := initial_tiles; Week3.moves := 0;
                      Week3.parent := None;
                      Week3.move_description := ""%string |};
                 Week3.goal_state :=
                   {| Week3.tiles := Week3.goal; Week3.moves := 0;
                      Week3.parent := None;
                      Week3.move_description := ""%string |};
                 Week3.explored := ∅;
                 Week3.nodes_expanded := 0 |}).
Proof.
  split.
  - intros Hbad.
    assert (¬ PuzzleSpec.valid_tiles initial_tiles) as Hv.
    { intros Hv. destruct Hbad as [Hlen|Hp]; [|done].
      by rewrite (valid_length _ Hv) in Hlen. }
    pose proof (init_invalid_tiles _ Hv) as Hinit. split; [done|].
    intros fuel. unfold Week3.solve_tiles. by rewrite Hinit.
  - apply init_valid_tiles.
Qed.

Lemma C9_constructor_validates_witness :
  (Week3.init [1; 2; 3] = Raised ValueError ∧
   ∀ fuel, Week3.solve_tiles fuel [1; 2; 3] = Some (Raised ValueError)) ∧
  ∃ sv, Week3.init Week3.range9 = Returned sv.
Proof.
  split.
  - apply (proj1 (C9_constructor_validates [1; 2; 3])). left. simpl. lia.
  - eexists. apply (proj2 (C9_constructor_validates Week3.range9)). reflexivity.
Defined.

(** C10: [astar] never looks up the start or the goal in the blocked
    set.  With start equal to goal it returns the path of that one
    cell, blocked or not; with a blocked goal other than the start it
    ends with its no-path result, since a blocked cell is never a
    successor. *)
Theorem C10_blocked_endpoints :
  (∀ (s : Z * Z) (width height : Z) (blocked : gset (Z * Z)) (k : nat),
     Robopath.astar s s width height blocked (S (S k)) =
       Some (Returned (Some [s]))) ∧
  (∀ (start goal : Z * Z) (width height : Z) (blocked : gset (Z * Z)),
     goal ∈ blocked → start ≠ goal →
     ∃ fuel0, ∀ fuel, (fuel0 ≤ fuel)%nat →
       Robopath.astar start goal width height blocked fuel =
         Some (Returned None)).
Proof.
  split.
  - intros s width height blocked k. unfold Robopath.astar.
    by rewrite astar_run_same.
  - intros start goal width height blocked Hb Hne.
    destruct (astar_unreachable start goal width height blocked)
      as (fuel0 & stf & Hall).
    { intros n. by apply grid_step_blocked_goal. }
    exists fuel0. intros fuel Hfuel. unfold Robopath.astar. by rewrite Hall.
Qed.

Lemma C10_blocked_endpoints_witness :
  Robopath.astar (1, 1) (1, 1) 3 3 {[ (1, 1) ]} 2 = Some (Returned (Some [(1, 1)])) ∧
  ∃ fuel0, ∀ fuel, (fuel0 ≤ fuel)%nat →
    Robopath.astar (0, 0) (1, 1) 3 3 {[ (1, 1) ]} fuel = Some (Returned None).
Proof.
  split.
  - exact (proj1 C10_blocked_endpoints (1, 1) 3 3 {[ (1, 1) ]} O).
  - apply (proj2 C10_blocked_endpoints (0, 0) (1, 1) 3 3 {[ (1, 1) ]}).
    + by apply elem_of_singleton.
    + discriminate.
Defined.

(** * Further properties of the grid search *)

Section ShortestPaths.
Context {A : Type} `{!EqDecision A} (R : A → A → Prop).

Lemma chained_app_l (l1 l2 : list A) : chained R (l1 ++ l2) → chained R l1.
Proof.
  induction l1 as [|a l1 IH]; [done|].
  destruct l1 as [|b l1]; [done|]. simpl. intros [Hab Hc]. split; [done|].
  by apply IH.
Qed.

Lemma chained_app_r (l1 l2 : list A) : chained R (l1 ++ l2) → chained R l2.
Proof.
  induction l1 as [|a l1 IH]; [done|]. intros Hc. apply IH.
  simpl in Hc. destruct (l1 ++ l2); [done|]. by destruct Hc.
Qed.

Lemma chained_join (l1 l2 : list A) (x : A) :
  chained R (l1 ++ [x]) → chained R (x :: l2) → chained R (l1 ++ x :: l2).
Proof.
  induction l1 as [|a l1 IH]; [done|].
  intros H1 H2. specialize (IH (chained_app_r [a] _ H1) H2).
  destruct l1 as [|b l1]; simpl in *; [by destruct H1|].
  destruct H1 as [Hab _]. done.
Qed.

Lemma not_NoDup_split (l : list A) :
  ¬ NoDup l → ∃ l1 x l2 l3, l = l1 ++ x :: l2 ++ x :: l3.
Proof using Type*.
  induction l as [|a l IH]; intros Hnd; [by destruct Hnd; constructor|].
  destruct (decide (a ∈ l)) as [Hin|Hnin].
  - apply list_elem_of_split in Hin as (l2 & l3 & ->). by exists [], a, l2, l3.
  - destruct IH as (l1 & x & l2 & l3 & ->).
    { intros Hl. apply Hnd. by constructor. }
    by exists (a :: l1), x, l2, l3.
Qed.

(** A path that meets a state twice can be cut short. *)
Lemma path_shortcut (l : list A) (a b : A) :
  path_from_to R l a b → ¬ NoDup l →
  ∃ l', path_from_to R l' a b ∧ (length l' < length l)%nat.
Proof using Type*.
  intros (Hh & Hl & Hc) (l1 & x & l2 & l3 & ->)%not_NoDup_split.
  exists (l1 ++ x :: l3). unfold path_from_to. split_and!.
  - by destruct l1.
  - rewrite !last_app_cons, app_comm_cons, last_app_cons in Hl.
    by rewrite last_app_cons.
  - apply chained_join.
    + rewrite (cons_middle x l1) , app_assoc in Hc. by apply chained_app_l in Hc.
    + rewrite app_comm_cons, app_assoc in Hc. by apply chained_app_r in Hc.
  - rewrite !length_app. simpl. rewrite length_app. simpl. lia.
Qed.

(** A path that no route undercuts meets no state twice. *)
Lemma shortest_path_NoDup (l : list A) (a b : A) :
  path_from_to R l a b →
  (∀ n, steps R n a b → (length l ≤ S n)%nat) → NoDup l.
Proof using Type*.
  intros Hpath Hmin. destruct (decide (NoDup l)) as [|Hnd]; [done|].
  destruct (path_shortcut l a b Hpath Hnd) as (l' & Hpath' & Hlen).
  pose proof (path_steps R l' a b Hpath') as Hs. apply Hmin in Hs.
  destruct l' as [|x l']; [by destruct Hpath'|]. simpl in *. lia.
Qed.
End ShortestPaths.

Section GridMore.
Import Robopath GridSpec.
Variables (width height : Z) (blocked : gset Point).

Abbreviation grid_step := (grid_step width height blocked).
Abbreviation in_bounds := (in_bounds width height).

Lemma astar_Some_run (start goal : Point) (fuel : nat) r :
  astar start goal width height blocked fuel = Some r →
  ∃ stf, astar_run start goal width height blocked fuel = Some (r, stf).
Proof.
  unfold astar. destruct (astar_run _ _ _ _ _ _) as [[r' stf]|]; [|done].
  intros [= <-]. by exists stf.
Qed.

Lemma grid_step_in_bounds (p q : Point) : in_bounds p → grid_step p q → in_bounds q.
Proof. intros Hp [Hq _]. by apply (neighbors_in_bounds _ _ p q Hp). Qed.

Lemma steps_in_bounds (n : nat) (a b : Point) :
  in_bounds a → steps grid_step n a b → in_bounds b.
Proof.
  intros Ha Hs. induction Hs as [|n a b c Hab _ IH]; [done|].
  by eapply IH, grid_step_in_bounds.
Qed.

(** Inside the grid a step can be taken back, unless it left a blocked
    cell. *)
Lemma grid_step_sym (p q : Point) :
  in_bounds p → p ∉ blocked → grid_step p q → grid_step q p.
Proof.
  intros Hp Hb [Hq Hqb].
  apply (neighbors_in_bounds _ _ p q Hp) in Hq as [Hadj Hqin].
  split; [|done]. apply (neighbors_in_bounds _ _ q p Hqin). split; [|done].
  unfold adjacent4 in *. lia.
Qed.

Lemma steps_reverse (n : nat) (a b : Point) :
  in_bounds a → a ∉ blocked → steps grid_step n a b → steps grid_step n b a.
Proof.
  intros Ha Hb Hs. induction Hs as [|n a b c Hab _ IH]; [constructor|].
  eapply steps_snoc; [|by apply grid_step_sym].
  apply IH; [by eapply grid_step_in_bounds|by destruct Hab].
Qed.

Lemma steps_target (n : nat) (a b : Point) :
  in_bounds a → a ∉ blocked → steps grid_step n a b → in_bounds b ∧ b ∉ blocked.
Proof.
  intros Ha Hb Hs. induction Hs as [|n a b c Hab _ IH]; [done|].
  apply IH; [by eapply grid_step_in_bounds|by destruct Hab].
Qed.

Lemma distance_sym (a b : Point) (d : nat) :
  in_bounds a → a ∉ blocked → distance grid_step a b d → distance grid_step b a d.
Proof.
  intros Ha Hb [Hd Hmin]. destruct (steps_target _ _ _ Ha Hb Hd) as [Hbin Hbb].
  split; [by apply steps_reverse|].
  intros n Hn. by apply Hmin, steps_reverse.
Qed.
End GridMore.

Section OpenGrid.
Import Robopath GridSpec.
Variables (width height : Z).

(** Without blocked cells, a route of Manhattan length leads from any
    cell of the grid to any other. *)
Lemma manhattan_route (k : nat) :
  ∀ a b : Point,
    in_bounds width height a → in_bounds width height b →
    Z.to_nat (manhattan a b) = k →
    steps (grid_step width height ∅) k a b.
Proof.
  induction k as [|k IH]; intros [x y] [u v] Ha Hb Hk.
  - assert ((x, y) = (u, v)) as ->; [|constructor].
    apply manhattan_zero. pose proof (manhattan_nonneg (x, y) (u, v)). lia.
  - unfold in_bounds, manhattan in *. simpl in *.
    assert (x < u ∨ x > u ∨ (x = u ∧ y < v) ∨ (x = u ∧ y > v)) as Hcase by lia.
    assert (∀ q : Point, q ∈ neighbors (x, y) width height →
              Z.to_nat (manhattan q (u, v)) = k → in_bounds width height q →
              steps (grid_step width height ∅) (S k) (x, y) (u, v)) as Hgo.
    { intros q Hq Hqk Hqin. econstructor; [split; [done|set_solver]|].
      by apply IH. }
    destruct Hcase as [?|[?|[[-> ?]|[-> ?]]]].
    + apply (Hgo (x + 1, y)); unfold in_bounds, manhattan; simpl; [|lia..].
      apply elem_of_neighbors. right; left. split; [done|lia].
    + apply (Hgo (x - 1, y)); unfold in_bounds, manhattan; simpl; [|lia..].
      apply elem_of_neighbors. left. split; [done|lia].
    + apply (Hgo (u, y + 1)); unfold in_bounds, manhattan; simpl; [|lia..].
      apply elem_of_neighbors. do 3 right. split; [done|lia].
    + apply (Hgo (u, y - 1)); unfold in_bounds, manhattan; simpl; [|lia..].
      apply elem_of_neighbors. right; right; left. split; [done|lia].
Qed.

Lemma open_grid_distance (a b : Point) :
  in_bounds width height a → in_bounds width height b →
  distance (grid_step width height ∅) a b (Z.to_nat (manhattan a b)).
Proof.
  intros Ha Hb. split; [by apply manhattan_route|].
  intros n Hn. apply manhattan_steps in Hn. lia.
Qed.
End OpenGrid.

Lemma grid_astar_optimal_witness :
  distance (GridSpec.grid_step 2 1 ∅) (0, 0) (1, 0) 1 ∧
  ∃ fuel0 path,
    (∀ fuel, (fuel0 ≤ fuel)%nat →
       Robopath.astar (0, 0) (1, 0) 2 1 ∅ fuel = Some (Returned (Some path))) ∧
    path_from_to (GridSpec.grid_step 2 1 ∅) path (0, 0) (1, 0) ∧
    length path = 2%nat.
Proof.
  assert (distance (GridSpec.grid_step 2 1 ∅) (0, 0) (1, 0) 1) as Hd.
  { apply (open_grid_distance 2 1 (0, 0) (1, 0));
      unfold GridSpec.in_bounds; simpl; lia. }
  split; [exact Hd|].
  exact (grid_astar_optimal (0, 0) (1, 0) 2 1 ∅ 1 Hd).
Defined.

(** [astar] ends on every input, whatever the cells, the sizes and the
    blocked set, without an exception, and its result is the no-path
    result exactly when no route leads from the start to the goal. *)
Theorem astar_decides_reachability (start goal : Z * Z) (width height : Z)
    (blocked : gset (Z * Z)) :
  ∃ fuel0 r,
    (∀ fuel, (fuel0 ≤ fuel)%nat →
       Robopath.astar start goal width height blocked fuel = Some (Returned r)) ∧
    (r = None ↔ ∀ n, ¬ steps (GridSpec.grid_step width height blocked) n start goal).
Proof.
  destruct (astar_run_total start goal width height blocked)
    as (fuel0 & r & stf & Hall & Hpost & _).
  destruct r as [r|e]; [|done]. exists fuel0, r. split.
  - intros fuel Hfuel. unfold Robopath.astar. by rewrite Hall.
  - destruct r as [path|]; simpl in Hpost.
    + split; [done|]. intros Hno. destruct Hpost as [Hpath _].
      by apply path_steps, Hno in Hpath.
    + done.
Qed.

(** A path that [astar] returns meets no cell twice and has more cells
    than the Manhattan distance from the start to the goal. *)
Theorem astar_path_simple (start goal : Z * Z) (width height : Z)
    (blocked : gset (Z * Z)) (fuel : nat) (path : list (Z * Z)) :
  Robopath.astar start goal width height blocked fuel = Some (Returned (Some path)) →
  NoDup path ∧ Robopath.manhattan start goal < Z.of_nat (length path).
Proof.
  intros (stf & Hrun)%astar_Some_run.
  destruct (astar_run_post _ _ _ _ _ _ _ _ Hrun) as [[Hpath Hmin] _]. split.
  - by eapply shortest_path_NoDup.
  - pose proof (path_steps _ _ _ _ Hpath) as Hs.
    apply manhattan_steps in Hs.
    destruct path; [by destruct Hpath|]. simpl in *. lia.
Qed.

Lemma astar_path_simple_witness :
  ∃ path,
    Robopath.astar (0, 0) (4, 2) 5 3 {[ (1, 0); (1, 1); (3, 1) ]} 100 =
      Some (Returned (Some path)) ∧
    NoDup path ∧ Robopath.manhattan (0, 0) (4, 2) < Z.of_nat (length path).
Proof.
  eexists. split; [exact robopath_demo|].
  exact (astar_path_simple (0, 0) (4, 2) 5 3 {[ (1, 0); (1, 1); (3, 1) ]} 100 _
           robopath_demo).
Defined.

(** From a start inside the grid a goal outside of it is never reached:
    [astar] ends with its no-path result. *)
Theorem astar_goal_outside (start goal : Z * Z) (width height : Z)
    (blocked : gset (Z * Z)) :
  GridSpec.in_bounds width height start → ¬ GridSpec.in_bounds width height goal →
  ∃ fuel0, ∀ fuel, (fuel0 ≤ fuel)%nat →
    Robopath.astar start goal width height blocked fuel = Some (Returned None).
Proof.
  intros Hs Hg.
  destruct (astar_unreachable start goal width height blocked) as (fuel0 & stf & Hall).
  { intros n Hn. by apply Hg, (steps_in_bounds width height blocked n start goal). }
  exists fuel0. intros fuel Hfuel. unfold Robopath.astar. by rewrite Hall.
Qed.

Lemma astar_goal_outside_witness :
  ∃ fuel0, ∀ fuel, (fuel0 ≤ fuel)%nat →
    Robopath.astar (0, 0) (5, 0) 5 3 ∅ fuel = Some (Returned None).
Proof.
  apply (astar_goal_outside (0, 0) (5, 0) 5 3 ∅);
    unfold GridSpec.in_bounds; simpl; lia.
Defined.

(** With the start inside the grid and not blocked, the search from the
    goal back to the start succeeds whenever the search from the start to
    the goal does, with a path of the same number of cells. *)
Theorem astar_symmetric (start goal : Z * Z) (width height : Z)
    (blocked : gset (Z * Z)) (fuel : nat) (path : list (Z * Z)) :
  GridSpec.in_bounds width height start → start ∉ blocked →
  Robopath.astar start goal width height blocked fuel = Some (Returned (Some path)) →
  ∃ fuel0 path',
    (∀ fuel', (fuel0 ≤ fuel')%nat →
       Robopath.astar goal start width height blocked fuel' =
         Some (Returned (Some path'))) ∧
    length path' = length path.
Proof.
  intros Hs Hb (stf & Hrun)%astar_Some_run.
  destruct (astar_run_post _ _ _ _ _ _ _ _ Hrun) as [[Hpath Hmin] _].
  assert (distance (GridSpec.grid_step width height blocked) start goal
            (pred (length path))) as Hd.
  { split; [by apply path_steps|]. intros n Hn. apply Hmin in Hn. lia. }
  apply distance_sym in Hd; [|done..].
  destruct (astar_shortest goal start width height blocked _ Hd)
    as (fuel0 & path' & stf' & Hall & _ & Hlen).
  exists fuel0, path'. split.
  - intros fuel' Hfuel'. unfold Robopath.astar. by rewrite Hall.
  - destruct path; [by destruct Hpath|]. simpl in *. lia.
Qed.

Lemma astar_symmetric_witness :
  ∃ fuel0 path',
    (∀ fuel', (fuel0 ≤ fuel')%nat →
       Robopath.astar (4, 2) (0, 0) 5 3 {[ (1, 0); (1, 1); (3, 1) ]} fuel' =
         Some (Returned (Some path'))) ∧
    length path' = 7%nat.
Proof.
  apply (astar_symmetric (0, 0) (4, 2) 5 3 {[ (1, 0); (1, 1); (3, 1) ]} 100
           [(0, 0); (0, 1); (0, 2); (1, 2); (2, 2); (3, 2); (4, 2)]).
  - unfold GridSpec.in_bounds. simpl. lia.
  - vm_compute. discriminate.
  - exact robopath_demo.
Defined.

(** On a grid without blocked cells [astar] returns, for any two cells
    of the grid, a path of one cell more than their Manhattan distance. *)
Theorem astar_open_grid (start goal : Z * Z) (width height : Z) :
  GridSpec.in_bounds width height start → GridSpec.in_bounds width height goal →
  ∃ fuel0 path,
    (∀ fuel, (fuel0 ≤ fuel)%nat →
       Robopath.astar start goal width height ∅ fuel = Some (Returned (Some path))) ∧
    Z.of_nat (length path) = Robopath.manhattan start goal + 1.
Proof.
  intros Hs Hg.
  destruct (astar_shortest start goal width height ∅ _
              (open_grid_distance width height start goal Hs Hg))
    as (fuel0 & path & stf & Hall & _ & Hlen).
  exists fuel0, path. split.
  - intros fuel Hfuel. unfold Robopath.astar. by rewrite Hall.
  - pose proof (manhattan_nonneg start goal). lia.
Qed.

Lemma astar_open_grid_witness :
  ∃ fuel0 path,
    (∀ fuel, (fuel0 ≤ fuel)%nat →
       Robopath.astar (0, 0) (2, 1) 3 2 ∅ fuel = Some (Returned (Some path))) ∧
    Z.of_nat (length path) = Robopath.manhattan (0, 0) (2, 1) + 1.
Proof.
  apply (astar_open_grid (0, 0) (2, 1) 3 2); unfold GridSpec.in_bounds; simpl; lia.
Defined.

Example main_demo :
  RobopathMain.main (λ _, None) 100 [] =
    Some (Returned ["S # . . ."; "* # . # ."; "* * * * G";
                    "Path: [(0, 0), (0, 1), (0, 2), (1, 2), (2, 2), (3, 2), (4, 2)]"]%string).
Proof. by vm_compute. Qed.

(** * The printed grid *)

Section PrintGrid.
Import Robopath RobopathMain.

Lemma cell_single (blocked path_set : gset Point) (start goal p : Point) :
  ∃ c, cell blocked path_set start goal p = String c EmptyString.
Proof. unfold cell. repeat case_bool_decide; by eexists. Qed.

Lemma concat_single_length (row : list string) :
  Forall (λ s, ∃ c, s = String c EmptyString) row →
  String.length (String.concat " "%string row) = (2 * length row - 1)%nat.
Proof.
  induction 1 as [|s row [c ->] _ IH]; [done|].
  destruct row as [|s' row]; [done|].
  change (String.concat " "%string (String c ""%string :: s' :: row))
    with (String c (String " "%char (String.concat " "%string (s' :: row)))).
  set (rest := String.concat " "%string (s' :: row)) in *.
  cbn [String.length]. rewrite IH. simpl. lia.
Qed.

Lemma concat_single_get (row : list string) (i : nat) (s : string) :
  Forall (λ s, ∃ c, s = String c EmptyString) row →
  row !! i = Some s →
  String.get (2 * i) (String.concat " "%string row) = String.get 0 s.
Proof.
  intros Hrow. revert i. induction Hrow as [|s0 row [c ->] _ IH]; intros i; [done|].
  destruct row as [|s' row].
  - destruct i as [|i]; [by intros [= <-]|done].
  - change (String.concat " "%string (String c ""%string :: s' :: row))
      with (String c (String " "%char (String.concat " "%string (s' :: row)))).
    set (rest := String.concat " "%string (s' :: row)) in *.
    destruct i as [|i]; [by intros [= <-]|]. intros Hi.
    replace (2 * S i)%nat with (S (S (2 * i))) by lia. cbn [String.get].
    by apply IH.
Qed.

Lemma range_length (n : Z) : length (range n) = Z.to_nat n.
Proof. apply length_seqZ. Qed.

Lemma range_lookup (n i : Z) : 0 ≤ i < n → range n !! Z.to_nat i = Some i.
Proof.
  intros Hi. unfold range. rewrite lookup_seqZ. split; lia.
Qed.

Lemma print_grid_rows (width height : Z) blocked path start goal :
  Forall (λ s, ∃ c, s = String c EmptyString)
    ((λ x, cell blocked path start goal (x, height)) <$> range width).
Proof.
  apply Forall_fmap, Forall_forall. intros x _. apply cell_single.
Qed.

Lemma print_grid_length (width height : Z) blocked path start goal :
  length (print_grid width height blocked path start goal) = Z.to_nat height.
Proof. unfold print_grid. by rewrite length_fmap, range_length. Qed.

Lemma print_grid_char (width height : Z) (blocked : gset (Z * Z))
    (path : option (list (Z * Z))) (start goal p : Z * Z) :
  GridSpec.in_bounds width height p →
  shown (print_grid width height blocked path start goal) p =
    Some (if bool_decide (p = start) then "S"
          else if bool_decide (p = goal) then "G"
          else if bool_decide (p ∈ default [] path) then "*"
          else if bool_decide (p ∈ blocked) then "#"
          else ".")%char.
Proof.
  destruct p as [x y]. intros [[Hx0 Hx] [Hy0 Hy]]. simpl in *.
  unfold shown, print_grid. simpl.
  rewrite list_lookup_fmap, (range_lookup height y) by lia. simpl.
  change (Z.to_nat x + (Z.to_nat x + 0))%nat with (2 * Z.to_nat x)%nat.
  erewrite concat_single_get; [|apply print_grid_rows|].
  2: { rewrite list_lookup_fmap, (range_lookup width x) by lia. done. }
  unfold cell.
  rewrite (bool_decide_ext ((x, y) ∈ (list_to_set (default [] path) : gset (Z * Z)))
             ((x, y) ∈ default [] path)) by apply elem_of_list_to_set.
  by repeat case_bool_decide.
Qed.
End PrintGrid.

(** [print_grid] prints one line for every row of the grid, none when
    the height is not positive.  For a positive width every line holds
    one character for every column, with one space between two of them,
    which are [2 * width - 1] characters; for a width that is not
    positive every line is empty. *)
Theorem print_grid_size (width height : Z) (blocked : gset (Z * Z))
    (path : option (list (Z * Z))) (start goal : Z * Z) :
  Z.of_nat (length (RobopathMain.print_grid width height blocked path start goal)) =
    Z.max 0 height ∧
  Forall (λ line, Z.of_nat (String.length line) = Z.max 0 (2 * width - 1))
    (RobopathMain.print_grid width height blocked path start goal).
Proof.
  split; [rewrite print_grid_length; lia|]. unfold RobopathMain.print_grid.
  apply Forall_fmap, Forall_forall. intros y _. simpl.
  rewrite concat_single_length by apply print_grid_rows.
  rewrite length_fmap, range_length. lia.
Qed.

(** Reading the printed grid back: for a cell of the grid, the character
    at twice its column in the line of its row is [S] for the start,
    else [G] for the goal, else [*] for a cell of the path, else [#] for
    a blocked cell, else a dot. *)
Theorem print_grid_shown (width height : Z) (blocked : gset (Z * Z))
    (path : option (list (Z * Z))) (start goal p : Z * Z) :
  GridSpec.in_bounds width height p →
  RobopathMain.shown
    (RobopathMain.print_grid width height blocked path start goal) p =
    Some (if bool_decide (p = start) then "S"
          else if bool_decide (p = goal) then "G"
          else if bool_decide (p ∈ default [] path) then "*"
          else if bool_decide (p ∈ blocked) then "#"
          else ".")%char.
Proof. apply print_grid_char. Qed.

Lemma print_grid_shown_witness :
  RobopathMain.shown
    (RobopathMain.print_grid 5 3 {[ (1, 0); (1, 1); (3, 1) ]}
       (Some [(0, 0); (0, 1); (0, 2); (1, 2); (2, 2); (3, 2); (4, 2)])
       (0, 0) (4, 2)) (3, 1) = Some "#"%char.
Proof.
  rewrite (print_grid_shown 5 3 {[ (1, 0); (1, 1); (3, 1) ]}
             (Some [(0, 0); (0, 1); (0, 2); (1, 2); (2, 2); (3, 2); (4, 2)])
             (0, 0) (4, 2) (3, 1)).
  - by vm_compute.
  - unfold GridSpec.in_bounds. simpl. lia.
Defined.

Lemma path_cells_free (width height : Z) (blocked : gset (Z * Z))
    (l : list (Z * Z)) (a b p : Z * Z) :
  path_from_to (GridSpec.grid_step width height blocked) l a b →
  p ∈ l → p = a ∨ p ∉ blocked.
Proof.
  intros (Hh & _ & Hc) Hp.
  assert (Forall (λ x, x = a ∨ x ∉ blocked) l) as Hall.
  { eapply chained_Forall; [|done|by left|done]. intros x y _ [_ Hy]. by right. }
  rewrite Forall_forall in Hall. by apply Hall.
Qed.

(** The grid printed for a result of [astar] hides no wall: a cell of
    the grid shows [#] exactly when it is blocked and is neither the
    start nor the goal, and [*] exactly when it is a cell of the path
    other than the start and the goal. *)
Theorem astar_printed_walls (start goal : Z * Z) (width height : Z)
    (blocked : gset (Z * Z)) (fuel : nat) (path : option (list (Z * Z)))
    (p : Z * Z) :
  Robopath.astar start goal width height blocked fuel = Some (Returned path) →
  GridSpec.in_bounds width height p →
  (RobopathMain.shown
     (RobopathMain.print_grid width height blocked path start goal) p =
     Some "#"%char ↔ p ∈ blocked ∧ p ≠ start ∧ p ≠ goal) ∧
  (RobopathMain.shown
     (RobopathMain.print_grid width height blocked path start goal) p =
     Some "*"%char ↔ p ∈ default [] path ∧ p ≠ start ∧ p ≠ goal).
Proof.
  intros (stf & Hrun)%astar_Some_run Hp.
  destruct (astar_run_post _ _ _ _ _ _ _ _ Hrun) as [Hpost _].
  rewrite (print_grid_char _ _ _ _ _ _ _ Hp).
  assert (p ∈ default [] path → p = start ∨ p ∉ blocked) as Hfree.
  { destruct path as [l|]; simpl; [|by intros ?%elem_of_nil].
    destruct Hpost as [Hpath _]. by eapply path_cells_free. }
  repeat case_bool_decide; split; split;
    try (intros [= ?]); try (intros (? & ? & ?)); try done; try tauto.
Qed.

Lemma astar_printed_walls_witness :
  RobopathMain.shown
    (RobopathMain.print_grid 5 3 {[ (1, 0); (1, 1); (3, 1) ]}
       (Some [(0, 0); (0, 1); (0, 2); (1, 2); (2, 2); (3, 2); (4, 2)])
       (0, 0) (4, 2)) (1, 2) = Some "*"%char ↔
  (1, 2) ∈ [(0, 0); (0, 1); (0, 2); (1, 2); (2, 2); (3, 2); (4, 2)] ∧
  (1, 2) ≠ (0, 0) ∧ (1, 2) ≠ (4, 2).
Proof.
  apply (astar_printed_walls (0, 0) (4, 2) 5 3 {[ (1, 0); (1, 1); (3, 1) ]} 100
           (Some [(0, 0); (0, 1); (0, 2); (1, 2); (2, 2); (3, 2); (4, 2)]) (1, 2)).
  - exact robopath_demo.
  - unfold GridSpec.in_bounds. simpl. lia.
Defined.

(** * The command line of robopath.py *)

(** With seven or more arguments of which the two sizes are integers
    but a coordinate of the start is not, [main] searches a grid of the
    given sizes with the start, the goal and the blocked cells of the
    demonstration: the assignments made before the exception stay. *)
Theorem main_arguments_partial (int : string → option Z) (argv : list string)
    (w h : Z) :
  (7 ≤ length argv)%nat →
  RobopathMain.arg int argv 1 = Some w →
  RobopathMain.arg int argv 2 = Some h →
  RobopathMain.arg int argv 3 = None ∨ RobopathMain.arg int argv 4 = None →
  RobopathMain.configure int argv =
    {| RobopathMain.width := w; RobopathMain.height := h;
       RobopathMain.start := (0, 0); RobopathMain.goal := (4, 2);
       RobopathMain.blocked := {[ (1, 0); (1, 1); (3, 1) ]} |}.
Proof.
  intros Hlen H1 H2 H34. unfold RobopathMain.configure, RobopathMain.parse_args.
  rewrite bool_decide_true by done. rewrite H1, H2.
  destruct H34 as [-> | H4]; [done|].
  destruct (RobopathMain.arg int argv 3); [|done]. by rewrite H4.
Qed.

Lemma main_arguments_partial_witness :
  RobopathMain.configure (λ s, if String.eqb s "x" then None else Some 2)
    ["robopath.py"; "2"; "2"; "x"; "0"; "1"; "1"]%string =
    {| RobopathMain.width := 2; RobopathMain.height := 2;
       RobopathMain.start := (0, 0); RobopathMain.goal := (4, 2);
       RobopathMain.blocked := {[ (1, 0); (1, 1); (3, 1) ]} |}.
Proof.
  apply (main_arguments_partial (λ s, if String.eqb s "x" then None else Some 2)
           ["robopath.py"; "2"; "2"; "x"; "0"; "1"; "1"]%string 2 2).
  - simpl. lia.
  - reflexivity.
  - reflexivity.
  - left. reflexivity.
Defined.

(** Whatever the arguments and whatever [int] makes of them, the blocked
    cells of [main] are those of the demonstration; with fewer than
    seven arguments all its settings are; and with seven or more that
    are all integers the sizes, the start and the goal are the given
    ones. *)
Theorem main_arguments (int : string → option Z) (argv : list string) :
  RobopathMain.blocked (RobopathMain.configure int argv) =
    {[ (1, 0); (1, 1); (3, 1) ]} ∧
  ((length argv < 7)%nat →
   RobopathMain.configure int argv = RobopathMain.defaults) ∧
  (∀ w h sx sy gx gy,
     (7 ≤ length argv)%nat →
     RobopathMain.arg int argv 1 = Some w → RobopathMain.arg int argv 2 = Some h →
     RobopathMain.arg int argv 3 = Some sx → RobopathMain.arg int argv 4 = Some sy →
     RobopathMain.arg int argv 5 = Some gx → RobopathMain.arg int argv 6 = Some gy →
     RobopathMain.configure int argv =
       {| RobopathMain.width := w; RobopathMain.height := h;
          RobopathMain.start := (sx, sy); RobopathMain.goal := (gx, gy);
          RobopathMain.blocked := {[ (1, 0); (1, 1); (3, 1) ]} |}).
Proof.
  unfold RobopathMain.configure, RobopathMain.parse_args. split_and!.
  - case_bool_decide; [|done].
    repeat (destruct (RobopathMain.arg int argv _); [|done]). done.
  - intros Hlen. rewrite bool_decide_false by lia. done.
  - intros w h sx sy gx gy Hlen -> -> -> -> -> ->.
    by rewrite bool_decide_true by done.
Qed.

Lemma main_arguments_witness :
  RobopathMain.configure (λ _, Some 1) [] = RobopathMain.defaults ∧
  RobopathMain.configure (λ _, Some 1)
    ["a"; "b"; "c"; "d"; "e"; "f"; "g"]%string =
    {| RobopathMain.width := 1; RobopathMain.height := 1;
       RobopathMain.start := (1, 1); RobopathMain.goal := (1, 1);
       RobopathMain.blocked := {[ (1, 0); (1, 1); (3, 1) ]} |}.
Proof.
  split.
  - apply (proj1 (proj2 (main_arguments (λ _, Some 1) []))). simpl. lia.
  - apply (proj2 (proj2 (main_arguments (λ _, Some 1)
                           ["a"; "b"; "c"; "d"; "e"; "f"; "g"]%string)));
      [simpl; lia|reflexivity..].
Defined.

(** [main] ends for all arguments without an exception; it prints the
    rows of the grid and one more line, and this line is
    [No path found] exactly when no route leads from the start to the
    goal of its settings. *)
Theorem main_reports (int : string → option Z) (argv : list string) :
  ∃ fuel0 lines,
    (∀ fuel, (fuel0 ≤ fuel)%nat →
       RobopathMain.main int fuel argv = Some (Returned lines)) ∧
    length lines = S (Z.to_nat (RobopathMain.height (RobopathMain.configure int argv))) ∧
    (last lines = Some "No path found"%string ↔
     ∀ n, ¬ steps
       (GridSpec.grid_step
          (RobopathMain.width (RobopathMain.configure int argv))
          (RobopathMain.height (RobopathMain.configure int argv))
          (RobopathMain.blocked (RobopathMain.configure int argv)))
       n (RobopathMain.start (RobopathMain.configure int argv))
       (RobopathMain.goal (RobopathMain.configure int argv))).
Proof.
  set (l := RobopathMain.configure int argv).
  destruct (astar_run_total (RobopathMain.start l) (RobopathMain.goal l)
              (RobopathMain.width l) (RobopathMain.height l) (RobopathMain.blocked l))
    as (fuel0 & r & stf & Hall & Hpost & _).
  destruct r as [path|e]; [|done]. eexists fuel0, _. split_and!.
  - intros fuel Hfuel. unfold RobopathMain.main, Robopath.astar. fold l.
    rewrite (Hall fuel Hfuel). reflexivity.
  - rewrite length_app, print_grid_length. simpl. lia.
  - rewrite last_snoc. destruct path as [[|p path]|]; simpl in Hpost.
    + by destruct Hpost as [[? _] _].
    + split; [done|]. intros Hno. destruct Hpost as [Hpath _].
      by apply path_steps, Hno in Hpath.
    + done.
Qed.

(** * Further properties of the puzzle *)

Section PuzzleMore.
Import Week3 PuzzleSpec.

Lemma index_absent (v : Z) (l : list Z) : v ∉ l → index v l = Raised ValueError.
Proof.
  induction l as [|x l IH]; [done|]. intros [Hx Hl]%not_elem_of_cons. simpl.
  rewrite bool_decide_false by done. by rewrite IH.
Qed.

Lemma heuristic_step_short (ts : list Z) (d i : Z) :
  Z.of_nat (length ts) ≤ i → heuristic_step ts d i = Raised IndexError.
Proof.
  intros Hi. unfold heuristic_step, getitem, norm_index.
  rewrite (bool_decide_false (i < 0)) by lia.
  by rewrite bool_decide_false by lia.
Qed.

Lemma tile_distance_adjacent_neq (k k' : nat) (t : Z) :
  adjacent_pos k k' → t ≠ 0 →
  tile_distance (Z.of_nat k) t ≠ tile_distance (Z.of_nat k') t.
Proof.
  intros (_ & _ & Hadj) Ht. unfold tile_distance.
  rewrite !bool_decide_true by done. revert Hadj.
  generalize (Z.of_nat k `div` 3) (Z.of_nat k `mod` 3)
             (Z.of_nat k' `div` 3) (Z.of_nat k' `mod` 3)
             ((t - 1) `div` 3) ((t - 1) `mod` 3). lia.
Qed.

Local Ltac split9 H k :=
  let Hc := fresh "Hc" in
  assert (k = 0 ∨ k = 1 ∨ k = 2 ∨ k = 3 ∨ k = 4 ∨ k = 5 ∨ k = 6 ∨ k = 7 ∨ k = 8)%nat
    as Hc by (destruct H as (? & ? & _); lia);
  destruct Hc as [->|[->|[->|[->|[->|[->|[->|[->| ->]]]]]]]].

(** Moving a tile changes the heuristic by exactly one. *)
Lemma h_total_swap_exact (ts : list Z) (k k' : nat) (t : Z) :
  length ts = 9%nat → ts !! k = Some 0 → ts !! k' = Some t → t ≠ 0 →
  adjacent_pos k k' →
  h_total (<[ k' := 0 ]> (<[ k := t ]> ts)) = h_total ts + 1 ∨
  h_total (<[ k' := 0 ]> (<[ k := t ]> ts)) = h_total ts - 1.
Proof.
  intros Hlen Hk Hk' Ht Hadj.
  destruct (h_total_swap ts k k' t Hlen Hk Hk' Hadj) as [Hle Hge].
  enough (h_total (<[ k' := 0 ]> (<[ k := t ]> ts)) ≠ h_total ts) by lia.
  clear Hle Hge.
  destruct (length9 _ Hlen) as (t0 & t1 & t2 & t3 & t4 & t5 & t6 & t7 & t8 & ->).
  pose proof (adjacent_pos_sym _ _ Hadj) as Hadj'.
  pose proof (tile_distance_adjacent_neq _ _ t Hadj Ht) as Hne.
  pose proof Hadj as (_ & _ & Hd).
  split9 Hadj k; split9 Hadj' k'; vm_compute in Hd; try discriminate Hd;
    injection Hk as ->; injection Hk' as ->;
    repeat match goal with
           | H : context [Z.of_nat ?n] |- _ =>
             let v := eval vm_compute in (Z.of_nat n) in
             change (Z.of_nat n) with v in H
           end;
    cbn [insert list_insert];
    rewrite !h_total_9, ?tile_distance_blank; lia.
Qed.
End PuzzleMore.

(** [is_goal], which tests the heuristic against 0, holds of a
    permutation of 0..8 exactly when it is the goal arrangement. *)
Theorem is_goal_iff_goal (s : Week3.PuzzleState) :
  PuzzleSpec.valid_tiles (Week3.tiles s) →
  Week3.is_goal s = Returned (bool_decide (Week3.tiles s = Week3.goal)).
Proof.
  intros Hv. rewrite (is_goal_valid s Hv). f_equal. apply bool_decide_ext. split.
  - by apply h_total_zero.
  - by intros ->.
Qed.

Lemma is_goal_iff_goal_witness :
  Week3.is_goal (PuzzleSpec.fresh near_tiles) =
    Returned (bool_decide (near_tiles = Week3.goal)).
Proof.
  apply (is_goal_iff_goal (PuzzleSpec.fresh near_tiles)).
  apply sorted_range9. vm_compute. reflexivity.
Defined.

(** Every state that [get_moves] produces from a permutation of 0..8
    has a heuristic value one more or one less than its predecessor. *)
Theorem heuristic_changes_by_one (s s' : Week3.PuzzleState) (l : list Week3.PuzzleState) :
  PuzzleSpec.valid_tiles (Week3.tiles s) →
  Week3.get_moves s = Returned l → s' ∈ l →
  ∃ h h', Week3.heuristic s = Returned h ∧ Week3.heuristic s' = Returned h' ∧
          (h' = h + 1 ∨ h' = h - 1).
Proof.
  intros Hv Hl Hs'.
  destruct (state_step_tiles s s' Hv) as (Hv' & _); [by exists l|].
  destruct (get_moves_spec s (valid_length _ Hv) (valid_blank _ Hv))
    as (l' & k & Hl' & Hk & Hall).
  rewrite Hl in Hl'. injection Hl' as <-.
  destruct (Hall s' Hs') as (k' & t & Hadj & Hk' & Hts & _).
  exists (PuzzleSpec.h_total (Week3.tiles s)), (PuzzleSpec.h_total (Week3.tiles s')).
  split_and!; [by apply heuristic_valid..|].
  rewrite Hts. apply h_total_swap_exact; [by apply valid_length|done..| |done].
  intros ->. pose proof (NoDup_lookup _ _ _ _ (valid_NoDup _ Hv) Hk Hk') as ->.
  destruct Hadj as (_ & _ & Hadj). lia.
Qed.

Lemma heuristic_changes_by_one_witness :
  ∃ h h', Week3.heuristic (PuzzleSpec.fresh near_tiles) = Returned h ∧
          Week3.heuristic near_goal = Returned h' ∧ (h' = h + 1 ∨ h' = h - 1).
Proof.
  destruct (Week3.get_moves (PuzzleSpec.fresh near_tiles)) as [l|] eqn:Hl;
    [|by vm_compute in Hl].
  apply (heuristic_changes_by_one (PuzzleSpec.fresh near_tiles) near_goal l).
  - apply sorted_range9. vm_compute. reflexivity.
  - exact Hl.
  - vm_compute in Hl. injection Hl as <-. do 2 right. left.
Defined.

(** On a state without a blank [get_moves] raises [ValueError]. *)
Theorem get_moves_without_blank (s : Week3.PuzzleState) :
  0 ∉ Week3.tiles s → Week3.get_moves s = Raised ValueError.
Proof.
  intros Hb. unfold Week3.get_moves. by rewrite index_absent.
Qed.

Lemma get_moves_without_blank_witness :
  Week3.get_moves (PuzzleSpec.fresh [1; 2; 3]) = Raised ValueError.
Proof.
  apply (get_moves_without_blank (PuzzleSpec.fresh [1; 2; 3])).
  vm_compute. intros H. repeat (inversion H as [|? ? ? H']; subst; clear H; rename H' into H).
Defined.

(** On a state with fewer than nine tiles, all of them in 0..8,
    [heuristic] and [is_goal] raise [IndexError]. *)
Theorem heuristic_short_tuple (s : Week3.PuzzleState) :
  (length (Week3.tiles s) < 9)%nat → (∀ t, t ∈ Week3.tiles s → 0 ≤ t ≤ 8) →
  Week3.heuristic s = Raised IndexError ∧ Week3.is_goal s = Raised IndexError.
Proof.
  intros Hlen Hrange.
  assert (Week3.heuristic s = Raised IndexError) as Hh.
  { destruct s as [ts m p d]. simpl in *.
    unfold Week3.heuristic, Week3.range9. cbn [Week3.tiles for_each].
    do 9 (destruct ts as [|? ts];
      [repeat (erewrite heuristic_step_spec;
               [cbn [mbind outcome_bind]|lia|reflexivity|apply Hrange; set_solver]);
       rewrite heuristic_step_short by (simpl; lia); reflexivity|]).
    simpl in Hlen. lia. }
  split; [done|]. unfold Week3.is_goal. by rewrite Hh.
Qed.

Lemma heuristic_short_tuple_witness :
  Week3.heuristic (PuzzleSpec.fresh [1; 2; 0]) = Raised IndexError ∧
  Week3.is_goal (PuzzleSpec.fresh [1; 2; 0]) = Raised IndexError.
Proof.
  apply (heuristic_short_tuple (PuzzleSpec.fresh [1; 2; 0])).
  - simpl. lia.
  - intros t Ht. simpl in Ht.
    apply elem_of_cons in Ht as [->|Ht]; [lia|].
    apply elem_of_cons in Ht as [->|Ht]; [lia|].
    apply elem_of_cons in Ht as [->|Ht]; [lia|].
    by apply elem_of_nil in Ht.
Defined.

(** An arrangement whose tiles, the blank left out, stand in an odd
    number of inverted pairs is reported unsolved: [solve] exhausts the
    frontier and returns found = false with the empty path. *)
Theorem odd_parity_unsolved (ts : list Z) (sv : Week3.Solver) :
  Week3.init ts = Returned sv → PuzzleSpec.parity ts = 1 →
  ∃ fuel0 n_exp stf, ∀ fuel, (fuel0 ≤ fuel)%nat →
    Week3.solve_run fuel sv = Some (Returned (false, [], n_exp), stf).
Proof.
  intros Hinit Hodd. apply (solve_unreachable ts sv Hinit).
  intros n Hn. apply parity_steps in Hn; [|by apply init_Returned in Hinit as [? _]].
  rewrite Hodd in Hn. by vm_compute in Hn.
Qed.

Lemma odd_parity_unsolved_witness :
  ∃ sv, Week3.init [2; 1; 3; 4; 5; 6; 7; 8; 0] = Returned sv ∧
    ∃ fuel0 n_exp stf, ∀ fuel, (fuel0 ≤ fuel)%nat →
      Week3.solve_run fuel sv = Some (Returned (false, [], n_exp), stf).
Proof.
  destruct (Week3.init [2; 1; 3; 4; 5; 6; 7; 8; 0]) as [sv|] eqn:Hinit;
    [|by vm_compute in Hinit].
  exists sv. split; [done|].
  apply (odd_parity_unsolved [2; 1; 3; 4; 5; 6; 7; 8; 0] sv Hinit).
  vm_compute. reflexivity.
Defined.

Lemma chained_moves (l : list Week3.PuzzleState) (a : Week3.PuzzleState) :
  chained PuzzleSpec.state_step l → head l = Some a →
  PuzzleSpec.valid_tiles (Week3.tiles a) →
  ∀ (i : nat) s, l !! i = Some s →
    Week3.moves s = Week3.moves a + Z.of_nat i ∧
    PuzzleSpec.valid_tiles (Week3.tiles s) ∧
    (∀ j, i = S j → Week3.parent s = l !! j).
Proof.
  revert a. induction l as [|x l IH]; intros a Hc Hh Hv i s Hi; [done|].
  injection Hh as ->. destruct i as [|i].
  - injection Hi as <-. split_and!; [lia|done|done].
  - destruct l as [|y l]; [done|]. destruct Hc as [Hay Hc].
    destruct (state_step_tiles a y Hv Hay) as (Hvy & Hm & Hp).
    destruct (IH y Hc eq_refl Hvy i s Hi) as (Hms & Hvs & Hps).
    split_and!; [lia|done|].
    intros j [= <-]. destruct i as [|i]; [|by apply Hps].
    simpl in Hi. injection Hi as <-. done.
Qed.

(** A path that [solve] returns with found = true starts with the
    initial state and ends in a state with the goal tiles; the state at
    index i has made i moves, so the number of moves of the last state
    is the length of the path less one, and each later state has its
    predecessor in the path as parent. *)
Theorem solve_path_moves (ts : list Z) (sv : Week3.Solver) (fuel : nat)
    (path : list Week3.PuzzleState) (n : Z) stf :
  Week3.init ts = Returned sv →
  Week3.solve_run fuel sv = Some (Returned (true, path, n), stf) →
  head path = Some (Week3.initial_state sv) ∧
  (∃ s, last path = Some s ∧ Week3.tiles s = Week3.goal) ∧
  ∀ (i : nat) s, path !! i = Some s →
    Week3.moves s = Z.of_nat i ∧
    (∀ j, i = S j → Week3.parent s = path !! j).
Proof.
  intros Hinit Hrun.
  destruct (solve_run_post _ _ _ _ _ Hinit Hrun) as [(s & (Hh & Hl & Hc) & Hg) _].
  destruct (init_Returned _ _ Hinit) as [Hv Hsv].
  split_and!; [done|by exists s|].
  intros i s' Hi.
  destruct (chained_moves path (Week3.initial_state sv) Hc Hh) with (i := i) (s := s')
    as (Hm & _ & Hp); [by subst sv|done|].
  split; [|done]. rewrite Hm. subst sv. simpl. lia.
Qed.

Lemma solve_path_moves_witness :
  ∃ sv path stf,
    Week3.init near_tiles = Returned sv ∧
    Week3.solve_run 2 sv = Some (Returned (true, path, 2), stf) ∧
    head path = Some (Week3.initial_state sv) ∧
    (∃ s, last path = Some s ∧ Week3.tiles s = Week3.goal) ∧
    ∀ (i : nat) s, path !! i = Some s →
      Week3.moves s = Z.of_nat i ∧
      (∀ j, i = S j → Week3.parent s = path !! j).
Proof.
  destruct (Week3.init near_tiles) as [sv|] eqn:Hinit; [|by vm_compute in Hinit].
  destruct (Week3.solve_run 2 sv) as [[[[[[] path] n]|] stf]|] eqn:Hrun;
    try (vm_compute in Hinit; injection Hinit as <-; by vm_compute in Hrun).
  assert (n = 2) as ->.
  { vm_compute in Hinit. injection Hinit as <-. vm_compute in Hrun. congruence. }
  exists sv, path, stf. split; [done|]. split; [done|].
  exact (solve_path_moves near_tiles sv 2 path 2 stf Hinit Hrun).
Defined.

(** * The successor generator of the puzzle *)

Section MovesRefinement.
Import Week3 PuzzleSpec MovesSpec.

Local Ltac run_moves :=
  unfold directions; cbn [for_each];
  repeat (rewrite move_step_swap; cbn [tiles];
          match goal with
          | |- context [swap_blank ?a ?b ?c] =>
            let r := eval vm_compute in (swap_blank a b c) in
            change (swap_blank a b c) with r
          end;
          cbn [mbind outcome_bind app fst]).

Lemma blank_index (ts : list Z) (k : nat) :
  valid_tiles ts → ts !! k = Some 0 → index 0 ts = Returned (Z.of_nat k).
Proof.
  intros Hv Hk. destruct (index_spec 0 ts (valid_blank _ Hv)) as (k0 & -> & Hk0 & _).
  by rewrite (NoDup_lookup _ _ _ _ (valid_NoDup _ Hv) Hk0 Hk).
Qed.

Lemma get_moves_candidates (s : PuzzleState) (k : nat) :
  valid_tiles (tiles s) → tiles s !! k = Some 0 →
  get_moves s = Returned (moved s k <$> candidates k).
Proof.
  intros Hv Hk. pose proof (lookup_lt_Some _ _ _ Hk) as Hk9.
  rewrite (valid_length _ Hv) in Hk9.
  unfold get_moves. rewrite (blank_index _ _ Hv Hk). cbn [mbind outcome_bind].
  destruct s as [ts m p d]. cbn [tiles moves] in *.
  destruct (length9 _ (valid_length _ Hv))
    as (t0 & t1 & t2 & t3 & t4 & t5 & t6 & t7 & t8 & ->).
  clear Hv.
  assert (k = 0 ∨ k = 1 ∨ k = 2 ∨ k = 3 ∨ k = 4 ∨ k = 5 ∨ k = 6 ∨ k = 7 ∨ k = 8)%nat
    as Hcase by lia.
  destruct Hcase as [->|[->|[->|[->|[->|[->|[->|[->| ->]]]]]]]];
    injection Hk as ->; run_moves; reflexivity.
Qed.

Local Ltac distinct H :=
  repeat (let Hni := fresh "Hni" in
          apply NoDup_cons in H as [Hni H];
          rewrite !not_elem_of_cons in Hni; destruct_and!).

Local Ltac nine k Hk9 :=
  let Hc := fresh "Hc" in
  assert (k = 0 ∨ k = 1 ∨ k = 2 ∨ k = 3 ∨ k = 4 ∨ k = 5 ∨ k = 6 ∨ k = 7 ∨ k = 8)%nat
    as Hc by lia;
  clear Hk9;
  destruct Hc as [->|[->|[->|[->|[->|[->|[->|[->| ->]]]]]]]].

Local Ltac differ :=
  let H := fresh in
  intros H; injection H as ?; subst;
  match goal with
  | H' : ?x ≠ ?x |- _ => by destruct H'
  end.

Lemma moved_distinct (s : PuzzleState) (k : nat) :
  valid_tiles (tiles s) → tiles s !! k = Some 0 →
  NoDup (tiles <$> (moved s k <$> candidates k)) ∧
  tiles s ∉ tiles <$> (moved s k <$> candidates k).
Proof.
  intros Hv Hk. pose proof (lookup_lt_Some _ _ _ Hk) as Hk9.
  rewrite (valid_length _ Hv) in Hk9.
  pose proof (valid_NoDup _ Hv) as Hnd.
  destruct s as [ts m p d]. cbn [tiles] in *.
  destruct (length9 _ (valid_length _ Hv))
    as (t0 & t1 & t2 & t3 & t4 & t5 & t6 & t7 & t8 & ->).
  clear Hv.
  nine k Hk9; injection Hk as ->; distinct Hnd; vm_compute candidates;
    cbn [fmap list_fmap moved tiles exchange lookup list_lookup insert list_insert snd];
    (split; [repeat (apply NoDup_cons; split;
                     [rewrite ?not_elem_of_cons; split_and?;
                      first [apply not_elem_of_nil|differ]|]);
             apply NoDup_nil_2
            |rewrite ?not_elem_of_cons; split_and?;
             first [apply not_elem_of_nil|differ]]).
Qed.

Lemma candidates_length (k : nat) :
  (k < 9)%nat →
  length (candidates k) =
    if bool_decide (k = 4%nat) then 4%nat
    else if bool_decide (k ∈ [1; 3; 5; 7]%nat) then 3%nat else 2%nat.
Proof.
  intros Hk9. nine k Hk9; reflexivity.
Qed.

(** A move can be taken back by the move in the opposite direction. *)
Lemma moved_back (s : PuzzleState) (k : nat) (c : string * nat) :
  valid_tiles (tiles s) → tiles s !! k = Some 0 → c ∈ candidates k →
  tiles (moved s k c) !! c.2 = Some 0 ∧
  (opposite c.1, k) ∈ candidates c.2 ∧
  tiles (moved (moved s k c) c.2 (opposite c.1, k)) = tiles s.
Proof.
  intros Hv Hk Hc. pose proof (lookup_lt_Some _ _ _ Hk) as Hk9.
  rewrite (valid_length _ Hv) in Hk9.
  destruct s as [ts m p d]. cbn [tiles] in *.
  destruct (length9 _ (valid_length _ Hv))
    as (t0 & t1 & t2 & t3 & t4 & t5 & t6 & t7 & t8 & ->).
  clear Hv.
  nine k Hk9; injection Hk as ->; vm_compute in Hc;
    repeat (apply elem_of_cons in Hc as [->|Hc]); try (by apply elem_of_nil in Hc);
    (split_and!; [reflexivity|vm_compute; set_solver|reflexivity]).
Qed.
End MovesRefinement.

(** [get_moves] refines the description of the specification: for a
    permutation of 0..8 with the blank at position k it returns, in the
    order up, down, left, right, one state for every direction that
    keeps the blank on the board; the state has the blank and the tile
    of the target position exchanged, one move more, the argument as
    parent and the direction as label. *)
Theorem get_moves_refines (s : Week3.PuzzleState) (k : nat) :
  PuzzleSpec.valid_tiles (Week3.tiles s) → Week3.tiles s !! k = Some 0 →
  Week3.get_moves s = Returned (MovesSpec.moved s k <$> MovesSpec.candidates k).
Proof. apply get_moves_candidates. Qed.

Lemma get_moves_refines_witness :
  Week3.get_moves (PuzzleSpec.fresh near_tiles) =
    Returned (MovesSpec.moved (PuzzleSpec.fresh near_tiles) 7 <$>
              MovesSpec.candidates 7).
Proof.
  apply (get_moves_refines (PuzzleSpec.fresh near_tiles) 7).
  - apply sorted_range9. vm_compute. reflexivity.
  - reflexivity.
Defined.

(** For a permutation of 0..8 [get_moves] returns four states when the
    blank is in the centre, three when it is on the middle of a side and
    two when it is in a corner; their arrangements differ from each
    other and from the argument. *)
Theorem get_moves_count_distinct (s : Week3.PuzzleState) (k : nat) :
  PuzzleSpec.valid_tiles (Week3.tiles s) → Week3.tiles s !! k = Some 0 →
  ∃ l, Week3.get_moves s = Returned l ∧
       length l = (if bool_decide (k = 4%nat) then 4%nat
                   else if bool_decide (k ∈ [1; 3; 5; 7]%nat) then 3%nat
                   else 2%nat) ∧
       NoDup (Week3.tiles <$> l) ∧ Week3.tiles s ∉ Week3.tiles <$> l.
Proof.
  intros Hv Hk. eexists. split; [by apply get_moves_candidates|].
  rewrite length_fmap. split; [|by apply moved_distinct].
  apply candidates_length. apply lookup_lt_Some in Hk.
  by rewrite (valid_length _ Hv) in Hk.
Qed.

Lemma get_moves_count_distinct_witness :
  ∃ l, Week3.get_moves (PuzzleSpec.fresh near_tiles) = Returned l ∧
       length l = 3%nat ∧
       NoDup (Week3.tiles <$> l) ∧ near_tiles ∉ Week3.tiles <$> l.
Proof.
  apply (get_moves_count_distinct (PuzzleSpec.fresh near_tiles) 7).
  - apply sorted_range9. vm_compute. reflexivity.
  - reflexivity.
Defined.

(** Every move can be taken back: a state that [get_moves] produces
    from a permutation of 0..8 has, among its own successors, a state
    with the tiles of its predecessor, labelled with the opposite
    direction. *)
Theorem get_moves_reversible (s s' : Week3.PuzzleState) (l : list Week3.PuzzleState) :
  PuzzleSpec.valid_tiles (Week3.tiles s) →
  Week3.get_moves s = Returned l → s' ∈ l →
  ∃ l' s'', Week3.get_moves s' = Returned l' ∧ s'' ∈ l' ∧
            Week3.tiles s'' = Week3.tiles s ∧
            Week3.move_description s'' =
              MovesSpec.opposite (Week3.move_description s').
Proof.
  intros Hv Hl Hs'.
  destruct (state_step_tiles s s' Hv) as (Hv' & _); [by exists l|].
  pose proof (valid_blank _ Hv) as (k & Hk)%list_elem_of_lookup.
  rewrite (get_moves_candidates s k Hv Hk) in Hl. injection Hl as <-.
  apply list_elem_of_fmap in Hs' as (c & -> & Hc).
  destruct (moved_back s k c Hv Hk Hc) as (Hk' & Hback & Hts).
  eexists _, _. split_and!.
  - by apply (get_moves_candidates _ c.2).
  - by apply list_elem_of_fmap_2.
  - done.
  - done.
Qed.

Lemma get_moves_reversible_witness :
  ∃ l' s'', Week3.get_moves near_goal = Returned l' ∧ s'' ∈ l' ∧
            Week3.tiles s'' = near_tiles ∧
            Week3.move_description s'' = "left"%string.
Proof.
  destruct (Week3.get_moves (PuzzleSpec.fresh near_tiles)) as [l|] eqn:Hl;
    [|by vm_compute in Hl].
  apply (get_moves_reversible (PuzzleSpec.fresh near_tiles) near_goal l).
  - apply sorted_range9. vm_compute. reflexivity.
  - exact Hl.
  - vm_compute in Hl. injection Hl as <-. do 2 right. left.
Defined.

(** * The bookkeeping of [solve] *)

Section SolveMore.
Import Week3 PuzzleSpec SolveSpec.

Lemma succ_tiles_get_moves (s : PuzzleState) (l : list PuzzleState) :
  get_moves s = Returned l → succ_tiles (tiles s) = tiles <$> l.
Proof.
  intros Hl. unfold succ_tiles.
  assert (∃ l2, get_moves (fresh (tiles s)) = Returned l2 ∧
                tiles <$> l = tiles <$> l2) as (l2 & -> & <-); [|done].
  unfold get_moves in *. cbn [fresh tiles].
  destruct (index 0 (tiles s)) as [b|]; cbn [mbind outcome_bind] in *; [|done].
  by apply (move_steps_tiles s (fresh (tiles s)) b directions eq_refl [] [] l).
Qed.

Lemma h_total_goal : h_total goal = 0.
Proof. reflexivity. Qed.

Variable init : PuzzleState.
Hypothesis init_valid : valid_tiles (tiles init).
Hypothesis init_root : parent init = None.

Lemma visit_sinv (cur : PuzzleState) (st st' : SearchState) (ns : PuzzleState) :
  SInv init st →
  valid_tiles (tiles ns) → parent ns = Some cur →
  puzzle_step (tiles cur) (tiles ns) →
  tiles cur ∈ visited st →
  NoDup (tiles <$> chain cur) → (∀ t, t ∈ tiles <$> chain cur → t ∈ visited st) →
  visit st ns = Returned st' →
  SInv init st' ∧ tiles ns ∈ visited st' ∧ visited st ⊆ visited st' ∧
  solver st' = solver st.
Proof using init_valid init_root.
  intros HS Hv Hp Hstep Hcur Hnd Hsub. unfold visit.
  case_bool_decide as Hnew.
  - rewrite (heuristic_valid _ Hv). cbn [mbind outcome_bind]. intros [= <-].
    assert (tiles ns ∉ open_tiles st) as Hno.
    { intros Hin. apply Hnew, (sinv_visited _ _ HS). by right. }
    assert (tiles ns ∉ explored (solver st)) as Hne.
    { intros Hin. apply Hnew, (sinv_visited _ _ HS). by left. }
    split_and!; cbn; [|set_solver|set_solver|done].
    split; unfold open_tiles, log_tiles; cbn; unfold heappush.
    + apply elem_of_union_r, (sinv_start _ _ HS).
    + intros t. rewrite fmap_app, elem_of_app, elem_of_union, elem_of_singleton.
      rewrite (sinv_visited _ _ HS t). cbn. rewrite list_elem_of_singleton.
      unfold open_tiles. tauto.
    + intros t. rewrite fmap_app, elem_of_app. cbn. rewrite list_elem_of_singleton.
      intros [Hin| ->]; [by apply (sinv_fresh _ _ HS)|done].
    + rewrite fmap_app. apply NoDup_app. split_and!.
      * apply (sinv_nodup _ _ HS).
      * intros t Hin. cbn. rewrite list_elem_of_singleton. by intros ->.
      * cbn. apply NoDup_singleton.
    + apply (sinv_count _ _ HS).
    + intros f c s [Hin|[= _ _ ->]%list_elem_of_singleton]%elem_of_app.
      * destruct (sinv_chain _ _ HS _ _ _ Hin) as [Hn Hs]. split; [done|].
        intros t Ht. apply elem_of_union_r. by apply Hs.
      * rewrite chain_unfold, Hp. csimpl. split.
        -- apply NoDup_cons. split; [|done]. intros Hin. by apply Hnew, Hsub.
        -- intros t [->|Hin]%elem_of_cons; [set_solver|].
           apply elem_of_union_r. by apply Hsub.
    + intros t [->%elem_of_singleton|Hin]%elem_of_union.
      * destruct (sinv_reach _ _ HS _ Hcur) as [n Hn].
        exists (S n). by eapply steps_snoc.
      * by apply (sinv_reach _ _ HS).
    + rewrite fmap_app. apply NoDup_app. split_and!.
      * apply (sinv_log _ _ HS).
      * intros t Hin. cbn. rewrite list_elem_of_singleton. intros ->.
        by apply Hnew, (sinv_logged _ _ HS).
      * cbn. apply NoDup_singleton.
    + intros t. rewrite fmap_app, elem_of_app, elem_of_union, elem_of_singleton.
      rewrite (sinv_logged _ _ HS t). cbn. rewrite list_elem_of_singleton.
      unfold log_tiles. tauto.
  - intros [= <-]. by split_and!.
Qed.


Lemma popped_sinv (st : SearchState) (f c : Z) (current : PuzzleState)
    (h' : list Entry) :
  SInv init st → heappop entry_ltb (open_set st) = Some ((f, c, current), h') →
  SInv init (popped h' current st) ∧
  tiles current ∈ visited st ∧
  NoDup (tiles <$> chain current) ∧
  (∀ t, t ∈ tiles <$> chain current → t ∈ visited st).
Proof using init_valid init_root.
  intros HS Hpop. pose proof (heappop_Permutation _ _ _ _ Hpop) as Hperm.
  assert (open_tiles st ≡ₚ tiles current :: open_tiles (popped h' current st)) as Hot.
  { unfold open_tiles. rewrite Hperm. done. }
  pose proof (sinv_nodup _ _ HS) as Hnd. rewrite Hot in Hnd.
  apply NoDup_cons in Hnd as [Hnc Hnd].
  assert ((f, c, current) ∈ open_set st) as Hin by (rewrite Hperm; by left).
  assert (tiles current ∈ open_tiles st) as Hino by (rewrite Hot; by left).
  destruct (sinv_chain _ _ HS _ _ _ Hin) as [Hcn Hcs].
  split_and!; [|apply (sinv_visited _ _ HS); by right|done..].
  split; cbn.
  - apply (sinv_start _ _ HS).
  - intros t. rewrite (sinv_visited _ _ HS t), Hot, elem_of_cons, elem_of_union,
      elem_of_singleton. tauto.
  - intros t Ht [->%elem_of_singleton|He]%elem_of_union; [done|].
    apply (sinv_fresh _ _ HS t); [|done]. rewrite Hot. by right.
  - exact Hnd.
  - rewrite (size_union (C:=gset (list Z)) {[ tiles current ]}).
    + rewrite size_singleton, (sinv_count _ _ HS). lia.
    + apply disjoint_singleton_l. by apply (sinv_fresh _ _ HS).
  - intros f' c' s Hs. apply (sinv_chain _ _ HS f' c' s). rewrite Hperm. by right.
  - apply (sinv_reach _ _ HS).
  - apply (sinv_log _ _ HS).
  - apply (sinv_logged _ _ HS).
Qed.

Lemma solve_loop_sinv (fuel : nat) : ∀ st r stf,
  PuzzleSpec.PInv init st → SInv init st → SClosed None st →
  solve_loop fuel st = Some (r, stf) →
  PuzzleSpec.PInv init stf ∧ SInv init stf ∧
  match r with
  | Returned (true, path, n) =>
    n = nodes_expanded (solver stf) ∧ NoDup (tiles <$> path)
  | Returned (false, path, n) =>
    n = nodes_expanded (solver stf) ∧ open_set stf = [] ∧ SClosed None stf
  | Raised _ => True
  end.
Proof using init_valid init_root.
  induction fuel as [|fuel IH]; intros st r stf HI HS HC; [done|].
  simpl. destruct (heappop entry_ltb (open_set st)) as [[[[f c] current] h']|] eqn:Hpop.
  - pose proof (heappop_Permutation _ _ _ _ Hpop) as Hperm.
    assert ((f, c, current) ∈ open_set st) as Hin by (rewrite Hperm; by left).
    pose proof (pinv_open _ _ HI _ _ _ Hin) as Hgen.
    pose proof (generated_valid init init_valid _ Hgen) as Hv.
    assert (PuzzleSpec.PInv init (popped h' current st)) as HI'.
    { split; cbn; [|apply HI..].
      intros f' c' s' Hs'. eapply (pinv_open _ _ HI). rewrite Hperm. by right. }
    destruct (popped_sinv _ _ _ _ _ HS Hpop) as (HS' & Hcur & Hcn & Hcs).
    rewrite (is_goal_valid _ Hv). case_bool_decide as Hh.
    { intros [= <- <-]. split_and!; [done..|].
      by rewrite fmap_reverse, reverse_Permutation. }
    destruct (get_moves current) as [l|e] eqn:Hl; [|by intros [= <- <-]].
    destruct (for_each visit l (popped h' current st)) as [st''|e] eqn:Hfe;
      [|by intros [= <- <-]].
    assert (PuzzleSpec.PInv init st'' ∧ SInv init st'' ∧
            SClosed (Some (tiles current)) st'' ∧ visited st ⊆ visited st'' ∧
            (∀ a, a ∈ l → tiles a ∈ visited st'') ∧
            solver st'' = solver (popped h' current st)) as (HI'' & HS'' & HC'' & Hvs & Hl'' & Hsv).
    { apply (for_each_ind visit
               (λ done s, PuzzleSpec.PInv init s ∧ SInv init s ∧
                  SClosed (Some (tiles current)) s ∧ visited st ⊆ visited s ∧
                  (∀ a, a ∈ done → tiles a ∈ visited s) ∧
                  solver s = solver (popped h' current st))
               l (popped h' current st) st''); [|clear Hfe|done].
      - split_and!; [done|done| |done| |done].
        + intros t [->%elem_of_singleton|He]%elem_of_union Hne; [done|].
          by apply HC.
        + by intros a ?%elem_of_nil.
      - intros done a s1 s2 (HI1 & HS1 & HC1 & Hv1 & Hd1 & Hs1) Ha Hvis.
        assert (state_step current a) as Hstep by by exists l.
        destruct (state_step_tiles _ _ Hv Hstep) as (Hva & _ & Hpa).
        destruct (visit_spec init init_valid s1 a HI1) as (s2' & Hs2' & HI2 & _);
          [by eapply generated_move|].
        rewrite Hvis in Hs2'. injection Hs2' as <-.
        destruct (visit_sinv current s1 s2 a HS1 Hva Hpa) as (HS2 & Ha2 & Hv2 & Hsv2);
          [by apply state_step_puzzle_step|by apply Hv1| done
          |intros t Ht; by apply Hv1, Hcs|done|].
        split_and!; [done|done| | | |].
        + intros t Ht Hne. rewrite Hsv2 in Ht.
          destruct (HC1 t Ht Hne) as [Hg Hsucc]. split; [done|].
          intros t' Ht'. by apply Hv2, Hsucc.
        + intros t Ht. by apply Hv2, Hv1.
        + intros b [Hb| ->%list_elem_of_singleton]%elem_of_app; [|done].
          by apply Hv2, Hd1.
        + by rewrite Hsv2. }
    apply IH; [done|done|].
    intros t Ht _. destruct (decide (t = tiles current)) as [->|Hne].
    + split; [intros Hg; apply Hh; by rewrite Hg|].
      intros t' Ht'. unfold puzzle_step in Ht'.
      rewrite (succ_tiles_get_moves _ _ Hl) in Ht'.
      apply list_elem_of_fmap in Ht' as (a & -> & Ha). by apply Hl''.
    + apply HC''; [done|]. by intros [= ->].
  - intros [= <- <-]. apply heappop_None in Hpop. by split_and!.
Qed.

End SolveMore.

Section SolveRuns.
Import Week3 PuzzleSpec SolveSpec.

Lemma SInv_start_search (sv : Solver) (h0 : Z) :
  parent (initial_state sv) = None → explored sv = ∅ → nodes_expanded sv = 0 →
  SInv (initial_state sv) (start_search sv h0) ∧ SClosed None (start_search sv h0).
Proof.
  intros Hp He Hn. split.
  - split; unfold open_tiles, log_tiles; cbn.
    + set_solver.
    + intros t. rewrite He. set_solver.
    + rewrite He. set_solver.
    + apply NoDup_singleton.
    + by rewrite He, Hn, size_empty.
    + intros f c s [= _ _ ->]%list_elem_of_singleton.
      rewrite chain_unfold, Hp. csimpl. split; [apply NoDup_singleton|].
      intros t ->%list_elem_of_singleton. set_solver.
    + intros t ->%elem_of_singleton. exists O. constructor.
    + apply NoDup_singleton.
    + intros t. set_solver.
  - intros t. cbn. rewrite He. set_solver.
Qed.

(** What a call of [solve] on a new solver leaves behind. *)
Lemma solve_run_facts (ts : list Z) (sv : Solver) (fuel : nat)
    (b : bool) (path : list PuzzleState) (n : Z) (stf : SearchState) :
  init ts = Returned sv →
  solve_run fuel sv = Some (Returned (b, path, n), stf) →
  n = nodes_expanded (solver stf) ∧
  n = Z.of_nat (size (explored (solver stf))) ∧
  explored (solver stf) ⊆ visited stf ∧
  (∀ t, t ∈ visited stf → t ≡ₚ ts) ∧
  NoDup (log_tiles stf) ∧ (∀ t, t ∈ visited stf ↔ t ∈ log_tiles stf) ∧
  counter stf = Z.of_nat (length (push_log stf)) ∧
  (b = true → NoDup (tiles <$> path)) ∧
  (b = false →
   (goal ∉ explored (solver stf)) ∧
   ∀ t, t ∈ explored (solver stf) ↔ ∃ k, steps puzzle_step k ts t).
Proof.
  intros [Hv ->]%init_Returned. unfold solve_run. cbn [initial_state].
  rewrite (is_goal_valid (fresh ts) Hv). case_bool_decide as Hh.
  { intros [= <- <- <- <-]. cbn. split_and!; try done.
    - apply NoDup_nil_2.
    - intros t. set_solver.
    - intros _. apply NoDup_singleton. }
  rewrite (heuristic_valid (fresh ts) Hv). intros Hrun.
  apply (solve_loop_sinv (fresh ts) Hv eq_refl) in Hrun
    as (HI & HS & Hr).
  2: { apply (Inv_start_search
         {| initial_state := fresh ts; goal_state := fresh goal;
            explored := ∅; nodes_expanded := 0 |}). }
  2, 3: by apply (SInv_start_search
         {| initial_state := fresh ts; goal_state := fresh goal;
            explored := ∅; nodes_expanded := 0 |}).
  assert (explored (solver stf) ⊆ visited stf) as Hev.
  { intros t Ht. apply (sinv_visited _ _ HS). by left. }
  assert (n = nodes_expanded (solver stf)) as Hn by (by destruct b, Hr).
  split_and!; [done| |done|apply (pinv_visited _ _ HI)|apply (sinv_log _ _ HS)
              |apply (sinv_logged _ _ HS)|apply (pinv_counter _ _ HI)| |].
  - rewrite Hn. apply (sinv_count _ _ HS).
  - intros ->. by destruct Hr.
  - intros ->. destruct Hr as (_ & Hopen & HC).
    assert (∀ t, t ∈ visited stf → t ∈ explored (solver stf)) as Hve.
    { intros t [Ht|Ht]%(sinv_visited _ _ HS); [done|].
      unfold open_tiles in Ht. rewrite Hopen in Ht. by apply elem_of_nil in Ht. }
    split; [intros Hg; by destruct (HC goal Hg)|].
    intros t. split.
    + intros Ht. by apply (sinv_reach _ _ HS), Hev.
    + intros [k Hk].
      assert (ts ∈ explored (solver stf)) as Hts
        by apply Hve, (sinv_start _ _ HS).
      revert Hts Hk. generalize ts. intros a Ha Hk.
      induction Hk as [a|k a b c Hab _ IH]; [done|].
      apply IH, Hve. by apply (HC a).
Qed.

Lemma visit_rebase (sv : Solver) (st : SearchState) (ns : PuzzleState) :
  visit (rebase sv st) ns =
    match visit st ns with
    | Returned st' => Returned (rebase sv st')
    | Raised e => Raised e
    end.
Proof.
  unfold visit. change (visited (rebase sv st)) with (visited st).
  case_bool_decide; [|done]. by destruct (heuristic ns).
Qed.

Lemma for_each_visit_rebase (sv : Solver) (l : list PuzzleState) :
  ∀ st, for_each visit l (rebase sv st) =
    match for_each visit l st with
    | Returned st' => Returned (rebase sv st')
    | Raised e => Raised e
    end.
Proof.
  induction l as [|a l IH]; intros st; simpl; [done|].
  rewrite visit_rebase. destruct (visit st a); simpl; [apply IH|done].
Qed.

Lemma popped_rebase (sv : Solver) (h' : list Entry) (cur : PuzzleState)
    (st : SearchState) :
  popped h' cur (rebase sv st) = rebase sv (popped h' cur st).
Proof.
  unfold popped, rebase. cbn. f_equal. f_equal; [by rewrite (assoc_L (∪))|lia].
Qed.

Lemma solve_loop_S (fuel : nat) (st : SearchState) :
  solve_loop (S fuel) st =
    match heappop entry_ltb (open_set st) with
    | None => Some (Returned (false, [], nodes_expanded (solver st)), st)
    | Some ((_, _, current), h') =>
      match is_goal current with
      | Raised e => Some (Raised e, popped h' current st)
      | Returned true =>
        Some (Returned (true, reverse (chain current),
                        nodes_expanded (solver (popped h' current st))),
              popped h' current st)
      | Returned false =>
        match get_moves current with
        | Raised e => Some (Raised e, popped h' current st)
        | Returned next_states =>
          match for_each visit next_states (popped h' current st) with
          | Raised e => Some (Raised e, popped h' current st)
          | Returned st'' => solve_loop fuel st''
          end
        end
      end
    end.
Proof. reflexivity. Qed.

(** The loop of [solve] in a used solver runs as in a new one; only the
    count starts from what the solver holds. *)
Lemma solve_loop_rebase (sv : Solver) (fuel : nat) : ∀ st,
  solve_loop fuel (rebase sv st) =
    (λ p, (recount (nodes_expanded sv) p.1, rebase sv p.2)) <$> solve_loop fuel st.
Proof.
  induction fuel as [|fuel IH]; intros st; [done|].
  rewrite !solve_loop_S. change (open_set (rebase sv st)) with (open_set st).
  destruct (heappop entry_ltb (open_set st)) as [[[[f c] current] h']|]; [|done].
  rewrite popped_rebase.
  destruct (is_goal current) as [[]|]; [done| |done].
  destruct (get_moves current) as [l|]; [|done].
  rewrite for_each_visit_rebase.
  destruct (for_each visit l (popped h' current st)); [apply IH|done].
Qed.

Lemma visit_solver (st st' : SearchState) (ns : PuzzleState) :
  visit st ns = Returned st' → solver st' = solver st.
Proof.
  unfold visit. case_bool_decide; [|by intros [= <-]].
  destruct (heuristic ns); [|done]. by intros [= <-].
Qed.

Lemma solve_loop_solver (fuel : nat) : ∀ st r stf,
  solve_loop fuel st = Some (r, stf) →
  initial_state (solver stf) = initial_state (solver st) ∧
  goal_state (solver stf) = goal_state (solver st).
Proof.
  induction fuel as [|fuel IH]; intros st r stf; [done|].
  rewrite solve_loop_S.
  destruct (heappop entry_ltb (open_set st)) as [[[[f c] current] h']|];
    [|by intros [= <- <-]].
  destruct (is_goal current) as [[]|]; [by intros [= <- <-]| |by intros [= <- <-]].
  destruct (get_moves current) as [l|]; [|by intros [= <- <-]].
  destruct (for_each visit l (popped h' current st)) as [st''|] eqn:Hfe;
    [|by intros [= <- <-]].
  intros [Hi Hg]%IH.
  assert (solver st'' = solver (popped h' current st)) as Hsv.
  { apply (for_each_ind visit (λ _ s, solver s = solver (popped h' current st))
             l (popped h' current st) st''); [done| |done].
    intros _ a s1 s2 Hs1 _ Hvis. by rewrite (visit_solver _ _ _ Hvis). }
  rewrite Hsv in Hi, Hg. done.
Qed.

Lemma length_interleave {A} (x : A) (l : list A) :
  length (interleave x l) = S (length l).
Proof.
  induction l as [|y l IH]; [done|]. simpl. by rewrite length_fmap, IH.
Qed.

Lemma length_bind_const {A B} (f : A → list B) (k : list A) (m : nat) :
  (∀ y, y ∈ k → length (f y) = m) → length (k ≫= f) = (length k * m)%nat.
Proof.
  induction k as [|y k IH]; intros Hf; [done|].
  csimpl. rewrite length_app, Hf, IH; [done| |by left].
  intros z Hz. apply Hf. by right.
Qed.

Lemma length_permutations {A} (l : list A) :
  length (permutations l) = fact (length l).
Proof.
  induction l as [|x l IH]; [done|].
  cbn [permutations]. rewrite (length_bind_const _ _ (S (length l))).
  - rewrite IH. cbn [length fact]. lia.
  - intros y Hy. rewrite length_interleave. f_equal.
    apply permutations_Permutation in Hy. by rewrite Hy.
Qed.

Lemma size_list_to_set_le (l : list (list Z)) :
  (size (list_to_set l : gset (list Z)) ≤ length l)%nat.
Proof.
  induction l as [|x l IH]; [done|]. cbn [list_to_set foldr length].
  rewrite size_union_alt, size_singleton.
  pose proof (subseteq_size (list_to_set l ∖ {[ x ]}) (list_to_set l : gset (list Z))
                ltac:(set_solver)).
  lia.
Qed.

Lemma size_universe (ts : list Z) :
  valid_tiles ts → (Z.of_nat (size (universe ts)) ≤ 362880)%Z.
Proof.
  intros Hv. pose proof (size_list_to_set_le (permutations ts)) as Hle.
  rewrite length_permutations, (valid_length _ Hv) in Hle.
  apply Nat2Z.inj_le in Hle.
  assert (Z.of_nat (fact 9) = 362880) as Hf by (by vm_compute).
  unfold universe. by rewrite <-Hf.
Qed.
End SolveRuns.

(** [solve] decides whether the puzzle can be solved: on a solver that
    the constructor built it ends without an exception, and the flag of
    its result is true exactly when some sequence of moves leads from the
    initial arrangement to the goal. *)
Theorem solve_decides_solvability (ts : list Z) (sv : Week3.Solver) :
  Week3.init ts = Returned sv →
  ∃ fuel0 found path n,
    (∀ fuel, (fuel0 ≤ fuel)%nat →
       Week3.solve fuel sv = Some (Returned (found, path, n))) ∧
    (found = true ↔ ∃ k, steps PuzzleSpec.puzzle_step k ts Week3.goal).
Proof.
  intros Hinit.
  destruct (solve_run_total ts sv Hinit) as (fuel0 & r & stf & Hall & Hpost & _).
  destruct r as [[[found path] n]|e]; [|done].
  exists fuel0, found, path, n. split.
  { intros fuel Hfuel. unfold Week3.solve. by rewrite (Hall fuel Hfuel). }
  pose proof (solve_run_facts ts sv fuel0 found path n stf Hinit (Hall fuel0 (le_n _)))
    as (_ & _ & _ & _ & _ & _ & _ & _ & Hfalse).
  destruct (init_Returned _ _ Hinit) as [Hv ->].
  destruct found; simpl in Hpost.
  - split; [intros _|done]. destruct Hpost as (s & Hpath & Hg).
    exists (pred (length path)).
    apply path_steps, steps_tiles in Hpath. by rewrite Hg in Hpath.
  - split; [done|]. intros Hk. destruct (Hfalse eq_refl) as [Hg Hreach].
    by apply Hreach in Hk.
Qed.

Lemma solve_decides_solvability_witness :
  ∃ sv, Week3.init near_tiles = Returned sv ∧
    ∃ fuel0 found path n,
      (∀ fuel, (fuel0 ≤ fuel)%nat →
         Week3.solve fuel sv = Some (Returned (found, path, n))) ∧
      (found = true ↔ ∃ k, steps PuzzleSpec.puzzle_step k near_tiles Week3.goal).
Proof.
  destruct (Week3.init near_tiles) as [sv|] eqn:Hinit; [|by vm_compute in Hinit].
  exists sv. split; [done|].
  exact (solve_decides_solvability near_tiles sv Hinit).
Defined.

(** When no sequence of moves leads to the goal, [solve] expands the
    whole of what can be reached before it gives up: the arrangements
    in [self.explored] are then exactly those that moves from the initial
    arrangement lead to, and the count it reports is their number. *)
Theorem solve_failure_exhausts (ts : list Z) (sv : Week3.Solver) :
  Week3.init ts = Returned sv →
  (∀ k, ¬ steps PuzzleSpec.puzzle_step k ts Week3.goal) →
  ∃ fuel0 n stf,
    (∀ fuel, (fuel0 ≤ fuel)%nat →
       Week3.solve_run fuel sv = Some (Returned (false, [], n), stf)) ∧
    (∀ t, t ∈ Week3.explored (Week3.solver stf) ↔
          ∃ k, steps PuzzleSpec.puzzle_step k ts t) ∧
    n = Z.of_nat (size (Week3.explored (Week3.solver stf))).
Proof.
  intros Hinit Hno.
  destruct (solve_unreachable ts sv Hinit Hno) as (fuel0 & n & stf & Hall).
  exists fuel0, n, stf. split; [done|].
  pose proof (solve_run_facts ts sv fuel0 false [] n stf Hinit (Hall fuel0 (le_n _)))
    as (_ & Hn & _ & _ & _ & _ & _ & _ & Hfalse).
  split; [|done]. by destruct (Hfalse eq_refl).
Qed.

Lemma solve_failure_exhausts_witness :
  ∃ sv, Week3.init [1; 2; 3; 4; 5; 6; 8; 7; 0] = Returned sv ∧
    ∃ fuel0 n stf,
      (∀ fuel, (fuel0 ≤ fuel)%nat →
         Week3.solve_run fuel sv = Some (Returned (false, [], n), stf)) ∧
      (∀ t, t ∈ Week3.explored (Week3.solver stf) ↔
            ∃ k, steps PuzzleSpec.puzzle_step k [1; 2; 3; 4; 5; 6; 8; 7; 0] t) ∧
      n = Z.of_nat (size (Week3.explored (Week3.solver stf))).
Proof.
  destruct (Week3.init [1; 2; 3; 4; 5; 6; 8; 7; 0]) as [sv|] eqn:Hinit;
    [|by vm_compute in Hinit].
  exists sv. split; [done|].
  exact (solve_failure_exhausts [1; 2; 3; 4; 5; 6; 8; 7; 0] sv Hinit unsolvable_7_8).
Defined.

(** The count that [solve] reports for a new solver is the value of
    [self.nodes_expanded] and the number of arrangements in
    [self.explored]: no arrangement is expanded twice.  All of them are
    in [visited], and the count is at most 9! = 362880. *)
Theorem solve_counts_expansions (ts : list Z) (sv : Week3.Solver) (fuel : nat)
    (found : bool) (path : list Week3.PuzzleState) (n : Z)
    (stf : Week3.SearchState) :
  Week3.init ts = Returned sv →
  Week3.solve_run fuel sv = Some (Returned (found, path, n), stf) →
  n = Week3.nodes_expanded (Week3.solver stf) ∧
  n = Z.of_nat (size (Week3.explored (Week3.solver stf))) ∧
  Week3.explored (Week3.solver stf) ⊆ Week3.visited stf ∧
  0 ≤ n ≤ 362880.
Proof.
  intros Hinit Hrun.
  destruct (solve_run_facts ts sv fuel found path n stf Hinit Hrun)
    as (Hn & Hsize & Hev & Hperm & _).
  split_and!; [done..|lia|].
  destruct (init_Returned _ _ Hinit) as [Hv _].
  pose proof (size_universe ts Hv) as Hu.
  assert (Week3.explored (Week3.solver stf) ⊆ PuzzleSpec.universe ts) as Hsub.
  { intros t Ht. apply (in_universe (PuzzleSpec.fresh ts)). by apply Hperm, Hev. }
  apply subseteq_size in Hsub. lia.
Qed.

Lemma solve_counts_expansions_witness :
  ∃ sv path stf,
    Week3.init near_tiles = Returned sv ∧
    Week3.solve_run 2 sv = Some (Returned (true, path, 2), stf) ∧
    2 = Week3.nodes_expanded (Week3.solver stf) ∧
    2 = Z.of_nat (size (Week3.explored (Week3.solver stf))) ∧
    Week3.explored (Week3.solver stf) ⊆ Week3.visited stf ∧
    0 ≤ 2 ≤ 362880.
Proof.
  destruct (Week3.init near_tiles) as [sv|] eqn:Hinit; [|by vm_compute in Hinit].
  destruct (Week3.solve_run 2 sv) as [[[[[[] path] n]|] stf]|] eqn:Hrun;
    try (vm_compute in Hinit; injection Hinit as <-; by vm_compute in Hrun).
  assert (n = 2) as ->.
  { vm_compute in Hinit. injection Hinit as <-. vm_compute in Hrun. congruence. }
  exists sv, path, stf. split; [done|]. split; [done|].
  exact (solve_counts_expansions near_tiles sv 2 true path 2 stf Hinit Hrun).
Defined.

(** [solve] gives no arrangement to [heapq.heappush] twice: the
    arrangements pushed are those of [visited], each once, and the
    counter of the frontier entries is their number when the call
    ends. *)
Theorem solve_pushes_once (ts : list Z) (sv : Week3.Solver) (fuel : nat)
    (found : bool) (path : list Week3.PuzzleState) (n : Z)
    (stf : Week3.SearchState) :
  Week3.init ts = Returned sv →
  Week3.solve_run fuel sv = Some (Returned (found, path, n), stf) →
  NoDup (SolveSpec.log_tiles stf) ∧
  (∀ t, t ∈ Week3.visited stf ↔ t ∈ SolveSpec.log_tiles stf) ∧
  Week3.counter stf = Z.of_nat (size (Week3.visited stf)) ∧
  Week3.counter stf ≤ 362880.
Proof.
  intros Hinit Hrun.
  destruct (solve_run_facts ts sv fuel found path n stf Hinit Hrun)
    as (_ & _ & _ & Hperm & Hnd & Hlog & Hc & _).
  assert (Week3.visited stf = list_to_set (SolveSpec.log_tiles stf)) as Hvis.
  { apply set_eq. intros t. by rewrite elem_of_list_to_set. }
  assert (Week3.counter stf = Z.of_nat (size (Week3.visited stf))) as Hsize.
  { rewrite Hc, Hvis, size_list_to_set by done.
    unfold SolveSpec.log_tiles. by rewrite length_fmap. }
  split_and!; [done..|].
  destruct (init_Returned _ _ Hinit) as [Hv _].
  pose proof (size_universe ts Hv) as Hu.
  assert (Week3.visited stf ⊆ PuzzleSpec.universe ts) as Hsub.
  { intros t Ht. apply (in_universe (PuzzleSpec.fresh ts)). by apply Hperm. }
  apply subseteq_size in Hsub. lia.
Qed.

Lemma solve_pushes_once_witness :
  ∃ sv path stf,
    Week3.init near_tiles = Returned sv ∧
    Week3.solve_run 2 sv = Some (Returned (true, path, 2), stf) ∧
    NoDup (SolveSpec.log_tiles stf) ∧
    (∀ t, t ∈ Week3.visited stf ↔ t ∈ SolveSpec.log_tiles stf) ∧
    Week3.counter stf = Z.of_nat (size (Week3.visited stf)) ∧
    Week3.counter stf ≤ 362880.
Proof.
  destruct (Week3.init near_tiles) as [sv|] eqn:Hinit; [|by vm_compute in Hinit].
  destruct (Week3.solve_run 2 sv) as [[[[[[] path] n]|] stf]|] eqn:Hrun;
    try (vm_compute in Hinit; injection Hinit as <-; by vm_compute in Hrun).
  assert (n = 2) as ->.
  { vm_compute in Hinit. injection Hinit as <-. vm_compute in Hrun. congruence. }
  exists sv, path, stf. split; [done|]. split; [done|].
  exact (solve_pushes_once near_tiles sv 2 true path 2 stf Hinit Hrun).
Defined.

(** A path that [solve] returns passes through no arrangement twice. *)
Theorem solve_path_simple (ts : list Z) (sv : Week3.Solver) (fuel : nat)
    (path : list Week3.PuzzleState) (n : Z) :
  Week3.init ts = Returned sv →
  Week3.solve fuel sv = Some (Returned (true, path, n)) →
  NoDup (Week3.tiles <$> path).
Proof.
  intros Hinit. unfold Week3.solve.
  destruct (Week3.solve_run fuel sv) as [[r stf]|] eqn:Hrun; [|done].
  intros [= ->].
  destruct (solve_run_facts ts sv fuel true path n stf Hinit Hrun)
    as (_ & _ & _ & _ & _ & _ & _ & Hnd & _).
  by apply Hnd.
Qed.

Lemma solve_path_simple_witness :
  ∃ sv, Week3.init near_tiles = Returned sv ∧
    NoDup (Week3.tiles <$> [PuzzleSpec.fresh near_tiles; near_goal]).
Proof.
  destruct (Week3.init near_tiles) as [sv|] eqn:Hinit; [|by vm_compute in Hinit].
  exists sv. split; [done|].
  apply (solve_path_simple near_tiles sv 2 [PuzzleSpec.fresh near_tiles; near_goal] 2 Hinit).
  vm_compute in Hinit. injection Hinit as <-. by vm_compute.
Defined.

(** [self.explored] and [self.nodes_expanded] are set by the constructor
    only: a second call of [solve] on the same solver returns the flag
    and the path of the first call, and twice its count. *)
Theorem solve_again_doubles (ts : list Z) (sv : Week3.Solver) (fuel : nat)
    (found : bool) (path : list Week3.PuzzleState) (n : Z)
    (stf : Week3.SearchState) :
  Week3.init ts = Returned sv →
  Week3.solve_run fuel sv = Some (Returned (found, path, n), stf) →
  ∃ stf', Week3.solve_run fuel (Week3.solver stf) =
            Some (Returned (found, path, 2 * n), stf').
Proof.
  intros Hinit Hrun.
  destruct (solve_run_facts ts sv fuel found path n stf Hinit Hrun) as (Hn & _).
  destruct (init_Returned _ _ Hinit) as [Hv ->].
  revert Hrun. unfold Week3.solve_run. cbn [Week3.initial_state].
  destruct (Week3.is_goal (PuzzleSpec.fresh ts)) as [[]|] eqn:Hgoal.
  - intros [= <- <- <- <-].
    cbn [Week3.solver Week3.empty_search Week3.initial_state].
    rewrite Hgoal. by eexists.
  - destruct (Week3.heuristic (PuzzleSpec.fresh ts)) as [h0|] eqn:Hh; [|done].
    intros Hrun. destruct (solve_loop_solver _ _ _ _ Hrun) as [Hi Hg].
    cbn in Hi, Hg. rewrite Hi, Hgoal, Hh.
    set (sv0 := {| Week3.initial_state := PuzzleSpec.fresh ts;
                   Week3.goal_state := PuzzleSpec.fresh Week3.goal;
                   Week3.explored := ∅; Week3.nodes_expanded := 0 |}) in *.
    assert (Week3.start_search (Week3.solver stf) h0 =
            SolveSpec.rebase (Week3.solver stf) (Week3.start_search sv0 h0)) as ->.
    { unfold Week3.start_search, SolveSpec.rebase. cbn. rewrite Hi.
      f_equal. destruct (Week3.solver stf) as [i g E k]. cbn in *. subst i g.
      f_equal. by rewrite (left_id_L ∅ (∪)). }
    rewrite solve_loop_rebase, Hrun.
    exists (SolveSpec.rebase (Week3.solver stf) stf).
    cbn [fmap option_fmap option_map fst snd SolveSpec.recount].
    rewrite <-Hn. by replace (2 * n) with (n + n) by lia.
  - done.
Qed.

Lemma solve_again_doubles_witness :
  ∃ sv path stf stf',
    Week3.init near_tiles = Returned sv ∧
    Week3.solve_run 2 sv = Some (Returned (true, path, 2), stf) ∧
    Week3.solve_run 2 (Week3.solver stf) = Some (Returned (true, path, 2 * 2), stf').
Proof.
  destruct (Week3.init near_tiles) as [sv|] eqn:Hinit; [|by vm_compute in Hinit].
  destruct (Week3.solve_run 2 sv) as [[[[[[] path] n]|] stf]|] eqn:Hrun;
    try (vm_compute in Hinit; injection Hinit as <-; by vm_compute in Hrun).
  assert (n = 2) as ->.
  { vm_compute in Hinit. injection Hinit as <-. vm_compute in Hrun. congruence. }
  destruct (solve_again_doubles near_tiles sv 2 true path 2 stf Hinit Hrun)
    as [stf' Hrun'].
  by exists sv, path, stf, stf'.
Defined.
